(** * The HTTP streaming input (CurlInputPlugin.cxx): model and properties

    A shallow embedding of [src/input/CurlInputPlugin.cxx]: the buffer
    chunks, the per-stream state [input_curl], the consumer operations
    (open, read, seek, eof, available, tag, check), the reactor-side
    callbacks (header, write, resume, request done) and the timeout part
    of the socket bridge.

    Conventions.
    - [size_t] values are [Z] reduced modulo 2^64 ([size_t]); [goffset],
      [gint64] and [long] values are [Z] reduced to the signed 64-bit
      range ([goffset_of]); [gint] to the signed 32-bit range ([gint_of]).
      The LP64 data model of the primary platform is assumed.
    - [assert] is modelled: a failed assertion ends the call with
      [AssertFail].
    - Loops that the source writes as [while] run on fuel computed from
      the state; running out ends the call with [Spin].
    - A call that would block in [g_cond_wait] returns a "blocked"
      outcome together with the state reached; the other threads'
      actions are separate events of a trace and the blocked operation is
      entered again afterwards.  The mutex and the condition variable
      themselves are not represented. *)

From Stdlib Require Import ZArith List String Ascii Bool Lia.
From Stdlib Require Import Init.Byte.
From Stdlib Require Import Numbers.DecimalString.
From Stdlib Require DecimalPos DecimalFacts.
Import ListNotations.

Local Open Scope Z_scope.

(** ** Machine integers *)

Definition SIZE_MODULUS : Z := 2 ^ 64.

(** Conversion to [size_t] / [guint64]. *)
Definition size_t (z : Z) : Z := z mod SIZE_MODULUS.

(** Conversion to [goffset] / [gint64] / [long] (two's complement). *)
Definition goffset_of (z : Z) : Z := (z + 2 ^ 63) mod 2 ^ 64 - 2 ^ 63.

(** Conversion to [gint] (two's complement, 32 bits). *)
Definition gint_of (z : Z) : Z := (z + 2 ^ 31) mod 2 ^ 32 - 2 ^ 31.

Definition G_MAXINT64 : Z := 2 ^ 63 - 1.
Definition G_MININT64 : Z := - 2 ^ 63.
Definition G_MAXINT : Z := 2 ^ 31 - 1.
Definition G_MININT : Z := - 2 ^ 31.
Definition G_MAXUINT64 : Z := 2 ^ 64 - 1.

(** Do not buffer more than this number of bytes. *)
Definition CURL_MAX_BUFFERED : Z := 512 * 1024.

(** Resume the stream at this number of bytes after it has been paused. *)
Definition CURL_RESUME_AT : Z := 384 * 1024.

(** ** Outcomes of a call *)

Inductive res (A : Type) : Type :=
| Ok (a : A)
| AssertFail
| Spin.

Arguments Ok {A} a.
Arguments AssertFail {A}.
Arguments Spin {A}.

Definition bind {A B : Type} (m : res A) (k : A -> res B) : res B :=
  match m with
  | Ok a => k a
  | AssertFail => AssertFail
  | Spin => Spin
  end.

Definition assert (b : bool) : res unit :=
  if b then Ok tt else AssertFail.

Definition is_ok {A : Type} (m : res A) : bool :=
  match m with
  | Ok _ => true
  | _ => false
  end.

Declare Scope res_scope.
Delimit Scope res_scope with res.
Notation "x <- m ;; k" := (bind m (fun x => k))
  (at level 61, m at next level, right associativity) : res_scope.
Notation "' p <- m ;; k" := (bind m (fun p => k))
  (at level 61, p pattern, m at next level, right associativity) : res_scope.
Notation "m ;;; k" := (bind m (fun _ => k))
  (at level 61, right associativity) : res_scope.
Local Open Scope res_scope.

(** ** Buffers created by input_curl_writefunction() *)

Module CurlInputBuffer.

Record t : Type := mk {
  size : Z;            (* size of the payload *)
  consumed : Z;        (* how much has been consumed yet? *)
  data : list byte     (* the payload *)
}.

(** The constructor copies [_size] bytes from [_data]. *)
Definition make (_data : list byte) (_size : Z) : t :=
  {| size := _size; consumed := 0; data := firstn (Z.to_nat _size) _data |}.

Definition Begin (b : t) : list byte :=
  skipn (Z.to_nat (consumed b)) (data b).

Definition TotalSize (b : t) : Z := size b.

Definition Available (b : t) : Z := size_t (size b - consumed b).

(** Mark a part of the buffer as consumed; the boolean is false if the
    buffer is now empty. *)
Definition Consume (b : t) (length : Z) : res (bool * t) :=
  assert (consumed b <? size b) ;;;
  let b' := {| size := size b;
               consumed := size_t (consumed b + length);
               data := data b |} in
  if consumed b' <? size b' then Ok (true, b')
  else assert (consumed b' =? size b') ;;; Ok (false, b').

(** Copies [length] bytes to the destination, then consumes them. *)
Definition Read (b : t) (length : Z) : res (list byte * bool * t) :=
  assert (size_t (consumed b + length) <=? size b) ;;;
  let dest := firstn (Z.to_nat length) (Begin b) in
  ' (more, b') <- Consume b length ;;
  Ok (dest, more, b').

End CurlInputBuffer.

Abbreviation CurlInputBuffer := CurlInputBuffer.t.

(** ** Tags *)

(** Modelled from the spec: tag.h is not among the sources; section 3
    treats a tag as a value made of typed items, of which the plugin uses
    the name and the title. *)
Inductive tag_type : Type := TAG_NAME | TAG_TITLE.

Definition tag_type_eqb (a b : tag_type) : bool :=
  match a, b with
  | TAG_NAME, TAG_NAME | TAG_TITLE, TAG_TITLE => true
  | _, _ => false
  end.

(** Modelled from the spec: a tag is the list of its items. *)
Definition struct_tag : Type := list (tag_type * string).

(** Modelled from the spec: tag_new(), a tag without items. *)
Definition tag_new : struct_tag := [].

(** Modelled from the spec: tag_add_item() appends one item. *)
Definition tag_add_item (t : struct_tag) (ty : tag_type) (value : string) : struct_tag :=
  t ++ [(ty, value)].

(** Modelled from the spec: tag_has_type(), whether an item of the type
    is present. *)
Definition tag_has_type (t : struct_tag) (ty : tag_type) : bool :=
  existsb (fun it => tag_type_eqb (fst it) ty) t.

(** ** Character and string functions of the C library and GLib

    Strings are [string]; a C string argument is the part before the
    first NUL ([cstr]). *)

Definition NUL : ascii := Ascii.zero.

Fixpoint cstr (s : string) : string :=
  match s with
  | EmptyString => EmptyString
  | String c r => if Ascii.eqb c NUL then EmptyString else String c (cstr r)
  end.

Definition code (c : ascii) : Z := Z.of_N (N_of_ascii c).

(** g_ascii_isspace(): space, form feed, newline, carriage return,
    horizontal and vertical tab. *)
Definition g_ascii_isspace (c : ascii) : bool :=
  (code c =? 32) || ((9 <=? code c) && (code c <=? 13)).

Definition g_ascii_tolower (c : ascii) : Z :=
  if (65 <=? code c) && (code c <=? 90) then code c + 32 else code c.

(** g_ascii_strcasecmp() on two C strings. *)
Fixpoint strcasecmp_loop (s1 s2 : string) : Z :=
  match s1, s2 with
  | String c1 r1, String c2 r2 =>
      if g_ascii_tolower c1 =? g_ascii_tolower c2
      then strcasecmp_loop r1 r2
      else g_ascii_tolower c1 - g_ascii_tolower c2
  | String c1 _, EmptyString => code c1
  | EmptyString, String c2 _ => - code c2
  | EmptyString, EmptyString => 0
  end.

Definition g_ascii_strcasecmp (s1 s2 : string) : Z :=
  strcasecmp_loop (cstr s1) (cstr s2).

(** strncmp() on two C strings. *)
Fixpoint strncmp_loop (s1 s2 : string) (n : nat) {struct n} : Z :=
  match n with
  | O => 0
  | S n' =>
      match s1, s2 with
      | String c1 r1, String c2 r2 =>
          if code c1 =? code c2 then strncmp_loop r1 r2 n'
          else code c1 - code c2
      | String c1 _, EmptyString => code c1
      | EmptyString, String c2 _ => - code c2
      | EmptyString, EmptyString => 0
      end
  end.

Definition strncmp (s1 s2 : string) (n : Z) : Z :=
  strncmp_loop (cstr s1) (cstr s2) (Z.to_nat n).

(** memchr(): index of the first occurrence among the first [n] bytes. *)
Fixpoint memchr (s : string) (c : ascii) (n : nat) {struct n} : option nat :=
  match n, s with
  | S n', String a r =>
      if Ascii.eqb a c then Some O
      else option_map S (memchr r c n')
  | _, _ => None
  end.

(** The [n] bytes starting at [from]. *)
Definition span (s : string) (from n : nat) : string := substring from n s.

(** g_strndup(): at most [n] bytes, stopping at a NUL. *)
Definition g_strndup (s : string) (from n : nat) : string :=
  cstr (span s from n).

Definition byte_at (s : string) (i : nat) : ascii :=
  match String.get i s with
  | Some c => c
  | None => NUL
  end.

Definition is_digit (c : ascii) : bool := (48 <=? code c) && (code c <=? 57).

(** Accumulates decimal digits; the flag records an overflow of guint64. *)
Fixpoint parse_digits (s : string) (acc : Z) (overflow : bool) : Z * bool :=
  match s with
  | String c r =>
      if is_digit c then
        let acc' := acc * 10 + (code c - 48) in
        if G_MAXUINT64 <? acc' then parse_digits r acc true
        else parse_digits r acc' overflow
      else (acc, overflow)
  | EmptyString => (acc, overflow)
  end.

Fixpoint skip_spaces (s : string) : string :=
  match s with
  | String c r => if g_ascii_isspace c then skip_spaces r else s
  | EmptyString => s
  end.

(** g_ascii_strtoull(nptr, NULL, 10): leading white space, an optional
    sign, decimal digits; G_MAXUINT64 on overflow; a minus sign negates
    the result in guint64. *)
Definition g_ascii_strtoull (nptr : string) : Z :=
  let s := skip_spaces (cstr nptr) in
  let '(negative, s) :=
    match s with
    | String c r =>
        if code c =? 45 then (true, r)
        else if code c =? 43 then (false, r)
        else (false, s)
    | EmptyString => (false, s)
    end in
  let '(v, overflow) := parse_digits s 0 false in
  if overflow then G_MAXUINT64
  else if negative then size_t (- v) else v.

(** printf("%lld"). *)
Definition string_of_Z (z : Z) : string := NilZero.string_of_int (Z.to_int z).

(** ** The ICY metadata parser *)

Module IcyMetaDataParser.

(** Modelled from the spec: IcyMetaDataParser.hxx/.cxx are not among the
    sources.  Section 4.1: after [Start stride] the input is [stride]
    audio bytes, one length byte L, then 16*L metadata bytes, repeating;
    the states are InRun, InLength and InMeta. *)
Inductive mode : Type :=
| InRun (rest : Z)
| InLength
| InMeta (rest : Z) (text : list byte).

Record t : Type := mk {
  stride : Z;
  state : mode;
  tag : option struct_tag
}.

(** Modelled from the spec: a parser that has not been started. *)
Definition init : t := {| stride := 0; state := InRun 0; tag := None |}.

(** Modelled from the spec: the parser is active once started with a
    positive stride. *)
Definition IsDefined (p : t) : bool := 0 <? stride p.

(** Modelled from the spec: "Initial state InRun with counter stride". *)
Definition Start (p : t) (k : Z) : t :=
  {| stride := k; state := InRun k; tag := tag p |}.

(** Modelled from the spec: "data(limit): number of leading bytes in the
    next audio run (min of remaining-in-run and limit)"; without inline
    metadata every byte is audio. *)
Definition Data (p : t) (limit : Z) : Z * t :=
  if negb (IsDefined p) then (limit, p)
  else
    match state p with
    | InRun rest =>
        let n := Z.min rest limit in
        (n, {| stride := stride p;
               state := if rest - n =? 0 then InLength else InRun (rest - n);
               tag := tag p |})
    | _ => (0, p)
    end.

(** Modelled from the spec: the body of a metadata block; "when a
    metadata block completes, parses it into a tag and stores it, then
    returns to audio mode"; a block that does not parse is discarded. *)
Definition meta_body (parse : list byte -> option struct_tag)
           (p : t) (rest : Z) (text buf : list byte) (limit : Z) : Z * t :=
  let n := Z.min rest limit in
  let text' := (text ++ firstn (Z.to_nat n) buf)%list in
  if rest - n =? 0 then
    (n, {| stride := stride p;
           state := InRun (stride p);
           tag := match parse text' with
                  | Some tg => Some tg
                  | None => tag p
                  end |})
  else
    (n, {| stride := stride p; state := InMeta (rest - n) text'; tag := tag p |}).

(** Modelled from the spec: "meta(buf, limit): consumes up to limit
    leading metadata bytes from buf"; the length byte L=0 is an empty
    block that produces no tag. *)
Definition Meta (parse : list byte -> option struct_tag)
           (p : t) (buf : list byte) (limit : Z) : Z * t :=
  match state p with
  | InRun _ => (0, p)
  | InLength =>
      if limit <=? 0 then (0, p)
      else
        let L := Z.of_N (Byte.to_N (nth 0 buf x00)) in
        if L =? 0 then
          (1, {| stride := stride p; state := InRun (stride p); tag := tag p |})
        else
          let '(n, p') := meta_body parse p (16 * L) [] (tl buf) (limit - 1) in
          (1 + n, p')
  | InMeta rest text => meta_body parse p rest text buf limit
  end.

(** Modelled from the spec: hands the stored tag to the caller. *)
Definition ReadTag (p : t) : option struct_tag * t :=
  (tag p, {| stride := stride p; state := state p; tag := None |}).

End IcyMetaDataParser.

(** ** The stream *)

Record GError : Type := {
  domain : string;
  code_of : Z;
  message : string
}.

Definition curl_quark : string := "curl"%string.

(** The options set on a libcurl "easy" handle, in the order of the
    curl_easy_setopt() calls. *)
Inductive curl_option : Type :=
| CURLOPT_USERAGENT (s : string)
| CURLOPT_HEADERFUNCTION
| CURLOPT_WRITEHEADER
| CURLOPT_WRITEFUNCTION
| CURLOPT_WRITEDATA
| CURLOPT_HTTP200ALIASES (l : list string)
| CURLOPT_FOLLOWLOCATION (v : Z)
| CURLOPT_NETRC (v : Z)
| CURLOPT_MAXREDIRS (v : Z)
| CURLOPT_FAILONERROR (v : bool)
| CURLOPT_ERRORBUFFER
| CURLOPT_NOPROGRESS (v : Z)
| CURLOPT_NOSIGNAL (v : Z)
| CURLOPT_CONNECTTIMEOUT (v : Z)
| CURLOPT_PROXY (s : string)
| CURLOPT_PROXYPORT (v : Z)
| CURLOPT_PROXYUSERPWD (s : string)
| CURLOPT_URL (s : string)
| CURLOPT_HTTPHEADER (l : list string)
| CURLOPT_RANGE (s : string).

Definition CURL : Type := list curl_option.

(** Modelled from the spec: [struct input_stream] (input_stream.h is not
    among the sources), with the fields of section 3 the plugin uses. *)
Record input_stream : Type := {
  uri : string;
  ready : bool;
  seekable : bool;
  size : Z;              (* goffset; negative when unknown *)
  offset : Z;            (* goffset *)
  mime : option string
}.

Record input_curl : Type := {
  base : input_stream;
  range : option string;
  request_headers : list string;
  easy : option CURL;                   (* the curl handle; None is NULL *)
  buffers : list CurlInputBuffer;
  paused : bool;
  error : string;                       (* error message provided by libcurl *)
  icy : IcyMetaDataParser.t;
  meta_name : option string;
  tag : option struct_tag;
  postponed_error : option GError
}.

(** Field updates. *)
Definition set_ready (v : bool) (s : input_stream) : input_stream :=
  {| uri := uri s; ready := v; seekable := seekable s; size := size s;
     offset := offset s; mime := mime s |}.
Definition set_seekable (v : bool) (s : input_stream) : input_stream :=
  {| uri := uri s; ready := ready s; seekable := v; size := size s;
     offset := offset s; mime := mime s |}.
Definition set_size (v : Z) (s : input_stream) : input_stream :=
  {| uri := uri s; ready := ready s; seekable := seekable s; size := v;
     offset := offset s; mime := mime s |}.
Definition set_offset (v : Z) (s : input_stream) : input_stream :=
  {| uri := uri s; ready := ready s; seekable := seekable s; size := size s;
     offset := v; mime := mime s |}.
Definition set_mime (v : option string) (s : input_stream) : input_stream :=
  {| uri := uri s; ready := ready s; seekable := seekable s; size := size s;
     offset := offset s; mime := v |}.

Definition with_base (f : input_stream -> input_stream) (c : input_curl) : input_curl :=
  {| base := f (base c); range := range c; request_headers := request_headers c;
     easy := easy c; buffers := buffers c; paused := paused c; error := error c;
     icy := icy c; meta_name := meta_name c; tag := tag c;
     postponed_error := postponed_error c |}.
Definition set_range (v : option string) (c : input_curl) : input_curl :=
  {| base := base c; range := v; request_headers := request_headers c;
     easy := easy c; buffers := buffers c; paused := paused c; error := error c;
     icy := icy c; meta_name := meta_name c; tag := tag c;
     postponed_error := postponed_error c |}.
Definition set_request_headers (v : list string) (c : input_curl) : input_curl :=
  {| base := base c; range := range c; request_headers := v;
     easy := easy c; buffers := buffers c; paused := paused c; error := error c;
     icy := icy c; meta_name := meta_name c; tag := tag c;
     postponed_error := postponed_error c |}.
Definition set_easy (v : option CURL) (c : input_curl) : input_curl :=
  {| base := base c; range := range c; request_headers := request_headers c;
     easy := v; buffers := buffers c; paused := paused c; error := error c;
     icy := icy c; meta_name := meta_name c; tag := tag c;
     postponed_error := postponed_error c |}.
Definition set_buffers (v : list CurlInputBuffer) (c : input_curl) : input_curl :=
  {| base := base c; range := range c; request_headers := request_headers c;
     easy := easy c; buffers := v; paused := paused c; error := error c;
     icy := icy c; meta_name := meta_name c; tag := tag c;
     postponed_error := postponed_error c |}.
Definition set_paused (v : bool) (c : input_curl) : input_curl :=
  {| base := base c; range := range c; request_headers := request_headers c;
     easy := easy c; buffers := buffers c; paused := v; error := error c;
     icy := icy c; meta_name := meta_name c; tag := tag c;
     postponed_error := postponed_error c |}.
Definition set_error (v : string) (c : input_curl) : input_curl :=
  {| base := base c; range := range c; request_headers := request_headers c;
     easy := easy c; buffers := buffers c; paused := paused c; error := v;
     icy := icy c; meta_name := meta_name c; tag := tag c;
     postponed_error := postponed_error c |}.
Definition set_icy (v : IcyMetaDataParser.t) (c : input_curl) : input_curl :=
  {| base := base c; range := range c; request_headers := request_headers c;
     easy := easy c; buffers := buffers c; paused := paused c; error := error c;
     icy := v; meta_name := meta_name c; tag := tag c;
     postponed_error := postponed_error c |}.
Definition set_meta_name (v : option string) (c : input_curl) : input_curl :=
  {| base := base c; range := range c; request_headers := request_headers c;
     easy := easy c; buffers := buffers c; paused := paused c; error := error c;
     icy := icy c; meta_name := v; tag := tag c;
     postponed_error := postponed_error c |}.
Definition set_tag (v : option struct_tag) (c : input_curl) : input_curl :=
  {| base := base c; range := range c; request_headers := request_headers c;
     easy := easy c; buffers := buffers c; paused := paused c; error := error c;
     icy := icy c; meta_name := meta_name c; tag := v;
     postponed_error := postponed_error c |}.
Definition set_postponed_error (v : option GError) (c : input_curl) : input_curl :=
  {| base := base c; range := range c; request_headers := request_headers c;
     easy := easy c; buffers := buffers c; paused := paused c; error := error c;
     icy := icy c; meta_name := meta_name c; tag := tag c;
     postponed_error := v |}.

(** Modelled from the spec: input_stream_init() (input_internal.h is not
    among the sources): a new stream is not ready, not seekable, of
    unknown size, at offset 0, without MIME type. *)
Definition input_stream_init (url : string) : input_stream :=
  {| uri := url; ready := false; seekable := false; size := -1;
     offset := 0; mime := None |}.

(** The constructor of [input_curl]. *)
Definition input_curl_new (url : string) : input_curl :=
  {| base := input_stream_init url;
     range := None; request_headers := [];
     easy := None; buffers := [];
     paused := false;
     error := EmptyString;
     icy := IcyMetaDataParser.init;
     meta_name := None;
     tag := None;
     postponed_error := None |}.

(** Calls shipped to the I/O thread with io_thread_call(). *)
Inductive io_call : Type :=
| IO_easy_add
| IO_easy_free
| IO_resume.

(** The plugin's static configuration. *)
Record curl_globals : Type := {
  VERSION : string;
  http_200_aliases : list string;
  proxy : option string;
  proxy_port : Z;
  proxy_user : option string;
  proxy_password : option string
}.

(** What the libcurl calls of one transfer setup answer. *)
Record curl_answers : Type := {
  curl_easy_init_handle : bool;      (* false: curl_easy_init() returns NULL *)
  curl_setopt_url : Z;               (* CURLcode of setting CURLOPT_URL *)
  curl_multi_add_handle : Z;         (* CURLMcode *)
  curl_strerror : Z -> string        (* curl_easy_strerror / curl_multi_strerror *)
}.

Definition CURLE_OK : Z := 0.
Definition CURLM_OK : Z := 0.
Definition CURL_WRITEFUNC_PAUSE : Z := 268435457. (* 0x10000001 *)

Definition SEEK_SET : Z := 0.
Definition SEEK_CUR : Z := 1.
Definition SEEK_END : Z := 2.

(** What a call does outside the stream object. *)
Inductive effect : Type :=
| New_input_curl                    (* new input_curl(...) *)
| Delete_input_curl                 (* delete c *)
| Io_thread_call (f : io_call).     (* io_thread_call(f, ...) *)

(** ** Reactor-side helpers *)

Definition input_curl_resume (c : input_curl) : input_curl :=
  if paused c then set_paused false c (* curl_easy_pause(c->easy, CURLPAUSE_CONT) *)
  else c.

(** Frees the current "libcurl easy" handle, and everything associated
    with it. *)
Definition input_curl_easy_free (c : input_curl) : input_curl :=
  match easy c with
  | None => c
  | Some _ => set_range None (set_request_headers [] (set_easy None c))
  end.

Definition input_curl_easy_free_indirect (c : input_curl)
  : res (input_curl * list effect) :=
  let c' := input_curl_easy_free c in
  assert (match easy c' with None => true | Some _ => false end) ;;;
  Ok (c', [Io_thread_call IO_easy_free]).

Definition g_error_new (dom : string) (cd : Z) (msg : string) : GError :=
  {| domain := dom; code_of := cd; message := msg |}.

Definition is_null {A : Type} (o : option A) : bool :=
  match o with None => true | Some _ => false end.

(** A HTTP request is finished. *)
Definition input_curl_request_done (c : input_curl) (result status : Z)
  : res input_curl :=
  assert (is_null (easy c)) ;;;
  assert (is_null (postponed_error c)) ;;;
  let c1 :=
    if negb (result =? CURLE_OK) then
      set_postponed_error
        (Some (g_error_new curl_quark result ("curl failed: " ++ cstr (error c)))) c
    else if (status <? 200) || (300 <=? status) then
      set_postponed_error
        (Some (g_error_new curl_quark 0 ("got HTTP status " ++ string_of_Z status))) c
    else c in
  Ok (with_base (set_ready true) c1).

(** input_curl_handle_done() for the request that owns the handle;
    [status] is what CURLINFO_RESPONSE_CODE reports. *)
Definition input_curl_handle_done (c : input_curl) (result status : Z)
  : res input_curl :=
  assert (negb (is_null (easy c))) ;;;   (* input_curl_find_request() found c *)
  input_curl_request_done (input_curl_easy_free c) result status.

(** input_curl_abort_all_requests(), for one request of the list. *)
Definition input_curl_abort_request (c : input_curl) (err : GError)
  : res input_curl :=
  assert (is_null (postponed_error c)) ;;;
  let c1 := input_curl_easy_free c in
  Ok (with_base (set_ready true) (set_postponed_error (Some err) c1)).

(** Determine the total sizes of all buffers, including portions that
    have already been consumed. *)
Definition curl_total_buffer_size (c : input_curl) : Z :=
  fold_left (fun total i => size_t (total + CurlInputBuffer.TotalSize i))
            (buffers c) 0.

(** ** Consumer operations *)

Definition input_curl_check (c : input_curl) : bool * option GError * input_curl :=
  let success := is_null (postponed_error c) in
  if negb success then (success, postponed_error c, set_postponed_error None c)
  else (success, None, c).

Definition input_curl_tag (c : input_curl) : option struct_tag * input_curl :=
  (tag c, set_tag None c).

Definition is_empty {A : Type} (l : list A) : bool :=
  match l with [] => true | _ :: _ => false end.

Inductive fill_outcome : Type :=
| FillBlocked                                   (* inside g_cond_wait() *)
| FillReturn (ret : bool) (err : option GError).

Definition fill_buffer (c : input_curl) : fill_outcome * input_curl :=
  if negb (is_null (easy c)) && is_empty (buffers c) then (FillBlocked, c)
  else
    match postponed_error c with
    | Some e => (FillReturn false (Some e), set_postponed_error None c)
    | None => (FillReturn (negb (is_empty (buffers c))) None, c)
    end.

Definition input_curl_available (c : input_curl) : bool :=
  negb (is_null (postponed_error c)) || is_null (easy c) ||
  negb (is_empty (buffers c)).

Definition input_curl_eof (c : input_curl) : bool :=
  is_null (easy c) && is_empty (buffers c).

Section Reading.

(** The metadata text parser of IcyMetaDataParser (not among the
    sources); the plugin only passes its result on. *)
Variable icy_parse_tag : list byte -> option struct_tag.

(** The [while (true)] loop of read_from_buffer(); [buffer] is the front
    of the list and [rest] what follows it. *)
Fixpoint read_from_buffer_loop (fuel : nat) (icy : IcyMetaDataParser.t)
         (buffer : CurlInputBuffer) (rest : list CurlInputBuffer)
         (length nbytes : Z) (dest : list byte)
  : res (IcyMetaDataParser.t * list CurlInputBuffer * Z * list byte) :=
  match fuel with
  | O => Spin
  | S fuel' =>
      let meta_part icy buffer length nbytes dest :=
        let '(chunk, icy) :=
          IcyMetaDataParser.Meta icy_parse_tag icy
                                 (CurlInputBuffer.Begin buffer) length in
        if 0 <? chunk then
          ' (more, buffer) <- CurlInputBuffer.Consume buffer chunk ;;
          let length := size_t (length - chunk) in
          if negb more then Ok (icy, rest, nbytes, dest)
          else if length =? 0 then Ok (icy, buffer :: rest, nbytes, dest)
          else read_from_buffer_loop fuel' icy buffer rest length nbytes dest
        else read_from_buffer_loop fuel' icy buffer rest length nbytes dest in
      let '(chunk, icy) := IcyMetaDataParser.Data icy length in
      if 0 <? chunk then
        ' (bytes, more, buffer) <- CurlInputBuffer.Read buffer chunk ;;
        let nbytes := size_t (nbytes + chunk) in
        let dest := (dest ++ bytes)%list in
        let length := size_t (length - chunk) in
        if negb more then Ok (icy, rest, nbytes, dest)
        else if length =? 0 then Ok (icy, buffer :: rest, nbytes, dest)
        else meta_part icy buffer length nbytes dest
      else meta_part icy buffer length nbytes dest
  end.

(** read_from_buffer(): the result is the parser, the buffer list, the
    number of audio bytes and the audio bytes.  The source takes
    [buffers.front()], which needs a non-empty list. *)
Definition read_from_buffer (icy : IcyMetaDataParser.t)
           (buffers : list CurlInputBuffer) (length : Z)
  : res (IcyMetaDataParser.t * list CurlInputBuffer * Z * list byte) :=
  match buffers with
  | [] => AssertFail
  | buffer :: rest =>
      let length :=
        if CurlInputBuffer.Available buffer <? length
        then CurlInputBuffer.Available buffer else length in
      read_from_buffer_loop (S (Z.to_nat length)) icy buffer rest length 0 []
  end.

Definition copy_icy_tag (c : input_curl) : input_curl :=
  let '(tg, icy') := IcyMetaDataParser.ReadTag (icy c) in
  let c := set_icy icy' c in
  match tg with
  | None => c
  | Some tg =>
      let tg :=
        match meta_name c with
        | Some name =>
            if negb (tag_has_type tg TAG_NAME)
            then tag_add_item tg TAG_NAME name else tg
        | None => tg
        end in
      set_tag (Some tg) c
  end.

(** The bytes not yet consumed, over all buffers. *)
Definition total_available (bufs : list CurlInputBuffer) : Z :=
  fold_right (fun b acc => CurlInputBuffer.Available b + acc) 0 bufs.

(** The loop [while (size > 0 && !c->buffers.empty())] of
    input_curl_read(). *)
Fixpoint send_buffer_contents (fuel : nat) (c : input_curl)
         (size nbytes : Z) (dest : list byte)
  : res (input_curl * Z * Z * list byte) :=
  if (0 <? size) && negb (is_empty (buffers c)) then
    match fuel with
    | O => Spin
    | S fuel' =>
        ' (icy', bufs', copy, bytes) <-
          read_from_buffer (icy c) (buffers c) size ;;
        send_buffer_contents fuel' (set_icy icy' (set_buffers bufs' c))
                             (size_t (size - copy)) (size_t (nbytes + copy))
                             (dest ++ bytes)%list
    end
  else Ok (c, size, nbytes, dest).

Inductive read_outcome : Type :=
| ReadBytes (nbytes : Z) (dest : list byte)   (* returns nbytes > 0 *)
| ReadZero (err : option GError)              (* returns 0 *)
| ReadBlocked.                                (* inside g_cond_wait() *)

(** The [do ... while (nbytes == 0)] loop of input_curl_read(). *)
Fixpoint read_loop (fuel : nat) (c : input_curl) (size : Z)
  : res (read_outcome * input_curl) :=
  match fuel with
  | O => Spin
  | S fuel' =>
      match fill_buffer c with
      | (FillBlocked, c) => Ok (ReadBlocked, c)
      | (FillReturn false err, c) => Ok (ReadZero err, c)
      | (FillReturn true _, c) =>
          ' (c, size, nbytes, dest) <-
            send_buffer_contents (Z.to_nat (total_available (buffers c)))
                                 c size 0 [] ;;
          if nbytes =? 0 then read_loop fuel' c size
          else Ok (ReadBytes nbytes dest, c)
      end
  end.

(** input_curl_read().  A second pass of the outer loop that still finds
    buffers and has read nothing repeats itself for ever (this happens
    for [size = 0]), hence two rounds of fuel. *)
Definition input_curl_read (c : input_curl) (size : Z)
  : res (read_outcome * input_curl * list effect) :=
  ' (out, c) <- read_loop 2 c size ;;
  match out with
  | ReadBytes nbytes _ =>
      let c := if IcyMetaDataParser.IsDefined (icy c) then copy_icy_tag c else c in
      let c := with_base
                 (set_offset (goffset_of (offset (base c) + goffset_of nbytes))) c in
      if paused c && (curl_total_buffer_size c <? CURL_RESUME_AT) then
        Ok (out, input_curl_resume c, [Io_thread_call IO_resume])
      else Ok (out, c, [])
  | _ => Ok (out, c, [])
  end.

End Reading.

(** ** The header and write callbacks *)

(** The two stack arrays of input_curl_headerfunction(). *)
Inductive stack_array : Type :=
| ARRAY_name        (* char name[64] *)
| ARRAY_buffer.     (* char buffer[64] *)

Definition sizeof (a : stack_array) : Z :=
  match a with
  | ARRAY_name => 64
  | ARRAY_buffer => 64
  end.

(** The writes into the stack arrays, as the callback performs them. *)
Inductive mem_write : Type :=
| Memcpy (dst : stack_array) (n : Z)         (* memcpy(dst, ..., n) *)
| StoreNUL (dst : stack_array) (index : Z).  (* dst[index] = 0 *)

(** [while (value < end && g_ascii_isspace( *value)) ++value;] *)
Fixpoint skip_leading (header : string) (value end_ : nat) (fuel : nat) : nat :=
  match fuel with
  | O => value
  | S fuel' =>
      if (value <? end_)%nat && g_ascii_isspace (byte_at header value)
      then skip_leading header (S value) end_ fuel'
      else value
  end.

(** [while (end > value && g_ascii_isspace(end[-1])) --end;] *)
Fixpoint strip_trailing (header : string) (value end_ : nat) (fuel : nat) : nat :=
  match fuel with
  | O => end_
  | S fuel' =>
      if (value <? end_)%nat && g_ascii_isspace (byte_at header (pred end_))
      then strip_trailing header value (pred end_) fuel'
      else end_
  end.

(** input_curl_headerfunction(), with the writes into [name] and
    [buffer] it performs.  [ptr] is the memory the header line is in;
    positions are offsets from [header]. *)
Definition input_curl_headerfunction_writes (c : input_curl) (ptr : string)
           (size nmemb : Z) : list mem_write * Z * input_curl :=
  let size := size_t (size * nmemb) in
  let header := ptr in
  let end_ := Z.to_nat size in
  match memchr header ":" end_ with
  | None => ([], size, c)
  | Some value =>
      if sizeof ARRAY_name <=? Z.of_nat value then ([], size, c)
      else
        let name := span header 0 value in
        let w_name := [Memcpy ARRAY_name (Z.of_nat value);
                       StoreNUL ARRAY_name (Z.of_nat value)] in
        (* skip the colon *)
        let value := S value in
        (* strip the value *)
        let value := skip_leading header value end_ (end_ - value) in
        let end_ := strip_trailing header value end_ (end_ - value) in
        let w_buffer := [Memcpy ARRAY_buffer (Z.of_nat (end_ - value));
                         StoreNUL ARRAY_buffer (Z.of_nat (end_ - value))] in
        if g_ascii_strcasecmp name "accept-ranges" =? 0 then
          (* a stream with icy-metadata is not seekable *)
          if negb (IcyMetaDataParser.IsDefined (icy c))
          then (w_name, size, with_base (set_seekable true) c)
          else (w_name, size, c)
        else if g_ascii_strcasecmp name "content-length" =? 0 then
          if sizeof ARRAY_buffer <=? Z.of_nat end_ then (w_name, size, c)
          else
            let buffer := span header value (end_ - value) in
            (w_name ++ w_buffer, size,
             with_base (set_size (goffset_of (offset (base c)
                                              + g_ascii_strtoull buffer))) c)
        else if g_ascii_strcasecmp name "content-type" =? 0 then
          (w_name, size,
           with_base (set_mime (Some (g_strndup header value (end_ - value)))) c)
        else if (g_ascii_strcasecmp name "icy-name" =? 0)
                || (g_ascii_strcasecmp name "ice-name" =? 0)
                || (g_ascii_strcasecmp name "x-audiocast-name" =? 0) then
          let meta := g_strndup header value (end_ - value) in
          (w_name, size,
           set_tag (Some (tag_add_item tag_new TAG_NAME meta))
                   (set_meta_name (Some meta) c))
        else if g_ascii_strcasecmp name "icy-metaint" =? 0 then
          if (sizeof ARRAY_buffer <=? Z.of_nat end_)
             || IcyMetaDataParser.IsDefined (icy c) then (w_name, size, c)
          else
            let buffer := span header value (end_ - value) in
            let icy_metaint := g_ascii_strtoull buffer in
            if 0 <? icy_metaint then
              (* a stream with icy-metadata is not seekable *)
              (w_name ++ w_buffer, size,
               with_base (set_seekable false)
                         (set_icy (IcyMetaDataParser.Start (icy c) icy_metaint) c))
            else (w_name ++ w_buffer, size, c)
        else (w_name, size, c)
  end.

Definition input_curl_headerfunction (c : input_curl) (ptr : string)
           (size nmemb : Z) : Z * input_curl :=
  let '(_, ret, c') := input_curl_headerfunction_writes c ptr size nmemb in
  (ret, c').

(** input_curl_writefunction(): called by curl when new data is
    available. *)
Definition input_curl_writefunction (c : input_curl) (ptr : list byte)
           (size nmemb : Z) : Z * input_curl :=
  let size := size_t (size * nmemb) in
  if size =? 0 then (0, c)
  else if CURL_MAX_BUFFERED <=? size_t (curl_total_buffer_size c + size) then
    (CURL_WRITEFUNC_PAUSE, set_paused true c)
  else
    (size,
     with_base (set_ready true)
               (set_buffers (buffers c ++ [CurlInputBuffer.make ptr size]) c)).

(** ** Transfer setup, seek, open, close *)

Section Transfers.

Variable G : curl_globals.

Definition input_curl_easy_init (ans : curl_answers) (c : input_curl)
  : bool * option GError * input_curl :=
  if negb (curl_easy_init_handle ans) then
    (false, Some (g_error_new curl_quark 0 "curl_easy_init() failed"),
     set_easy None c)
  else
    let opts :=
      [CURLOPT_USERAGENT ("Music Player Daemon " ++ VERSION G);
       CURLOPT_HEADERFUNCTION;
       CURLOPT_WRITEHEADER;
       CURLOPT_WRITEFUNCTION;
       CURLOPT_WRITEDATA;
       CURLOPT_HTTP200ALIASES (http_200_aliases G);
       CURLOPT_FOLLOWLOCATION 1;
       CURLOPT_NETRC 1;
       CURLOPT_MAXREDIRS 5;
       CURLOPT_FAILONERROR true;
       CURLOPT_ERRORBUFFER;
       CURLOPT_NOPROGRESS 1;
       CURLOPT_NOSIGNAL 1;
       CURLOPT_CONNECTTIMEOUT 10]
      ++ match proxy G with
         | Some p => [CURLOPT_PROXY p]
         | None => []
         end
      ++ (if 0 <? proxy_port G then [CURLOPT_PROXYPORT (proxy_port G)] else [])
      ++ match proxy_user G, proxy_password G with
         | Some u, Some p => [CURLOPT_PROXYUSERPWD (u ++ ":" ++ p)]
         | _, _ => []
         end in
    if negb (curl_setopt_url ans =? CURLE_OK) then
      (false,
       Some (g_error_new curl_quark (curl_setopt_url ans)
               ("curl_easy_setopt() failed: "
                  ++ curl_strerror ans (curl_setopt_url ans))),
       set_easy (Some opts) c)
    else
      let headers := ["Icy-Metadata: 1"%string] in
      (true, None,
       set_request_headers headers
         (set_easy (Some (opts ++ [CURLOPT_URL (uri (base c));
                                   CURLOPT_HTTPHEADER headers])) c)).

(** input_curl_easy_add_indirect(): input_curl_easy_add() run in the
    I/O thread. *)
Definition input_curl_easy_add_indirect (ans : curl_answers) (c : input_curl)
  : res (bool * option GError * list effect) :=
  assert (negb (is_null (easy c))) ;;;
  if negb (curl_multi_add_handle ans =? CURLM_OK) then
    Ok (false,
        Some (g_error_new curl_quark (curl_multi_add_handle ans)
                ("curl_multi_add_handle() failed: "
                   ++ curl_strerror ans (curl_multi_add_handle ans))),
        [Io_thread_call IO_easy_add])
  else Ok (true, None, [Io_thread_call IO_easy_add]).

(** The fast-forward loop of input_curl_seek(). *)
Fixpoint seek_fast_forward (fuel : nat) (c : input_curl) (offset_ : Z)
  : res input_curl :=
  match buffers c with
  | buffer :: rest =>
      if offset (base c) <? offset_ then
        match fuel with
        | O => Spin
        | S fuel' =>
            let length := CurlInputBuffer.Available buffer in
            let length :=
              if goffset_of (offset_ - offset (base c)) <? goffset_of length
              then size_t (offset_ - offset (base c)) else length in
            ' (more, buffer') <- CurlInputBuffer.Consume buffer length ;;
            let c := set_buffers (if more then buffer' :: rest else rest) c in
            let c := with_base
                       (set_offset (goffset_of (offset (base c) + length))) c in
            seek_fast_forward fuel' c offset_
        end
      else Ok c
  | [] => Ok c
  end.

Inductive seek_outcome : Type :=
| SeekReturn (ret : bool) (err : option GError)
| SeekBlocked.                        (* waiting for [ready] *)

Definition set_opt_range (r : string) (c : input_curl) : input_curl :=
  match easy c with
  | Some opts => set_easy (Some (opts ++ [CURLOPT_RANGE r])) c
  | None => c
  end.

(** The end of input_curl_seek(): wait for [ready], then surface a
    postponed error. *)
Definition input_curl_seek_wait (c : input_curl) : seek_outcome * input_curl :=
  if negb (ready (base c)) then (SeekBlocked, c)
  else
    match postponed_error c with
    | Some e => (SeekReturn false (Some e), set_postponed_error None c)
    | None => (SeekReturn true None, c)
    end.

(** The second half of input_curl_seek(): close the old connection and
    open a new one at [offset_]. *)
Definition seek_new_connection (ans : curl_answers) (c : input_curl)
           (offset_ : Z)
  : res (seek_outcome * input_curl * list effect) :=
  ' (c, eff_free) <- input_curl_easy_free_indirect c ;;
  let c := set_buffers [] c in
  let c := with_base (set_offset offset_) c in
  if offset (base c) =? size (base c) then
    (* seek to EOF: simulate empty result; avoid triggering a
       "416 Requested Range Not Satisfiable" response *)
    Ok (SeekReturn true None, c, eff_free)
  else
    match input_curl_easy_init ans c with
    | (false, err, c) => Ok (SeekReturn false err, c, eff_free)
    | (true, _, c) =>
        (* send the "Range" header *)
        let c :=
          if 0 <? offset (base c) then
            let r := (string_of_Z (offset (base c)) ++ "-")%string in
            set_opt_range r (set_range (Some r) c)
          else c in
        let c := with_base (set_ready false) c in
        ' (ok, err, eff_add) <- input_curl_easy_add_indirect ans c ;;
        if negb ok then
          Ok (SeekReturn false err, c, eff_free ++ eff_add)
        else
          let '(out, c) := input_curl_seek_wait c in
          Ok (out, c, eff_free ++ eff_add)
    end.

Definition input_curl_seek (ans : curl_answers) (c : input_curl)
           (offset_ whence : Z)
  : res (seek_outcome * input_curl * list effect) :=
  assert (ready (base c)) ;;;
  if (whence =? SEEK_SET) && (offset_ =? offset (base c)) then
    (* no-op *)
    Ok (SeekReturn true None, c, [])
  else if negb (seekable (base c)) then Ok (SeekReturn false None, c, [])
  else
    (* calculate the absolute offset *)
    let target : option Z :=
      if whence =? SEEK_SET then Some offset_
      else if whence =? SEEK_CUR then
        Some (goffset_of (offset_ + offset (base c)))
      else if whence =? SEEK_END then
        if size (base c) <? 0 then None (* stream size is not known *)
        else Some (goffset_of (offset_ + size (base c)))
      else None in
    match target with
    | None => Ok (SeekReturn false None, c, [])
    | Some offset_ =>
        if offset_ <? 0 then Ok (SeekReturn false None, c, [])
        else
          (* check if we can fast-forward the buffer *)
          c <- seek_fast_forward (S (List.length (buffers c))) c offset_ ;;
          if offset_ =? offset (base c) then Ok (SeekReturn true None, c, [])
          else seek_new_connection ans c offset_
    end.

(** The destructor of [input_curl]. *)
Definition input_curl_delete (c : input_curl) : res (list effect) :=
  ' (_, eff) <- input_curl_easy_free_indirect (set_meta_name None (set_tag None c)) ;;
  Ok (eff ++ [Delete_input_curl]).

Definition input_curl_close (c : input_curl) : res (list effect) :=
  input_curl_delete c.

Inductive open_outcome : Type :=
| OpenNull (err : option GError)      (* NULL; without error: not this plugin's *)
| OpenStream (c : input_curl).

(** input_curl_open(); the mutex and the condition variable of the caller,
    and the assertions that they are not NULL, are left out. *)
Definition input_curl_open (ans : curl_answers) (url : string)
  : res (open_outcome * list effect) :=
  if negb (strncmp url "http://" 7 =? 0) then Ok (OpenNull None, [])
  else
    let c := input_curl_new url in
    match input_curl_easy_init ans c with
    | (false, err, c) =>
        eff <- input_curl_delete c ;;
        Ok (OpenNull err, New_input_curl :: eff)
    | (true, _, c) =>
        ' (ok, err, eff_add) <- input_curl_easy_add_indirect ans c ;;
        if negb ok then
          eff <- input_curl_delete c ;;
          Ok (OpenNull err, New_input_curl :: eff_add ++ eff)
        else Ok (OpenStream c, New_input_curl :: eff_add)
    end.

End Transfers.

(** ** The socket bridge *)

Module CurlSockets.

Definition G_IO_IN : Z := 1.
Definition G_IO_OUT : Z := 4.
Definition G_IO_ERR : Z := 8.
Definition G_IO_HUP : Z := 16.

(** An [fd_set], as the list of its members. *)
Definition fd_set : Type := list Z.

Definition FD_ISSET (fd : Z) (s : fd_set) : bool := existsb (Z.eqb fd) s.
Definition FD_CLR (fd : Z) (s : fd_set) : fd_set :=
  filter (fun x => negb (Z.eqb fd x)) s.

(** Calculates the GLib event bit mask for one file descriptor, and
    removes the descriptor from the three sets. *)
Definition input_curl_fd_events (fd : Z) (sets : fd_set * fd_set * fd_set)
  : Z * (fd_set * fd_set * fd_set) :=
  let '(rfds, wfds, efds) := sets in
  let events := 0 in
  let '(events, rfds) :=
    if FD_ISSET fd rfds
    then (Z.lor events (Z.lor G_IO_IN (Z.lor G_IO_HUP G_IO_ERR)), FD_CLR fd rfds)
    else (events, rfds) in
  let '(events, wfds) :=
    if FD_ISSET fd wfds
    then (Z.lor events (Z.lor G_IO_OUT G_IO_ERR), FD_CLR fd wfds)
    else (events, wfds) in
  let '(events, efds) :=
    if FD_ISSET fd efds
    then (Z.lor events (Z.lor G_IO_HUP G_IO_ERR), FD_CLR fd efds)
    else (events, efds) in
  (events, (rfds, wfds, efds)).

Record t : Type := mk {
  fds : list (Z * Z);        (* the watched descriptors and their events *)
  have_timeout : bool;       (* did CURL give us a timeout? *)
  absolute_timeout : Z       (* gint64: when the timeout expires *)
}.

(** Modelled from the spec: MultiSocketMonitor::UpdateSocketList()
    (event/MultiSocketMonitor.hxx is not among the sources): every
    watched descriptor gets its event mask recomputed; one without
    events is unregistered. *)
Fixpoint UpdateSocketList (watched : list (Z * Z))
         (sets : fd_set * fd_set * fd_set)
  : list (Z * Z) * (fd_set * fd_set * fd_set) :=
  match watched with
  | [] => ([], sets)
  | (fd, _) :: rest =>
      let '(events, sets) := input_curl_fd_events fd sets in
      let '(rest', sets) := UpdateSocketList rest sets in
      (if events =? 0 then rest' else (fd, events) :: rest', sets)
  end.

(** The loop [for (int fd = 0; fd <= max_fd; ++fd)] of UpdateSockets();
    AddSocket() (of MultiSocketMonitor, not among the sources) is taken to
    put the new watch in front of the list. *)
Fixpoint add_new_sockets (n : nat) (fd : Z) (watched : list (Z * Z))
         (sets : fd_set * fd_set * fd_set) : list (Z * Z) :=
  match n with
  | O => watched
  | S n' =>
      let '(events, sets) := input_curl_fd_events fd sets in
      add_new_sockets n' (fd + 1)
                      (if events =? 0 then watched else (fd, events) :: watched)
                      sets
  end.

(** What curl_multi_fdset() answers. *)
Record fdset_answer : Type := {
  fdset_mcode : Z;
  rfds : fd_set;
  wfds : fd_set;
  efds : fd_set;
  max_fd : Z
}.

Definition UpdateSockets (s : t) (a : fdset_answer) : t :=
  if negb (fdset_mcode a =? CURLM_OK) then s
  else
    let '(watched, sets) := UpdateSocketList (fds s) (rfds a, wfds a, efds a) in
    {| fds := add_new_sockets (Z.to_nat (max_fd a + 1)) 0 watched sets;
       have_timeout := have_timeout s;
       absolute_timeout := absolute_timeout s |}.

(** PrepareSockets(): [now] is GetTime(), [mcode] and [timeout2] are
    what curl_multi_timeout() answers, [timeout_r] is the caller's
    variable; the result carries its new value. *)
Definition PrepareSockets (s : t) (a : fdset_answer) (now mcode timeout2 : Z)
           (timeout_r : Z) : t * Z :=
  let s := UpdateSockets s a in
  if mcode =? CURLM_OK then
    let absolute :=
      if 0 <=? timeout2
      then goffset_of (now + goffset_of (timeout2 * 1000))
      else absolute_timeout s in
    let timeout2 :=
      if (0 <=? timeout2) && (timeout2 <? 10)
      then 10   (* a lower limit of 10ms *)
      else timeout2 in
    ({| fds := fds s;
        have_timeout := 0 <=? timeout2;
        absolute_timeout := absolute |},
     gint_of timeout2)
  else
    ({| fds := fds s; have_timeout := false;
        absolute_timeout := absolute_timeout s |},
     timeout_r).

Definition CheckSockets (s : t) (now : Z) : bool :=
  have_timeout s && (absolute_timeout s <=? now).

End CurlSockets.

(** ** Traces of one stream

    The actions on one stream, from the consumer and from the I/O
    thread, in the order they take the stream's lock. *)

Inductive event : Type :=
| EvRead (size : Z)                                   (* input_curl_read() *)
| EvSeek (ans : curl_answers) (offset_ whence : Z)    (* input_curl_seek() *)
| EvSeekWake              (* the waiting input_curl_seek() looks at [ready] *)
| EvCheck                                             (* input_curl_check() *)
| EvTag                                               (* input_curl_tag() *)
| EvHeader (ptr : string) (size nmemb : Z)     (* input_curl_headerfunction() *)
| EvWrite (ptr : list byte) (size nmemb : Z)   (* input_curl_writefunction() *)
| EvDone (error_text : string) (result status : Z) (* input_curl_handle_done() *)
| EvAbort (err : GError).                  (* input_curl_abort_all_requests() *)

(** What input_curl_read() returns to its caller. *)
Definition read_return (out : read_outcome) : Z :=
  match out with
  | ReadBytes nbytes _ => nbytes
  | _ => 0
  end.

Definition is_seek (e : event) : bool :=
  match e with
  | EvSeek _ _ _ => true
  | _ => false
  end.

Section Traces.

Variable icy_parse_tag : list byte -> option struct_tag.
Variable G : curl_globals.

(** One action.  libcurl runs the callbacks and reports completion only
    for a transfer whose handle is alive; such an event on a stream
    without handle is [AssertFail].  The second component is what a
    read returned. *)
Definition step (c : input_curl) (e : event) : res (input_curl * Z) :=
  match e with
  | EvRead size =>
      ' (out, c, _) <- input_curl_read icy_parse_tag c size ;;
      Ok (c, read_return out)
  | EvSeek ans offset_ whence =>
      ' (_, c, _) <- input_curl_seek G ans c offset_ whence ;; Ok (c, 0)
  | EvSeekWake => Ok (snd (input_curl_seek_wait c), 0)
  | EvCheck => Ok (snd (input_curl_check c), 0)
  | EvTag => Ok (snd (input_curl_tag c), 0)
  | EvHeader ptr size nmemb =>
      assert (negb (is_null (easy c))) ;;;
      Ok (snd (input_curl_headerfunction c ptr size nmemb), 0)
  | EvWrite ptr size nmemb =>
      assert (negb (is_null (easy c))) ;;;
      Ok (snd (input_curl_writefunction c ptr size nmemb), 0)
  | EvDone error_text result status =>
      c <- input_curl_handle_done (set_error error_text c) result status ;;
      Ok (c, 0)
  | EvAbort err =>
      assert (negb (is_null (easy c))) ;;;
      c <- input_curl_abort_request c err ;; Ok (c, 0)
  end.

(** A trace; the second component is the sum of what the reads
    returned. *)
Fixpoint run (c : input_curl) (tr : list event) : res (input_curl * Z) :=
  match tr with
  | [] => Ok (c, 0)
  | e :: tr' =>
      ' (c1, n) <- step c e ;;
      ' (c2, m) <- run c1 tr' ;;
      Ok (c2, n + m)
  end.

End Traces.

(** ** Concrete inputs used by the examples *)

Definition example_globals : curl_globals :=
  {| VERSION := "0.18"; http_200_aliases := ["ICY 200 OK"%string];
     proxy := None; proxy_port := 0; proxy_user := None;
     proxy_password := None |}.

(** libcurl answers every call with success. *)
Definition answers_ok : curl_answers :=
  {| curl_easy_init_handle := true; curl_setopt_url := CURLE_OK;
     curl_multi_add_handle := CURLM_OK; curl_strerror := fun _ => EmptyString |}.

Definition example_parse : list byte -> option struct_tag :=
  fun text => Some (tag_add_item tag_new TAG_TITLE (string_of_list_byte text)).

Definition CRLF : string :=
  String (ascii_of_nat 13) (String (ascii_of_nat 10) EmptyString).

(** A header line as libcurl delivers it, with its line end. *)
Definition header_line (s : string) : event :=
  EvHeader (s ++ CRLF) 1 (Z.of_nat (String.length (s ++ CRLF))).

Definition write_of (l : list byte) : event :=
  EvWrite l 1 (Z.of_nat (List.length l)).

(** The stream of [open("http://example/stream")]. *)
Definition example_stream : input_curl :=
  match input_curl_open example_globals answers_ok "http://example/stream" with
  | Ok (OpenStream c, _) => c
  | _ => input_curl_new EmptyString
  end.

Definition ten_bytes : list byte := [x30; x31; x32; x33; x34; x35; x36; x37; x38; x39].

(** The state reached by [tr] from [c]; [c] itself when the trace fails. *)
Definition state_after (c : input_curl) (tr : list event) : input_curl :=
  match run example_parse example_globals c tr with
  | Ok (c', _) => c'
  | _ => c
  end.

(** Scenario 1 of the spec: a 10-byte body, read to the end, transfer done. *)
Definition plain_get : list event :=
  [header_line "Content-Length: 10"; header_line "Accept-Ranges: bytes";
   write_of ten_bytes; EvRead 4; EvRead 10; EvDone EmptyString CURLE_OK 200].

(** A socket bridge that watches nothing, and a libcurl without sockets. *)
Definition example_sockets : CurlSockets.t :=
  {| CurlSockets.fds := []; CurlSockets.have_timeout := false;
     CurlSockets.absolute_timeout := 0 |}.

Definition example_fdset : CurlSockets.fdset_answer :=
  {| CurlSockets.fdset_mcode := CURLM_OK; CurlSockets.rfds := [];
     CurlSockets.wfds := []; CurlSockets.efds := []; CurlSockets.max_fd := -1 |}.

(** A write into a stack array stays inside the array. *)
Definition in_bounds (w : mem_write) : Prop :=
  match w with
  | Memcpy dst n => 0 <= n <= sizeof dst
  | StoreNUL dst index => 0 <= index < sizeof dst
  end.

(** The header callback run over the lines of a response, each with the
    [size] and [nmemb] it is called with. *)
Definition process_headers (c : input_curl) (lines : list (string * Z * Z))
  : input_curl :=
  fold_left (fun c '(ptr, size, nmemb) =>
               snd (input_curl_headerfunction c ptr size nmemb))
            lines c.

Definition raw_line (s : string) : string * Z * Z :=
  ((s ++ CRLF)%string, 1, Z.of_nat (String.length (s ++ CRLF))).

(** A radio stream's headers: inline metadata, then byte ranges. *)
Definition icy_headers : list (string * Z * Z) :=
  [raw_line "icy-metaint: 16000"; raw_line "Accept-Ranges: bytes"].

(** The absolute offset a seek asks for, as input_curl_seek() computes
    it. *)
Definition seek_target (c : input_curl) (offset_ whence : Z) : option Z :=
  if whence =? SEEK_SET then Some offset_
  else if whence =? SEEK_CUR then Some (goffset_of (offset_ + offset (base c)))
  else if whence =? SEEK_END then Some (goffset_of (offset_ + size (base c)))
  else None.

(** No seek of the trace leaves the stream with a transfer handle. *)
Fixpoint no_restart (icy_parse_tag : list byte -> option struct_tag)
         (G : curl_globals) (c : input_curl) (tr : list event) : bool :=
  match tr with
  | [] => true
  | e :: tr' =>
      match step icy_parse_tag G c e with
      | Ok (c1, _) =>
          (negb (is_seek e) || is_null (easy c1))
          && no_restart icy_parse_tag G c1 tr'
      | _ => true
      end
  end.

(** Four bytes into the 10-byte body of a seekable stream. *)
Definition mid_stream : input_curl :=
  state_after example_stream
              [header_line "Content-Length: 10"; header_line "Accept-Ranges: bytes";
               write_of ten_bytes; EvRead 4].

(** The same stream read to the end, after the transfer has finished. *)
Definition finished_stream : input_curl := state_after example_stream plain_get.

(** What a consumer may still do at the end of the stream. *)
Definition after_the_end : list event :=
  [EvRead 5; EvSeek answers_ok 0 SEEK_END; EvTag; EvCheck; EvRead 1].

(** The sum of the sizes of the buffers, as a number. *)
Definition sum_sizes (bufs : list CurlInputBuffer) : Z :=
  fold_right (fun b acc => CurlInputBuffer.size b + acc) 0 bufs.

(** The buffer list [bufs'] is what is left of [bufs] after dropping
    buffers from the front; the payload sizes do not change. *)
Definition shrunk (bufs' bufs : list CurlInputBuffer) : Prop :=
  exists dropped,
    map CurlInputBuffer.size bufs = (dropped ++ map CurlInputBuffer.size bufs')%list.

(** Every buffer holds something and the sum stays below the limit. *)
Definition buffered_ok (bufs : list CurlInputBuffer) : Prop :=
  Forall (fun b => 0 < CurlInputBuffer.size b) bufs
  /\ sum_sizes bufs < CURL_MAX_BUFFERED.

(** What libcurl hands to the write callback: [size * nmemb] bytes at
    [ptr], an object in memory. *)
Definition wf_event (e : event) : Prop :=
  match e with
  | EvWrite ptr size nmemb =>
      0 <= size /\ 0 <= nmemb
      /\ size * nmemb = Z.of_nat (List.length ptr)
      /\ size * nmemb <= G_MAXINT64
  | _ => True
  end.

(** 16 KiB of payload, the most libcurl hands over in one call by
    default. *)
Definition chunk16k : list byte := repeat x00 (Z.to_nat 16384).

(** The stream after 31 such writes: 496 KiB are buffered. *)
Definition nearly_full : input_curl :=
  state_after example_stream (repeat (write_of chunk16k) 31).

(** A producer that outruns the consumer: the 32nd write is refused. *)
Definition backpressure : list event :=
  (repeat (write_of chunk16k) 32 ++ [EvRead 131072; write_of chunk16k])%list.

(** No seek in the trace. *)
Definition no_seek (tr : list event) : bool :=
  forallb (fun e => negb (is_seek e)) tr.

(** A buffer in the list: something is left of it, its size is a
    [size_t], and it holds that many bytes. *)
Definition buf_wf (b : CurlInputBuffer) : Prop :=
  0 <= CurlInputBuffer.consumed b < CurlInputBuffer.size b
  /\ CurlInputBuffer.size b < SIZE_MODULUS
  /\ Z.of_nat (List.length (CurlInputBuffer.data b)) = CurlInputBuffer.size b.

(** An active parser inside a run or a metadata block has bytes of it
    left. *)
Definition icy_wf (p : IcyMetaDataParser.t) : Prop :=
  IcyMetaDataParser.IsDefined p = true ->
  match IcyMetaDataParser.state p with
  | IcyMetaDataParser.InRun rest => 0 < rest
  | IcyMetaDataParser.InLength => True
  | IcyMetaDataParser.InMeta rest _ => 0 < rest
  end.

(** The parser stands at metadata. *)
Definition at_meta (p : IcyMetaDataParser.t) : Prop :=
  match IcyMetaDataParser.state p with
  | IcyMetaDataParser.InRun _ => False
  | IcyMetaDataParser.InLength => True
  | IcyMetaDataParser.InMeta rest _ => 0 < rest
  end.

Definition stream_wf (c : input_curl) : Prop :=
  Forall buf_wf (buffers c) /\ icy_wf (icy c).

(** No NUL in the string. *)
Fixpoint nul_free (s : string) : bool :=
  match s with
  | EmptyString => true
  | String c r => negb (Ascii.eqb c NUL) && nul_free r
  end.

(** The argument of a read is a [size_t], and a write is as libcurl
    makes it. *)
Definition sized_event (e : event) : Prop :=
  match e with
  | EvRead size => 0 <= size < SIZE_MODULUS
  | _ => wf_event e
  end.

(** Scenario 3 of the spec, with a metadata block of two 16-byte units:
    stride 4, "AAAA", the block, "BBBB". *)
Definition icy_body : list byte :=
  ([x41; x41; x41; x41; x02]
     ++ list_byte_of_string "StreamTitle='hi';" ++ repeat x00 15
     ++ [x42; x42; x42; x42])%list.

Definition icy_stream : input_curl :=
  state_after example_stream
              [header_line "icy-metaint: 4"; header_line "Accept-Ranges: bytes";
               write_of icy_body].

(** ** Definitions for the further properties *)

(** The bytes buffered and not yet consumed, in the order of arrival. *)
Definition pending (bufs : list CurlInputBuffer) : list byte :=
  List.concat (map CurlInputBuffer.Begin bufs).

(** Only decimal digits. *)
Fixpoint all_digits (s : string) : bool :=
  match s with
  | EmptyString => true
  | String c r => is_digit c && all_digits r
  end.

(** Only white space. *)
Fixpoint all_space (s : string) : bool :=
  match s with
  | EmptyString => true
  | String c r => g_ascii_isspace c && all_space r
  end.


(** What a read hands to its caller. *)
Definition read_bytes (out : read_outcome) : list byte :=
  match out with
  | ReadBytes _ dest => dest
  | _ => []
  end.

(** What the write callback has taken over from libcurl: nothing when it
    asks for a pause, the bytes it reports otherwise. *)
Definition accepted (ret : Z) (ptr : list byte) : list byte :=
  if ret =? CURL_WRITEFUNC_PAUSE then [] else firstn (Z.to_nat ret) ptr.

(** Events that neither discard buffered bytes nor change how they are
    interpreted. *)
Definition keeps_data (e : event) : bool :=
  match e with
  | EvSeek _ _ _ | EvHeader _ _ _ => false
  | _ => true
  end.

Section DataFlow.

Variable icy_parse_tag : list byte -> option struct_tag.
Variable G : curl_globals.

(** One action as in [step], with the bytes it delivers to the consumer
    and the bytes it takes from libcurl. *)
Definition flow_step (c : input_curl) (e : event)
  : res (input_curl * list byte * list byte) :=
  match e with
  | EvRead size =>
      ' (out, c, _) <- input_curl_read icy_parse_tag c size ;;
      Ok (c, read_bytes out, [])
  | EvWrite ptr size nmemb =>
      assert (negb (is_null (easy c))) ;;;
      let '(ret, c) := input_curl_writefunction c ptr size nmemb in
      Ok (c, [], accepted ret ptr)
  | _ =>
      ' (c, _) <- step icy_parse_tag G c e ;; Ok (c, [], [])
  end.

(** A trace, with all the bytes delivered and all the bytes taken. *)
Fixpoint data_flow (c : input_curl) (tr : list event)
  : res (input_curl * list byte * list byte) :=
  match tr with
  | [] => Ok (c, [], [])
  | e :: tr' =>
      ' (c1, d, a) <- flow_step c e ;;
      ' (c2, d', a') <- data_flow c1 tr' ;;
      Ok (c2, (d ++ d')%list, (a ++ a')%list)
  end.

End DataFlow.

(** The event mask libcurl's three sets give to a descriptor. *)
Definition fd_mask (a : CurlSockets.fdset_answer) (fd : Z) : Z :=
  fst (CurlSockets.input_curl_fd_events
         fd (CurlSockets.rfds a, CurlSockets.wfds a, CurlSockets.efds a)).

(** A socket bridge that watches descriptor 5 for input, and a libcurl
    that wants 5 and 7 for input and 7 for output. *)
Definition watching_5 : CurlSockets.t :=
  {| CurlSockets.fds := [(5, 25)]; CurlSockets.have_timeout := false;
     CurlSockets.absolute_timeout := 0 |}.

Definition wants_5_7 : CurlSockets.fdset_answer :=
  {| CurlSockets.fdset_mcode := CURLM_OK; CurlSockets.rfds := [5; 7];
     CurlSockets.wfds := [7]; CurlSockets.efds := []; CurlSockets.max_fd := 7 |}.

(** ** Plugin initialisation *)




(** ** The list of active requests

    [curl.requests] and the streams it points to.  A stream is named by
    its address; a libcurl handle is named by the stream that owns it. *)

Module Reactor.

Record t : Type := mk {
  requests : list nat;            (* curl.requests *)
  heap : nat -> input_curl        (* the streams, by address *)
}.

Definition store (R : t) (c : nat) (v : input_curl) : t :=
  {| requests := requests R;
     heap := fun q => if Nat.eqb q c then v else heap R q |}.

(** Find a request by its CURL "easy" handle. *)
Definition input_curl_find_request (R : t) (easy_handle : nat) : option nat :=
  find (fun c => negb (is_null (easy (heap R c))) && Nat.eqb c easy_handle)
       (requests R).

(** Adds the stream to the list and its handle to the multi handle. *)
Definition input_curl_easy_add (ans : curl_answers) (R : t) (c : nat)
  : res (bool * option GError * t) :=
  assert (negb (is_null (easy (heap R c)))) ;;;
  assert (is_null (input_curl_find_request R c)) ;;;
  let R := {| requests := c :: requests R; heap := heap R |} in
  if negb (curl_multi_add_handle ans =? CURLM_OK) then
    Ok (false,
        Some (g_error_new curl_quark (curl_multi_add_handle ans)
                ("curl_multi_add_handle() failed: "
                   ++ curl_strerror ans (curl_multi_add_handle ans))),
        R)
  else Ok (true, None, R).   (* curl.sockets->InvalidateSockets() *)

(** Frees the current "libcurl easy" handle, and everything associated
    with it. *)
Definition input_curl_easy_free (R : t) (c : nat) : t :=
  if is_null (easy (heap R c)) then R
  else
    store {| requests := remove Nat.eq_dec c (requests R); heap := heap R |}
          c (input_curl_easy_free (heap R c)).

(** Abort and free all HTTP requests. *)
Fixpoint input_curl_abort_all_requests (fuel : nat) (R : t) (error : GError)
  : res t :=
  match requests R with
  | [] => Ok R
  | c :: _ =>
      match fuel with
      | O => Spin
      | S fuel' =>
          assert (is_null (postponed_error (heap R c))) ;;;
          let R := input_curl_easy_free R c in
          let R := store R c (with_base (set_ready true)
                                        (set_postponed_error (Some error)
                                                             (heap R c))) in
          input_curl_abort_all_requests fuel' R error
      end
  end.

(** A HTTP request is finished. *)
Definition input_curl_request_done (R : t) (c : nat) (result status : Z)
  : res t :=
  v <- input_curl_request_done (heap R c) result status ;;
  Ok (store R c v).

(** [status] is what CURLINFO_RESPONSE_CODE reports for the handle. *)
Definition input_curl_handle_done (R : t) (easy_handle : nat) (result status : Z)
  : res t :=
  match input_curl_find_request R easy_handle with
  | None => AssertFail
  | Some c =>
      let R := input_curl_easy_free R c in
      input_curl_request_done R c result status
  end.

(** The messages of curl_multi_info_read(). *)
Inductive CURLMsg : Type :=
| CURLMSG_DONE (easy_handle : nat) (result status : Z)
| CURLMSG_other.

(** Check for finished HTTP responses; [msgs] are the messages in the
    queue. *)
Fixpoint input_curl_info_read (R : t) (msgs : list CURLMsg) : res t :=
  match msgs with
  | [] => Ok R
  | CURLMSG_DONE easy_handle result status :: msgs' =>
      R <- input_curl_handle_done R easy_handle result status ;;
      input_curl_info_read R msgs'
  | CURLMSG_other :: msgs' => input_curl_info_read R msgs'
  end.

Definition CURLM_CALL_MULTI_PERFORM : Z := -1.

(** The [do ... while (mcode == CURLM_CALL_MULTI_PERFORM)] loop of
    input_curl_perform(); [mcodes] are the answers of
    curl_multi_perform(), in order.  The loop goes on while libcurl asks
    for it. *)
Fixpoint perform_loop (mcodes : list Z) : res Z :=
  match mcodes with
  | [] => Spin
  | mcode :: rest =>
      if mcode =? CURLM_CALL_MULTI_PERFORM then perform_loop rest else Ok mcode
  end.

(** Give control to CURL. *)
Definition input_curl_perform (ans : curl_answers) (R : t) (mcodes : list Z)
  : res (bool * t) :=
  mcode <- perform_loop mcodes ;;
  if negb (mcode =? CURLM_OK) && negb (mcode =? CURLM_CALL_MULTI_PERFORM) then
    let error := g_error_new curl_quark mcode
                   ("curl_multi_perform() failed: " ++ curl_strerror ans mcode) in
    R <- input_curl_abort_all_requests (List.length (requests R)) R error ;;
    Ok (false, R)
  else Ok (true, R).

Definition DispatchSockets (ans : curl_answers) (R : t) (mcodes : list Z)
           (msgs : list CURLMsg) : res t :=
  ' (ok, R) <- input_curl_perform ans R mcodes ;;
  if ok then input_curl_info_read R msgs else Ok R.

(** input_curl_finish() asserts that no request is left. *)
Definition input_curl_finish (R : t) : res unit :=
  assert (is_empty (requests R)) ;;; Ok tt.

End Reactor.

(** Every registered stream has a handle and no latched error. *)
Definition registry_ok (R : Reactor.t) : Prop :=
  NoDup (Reactor.requests R)
  /\ forall c, In c (Reactor.requests R) ->
               is_null (easy (Reactor.heap R c)) = false
               /\ postponed_error (Reactor.heap R c) = None.

(** ** The framing of a stream with inline metadata (spec, section 4.1)

    After [stride] audio bytes comes one length byte L, then 16*L bytes
    of metadata, then audio again.  These definitions follow the spec's
    words byte by byte; they are what the read loops are compared
    with. *)

(** Where the stream stands: inside a run of audio with [rest] bytes to
    go, at the length byte, or inside a metadata block with [rest] bytes
    to go. *)
Inductive spec_phase : Type :=
| AtAudio (rest : Z)
| AtLength
| AtMeta (rest : Z).

Definition spec_phase_of (p : IcyMetaDataParser.t) : spec_phase :=
  match IcyMetaDataParser.state p with
  | IcyMetaDataParser.InRun rest => AtAudio rest
  | IcyMetaDataParser.InLength => AtLength
  | IcyMetaDataParser.InMeta rest _ => AtMeta rest
  end.

(** One byte of the stream: whether it is audio, and where the stream
    stands after it. *)
Definition spec_frame_byte (stride : Z) (ph : spec_phase) (b : byte) : bool * spec_phase :=
  match ph with
  | AtAudio rest => (true, if rest - 1 =? 0 then AtLength else AtAudio (rest - 1))
  | AtLength =>
      let L := Z.of_N (Byte.to_N b) in
      (false, if L =? 0 then AtAudio stride else AtMeta (16 * L))
  | AtMeta rest => (false, if rest - 1 =? 0 then AtAudio stride else AtMeta (rest - 1))
  end.

(** The audio bytes of a piece of the stream, and where the stream stands
    after it. *)
Fixpoint spec_demux (stride : Z) (ph : spec_phase) (bytes : list byte)
  : list byte * spec_phase :=
  match bytes with
  | [] => ([], ph)
  | b :: r =>
      let '(audio, ph') := spec_frame_byte stride ph b in
      let '(a, ph'') := spec_demux stride ph' r in
      (if audio then b :: a else a, ph'')
  end.

(** The same from a parser's point of view: without inline metadata every
    byte is audio. *)
Definition spec_audio_of (p : IcyMetaDataParser.t) (bytes : list byte) : list byte :=
  if IcyMetaDataParser.IsDefined p
  then fst (spec_demux (IcyMetaDataParser.stride p) (spec_phase_of p) bytes)
  else bytes.

Definition spec_phase_after (p : IcyMetaDataParser.t) (bytes : list byte) : spec_phase :=
  if IcyMetaDataParser.IsDefined p
  then snd (spec_demux (IcyMetaDataParser.stride p) (spec_phase_of p) bytes)
  else spec_phase_of p.

(** [k] bytes of [bytes] take the parser from [p] to [p'], and [audio]
    are the audio bytes among them. *)
Definition spec_frames (p : IcyMetaDataParser.t) (bytes : list byte) (k : nat)
           (audio : list byte) (p' : IcyMetaDataParser.t) : Prop :=
  audio = spec_audio_of p (firstn k bytes)
  /\ IcyMetaDataParser.stride p' = IcyMetaDataParser.stride p
  /\ spec_phase_of p' = spec_phase_after p (firstn k bytes).

(** The absolute offset input_curl_seek() calculates from [offset_] and
    [whence]; none for SEEK_END on a stream of unknown size and for an
    unknown [whence]. *)
Definition seek_absolute_offset (c : input_curl) (offset_ whence : Z) : option Z :=
  if whence =? SEEK_SET then Some offset_
  else if whence =? SEEK_CUR then
    Some (goffset_of (offset_ + offset (base c)))
  else if whence =? SEEK_END then
    if size (base c) <? 0 then None
    else Some (goffset_of (offset_ + size (base c)))
  else None.

(** libcurl gives no handle to curl_easy_init(). *)
Definition answers_no_handle : curl_answers :=
  {| curl_easy_init_handle := false; curl_setopt_url := CURLE_OK;
     curl_multi_add_handle := CURLM_OK; curl_strerror := fun _ => EmptyString |}.

(** A Content-Length line whose value ends 78 bytes into the line. *)
Definition long_content_length : string :=
  ("Content-Length:" ++ string_of_list_ascii (repeat " "%char 60) ++ "123")%string.


(** Two streams with a transfer each, at the addresses 0 and 1. *)
Definition two_requests : Reactor.t :=
  {| Reactor.requests := [0%nat; 1%nat];
     Reactor.heap := fun _ => example_stream |}.

Definition perform_failed : GError :=
  g_error_new curl_quark 1 "curl_multi_perform() failed: ".

(** ** Machine integers: basic facts *)

Lemma size_t_range (z : Z) : 0 <= size_t z < SIZE_MODULUS.
Proof. unfold size_t, SIZE_MODULUS. apply Z.mod_pos_bound. lia. Qed.

Lemma size_t_small (z : Z) : 0 <= z < SIZE_MODULUS -> size_t z = z.
Proof. intros H. unfold size_t. apply Z.mod_small. exact H. Qed.

Lemma size_t_le (z : Z) : 0 <= z -> size_t z <= z.
Proof.
  intros H. unfold size_t, SIZE_MODULUS. apply Z.mod_le; lia.
Qed.

Lemma goffset_of_range (z : Z) : G_MININT64 <= goffset_of z <= G_MAXINT64.
Proof.
  unfold goffset_of, G_MININT64, G_MAXINT64.
  pose proof (Z.mod_pos_bound (z + 2 ^ 63) (2 ^ 64)). lia.
Qed.

Lemma goffset_of_small (z : Z) :
  G_MININT64 <= z <= G_MAXINT64 -> goffset_of z = z.
Proof.
  unfold goffset_of, G_MININT64, G_MAXINT64. intros H.
  rewrite Z.mod_small; lia.
Qed.

(** Adding a converted [size_t] equals adding it, modulo 2^64. *)
Lemma goffset_of_add_idem (a n : Z) :
  goffset_of (a + goffset_of n) = goffset_of (a + n).
Proof.
  unfold goffset_of.
  replace (a + ((n + 2 ^ 63) mod 2 ^ 64 - 2 ^ 63) + 2 ^ 63)
    with (a + (n + 2 ^ 63) mod 2 ^ 64) by lia.
  rewrite Z.add_mod_idemp_r by lia.
  f_equal. f_equal. lia.
Qed.

Lemma gint_of_small (z : Z) : G_MININT <= z <= G_MAXINT -> gint_of z = z.
Proof.
  unfold gint_of, G_MININT, G_MAXINT. intros H.
  rewrite Z.mod_small; lia.
Qed.

(** ** The timeout of the socket bridge *)

(** At a timeout of 2^31 ms, which a 64-bit [long] holds, the value
    stored through the [gint] pointer is not the reported one. *)
Lemma PrepareSockets_narrows_timeout :
  snd (CurlSockets.PrepareSockets example_sockets example_fdset 0 CURLM_OK
                                  2147483648 0) = -2147483648
  /\ snd (CurlSockets.PrepareSockets example_sockets example_fdset 0 CURLM_OK
                                     2147483648 0) <> 2147483648.
Proof. split; [reflexivity | discriminate]. Qed.

(** C9 (as amended): when curl_multi_timeout() succeeds with [t]:
    for 0 <= t < 10 the timeout handed to the event loop is 10; for a
    negative t no timeout is recorded, the deadline is left alone and the
    deadline check is off; for t >= 10 the event loop receives t converted
    to [gint], which is t itself up to G_MAXINT. *)
Theorem PrepareSockets_timeout
        (s : CurlSockets.t) (a : CurlSockets.fdset_answer)
        (now t timeout_r : Z) :
  let s' := fst (CurlSockets.PrepareSockets s a now CURLM_OK t timeout_r) in
  let r := snd (CurlSockets.PrepareSockets s a now CURLM_OK t timeout_r) in
  (0 <= t < 10 -> r = 10 /\ CurlSockets.have_timeout s' = true)
  /\ (t < 0 ->
      CurlSockets.have_timeout s' = false
      /\ CurlSockets.absolute_timeout s'
         = CurlSockets.absolute_timeout (CurlSockets.UpdateSockets s a)
      /\ forall later, CurlSockets.CheckSockets s' later = false)
  /\ (10 <= t -> r = gint_of t /\ CurlSockets.have_timeout s' = true)
  /\ (10 <= t <= G_MAXINT -> r = t).
Proof.
  cbv zeta. unfold CurlSockets.PrepareSockets.
  change (CURLM_OK =? CURLM_OK) with true. cbv iota.
  split; [|split; [|split]].
  - intros [H0 H10].
    assert (E1 : (0 <=? t) = true) by (apply Z.leb_le; lia).
    assert (E2 : (t <? 10) = true) by (apply Z.ltb_lt; lia).
    rewrite E1, E2. split; reflexivity.
  - intros Hneg.
    assert (E1 : (0 <=? t) = false) by (apply Z.leb_gt; lia).
    rewrite E1. cbn. split; [exact E1 | split; [reflexivity|]].
    intros later. unfold CurlSockets.CheckSockets. cbn. rewrite E1. reflexivity.
  - intros H10.
    assert (E2 : (t <? 10) = false) by (apply Z.ltb_ge; lia).
    rewrite E2, andb_false_r. cbn. split; [reflexivity|]. apply Z.leb_le. lia.
  - intros [H10 Hmax].
    assert (E2 : (t <? 10) = false) by (apply Z.ltb_ge; lia).
    rewrite E2, andb_false_r. cbn [snd].
    apply gint_of_small. unfold G_MININT, G_MAXINT in *. lia.
Qed.

(** ** open: the scheme check *)

Lemma code_eqb (c1 c2 : ascii) : (code c1 =? code c2) = Ascii.eqb c1 c2.
Proof.
  destruct (Ascii.eqb_spec c1 c2) as [->|Hne].
  - apply Z.eqb_refl.
  - apply Z.eqb_neq. unfold code. intros H. apply Hne.
    apply N2Z.inj in H.
    rewrite <- (ascii_N_embedding c1), <- (ascii_N_embedding c2).
    now rewrite H.
Qed.

Lemma code_NUL (c : ascii) : code c = 0 -> c = NUL.
Proof.
  intros H. apply Ascii.eqb_eq. rewrite <- code_eqb. apply Z.eqb_eq.
  rewrite H. reflexivity.
Qed.

(** strncmp() against a NUL-free literal over the literal's length is the
    prefix test. *)
Lemma strncmp_loop_prefix (lit : string) :
  nul_free lit = true ->
  forall s, (strncmp_loop (cstr s) lit (String.length lit) =? 0) = prefix lit s.
Proof.
  induction lit as [|c lit IH]; intros Hfree s.
  - destruct s; cbn; reflexivity.
  - cbn in Hfree. apply andb_true_iff in Hfree as [Hc Hfree].
    apply negb_true_iff in Hc.
    destruct s as [|a s].
    + cbn. apply Z.eqb_neq. intros H.
      assert (code c = 0) by lia.
      apply code_NUL in H0. subst c. discriminate.
    + cbn [cstr]. destruct (Ascii.eqb a NUL) eqn:Ha.
      * apply Ascii.eqb_eq in Ha. subst a. cbn [String.length strncmp_loop prefix].
        destruct (ascii_dec c NUL) as [->|Hne]; [discriminate|].
        apply Z.eqb_neq. intros H.
        assert (code c = 0) by lia. apply code_NUL in H0. contradiction.
      * cbn [String.length strncmp_loop prefix].
        rewrite code_eqb.
        destruct (ascii_dec c a) as [->|Hne].
        -- rewrite Ascii.eqb_refl. apply IH. exact Hfree.
        -- destruct (Ascii.eqb_spec a c) as [->|Hne']; [contradiction|].
           apply Z.eqb_neq. intros H.
           assert (E : code a = code c) by lia.
           apply Z.eqb_eq in E. rewrite code_eqb in E.
           apply Ascii.eqb_eq in E. contradiction.
Qed.

(** C8: for every URI that does not begin with "http://", open returns
    NULL without an error, creates no stream and makes no call to the I/O
    thread. *)
Theorem input_curl_open_not_mine
        (G : curl_globals) (ans : curl_answers) (url : string) :
  prefix "http://" url = false ->
  input_curl_open G ans url = Ok (OpenNull None, []).
Proof.
  intros Hpre. unfold input_curl_open, strncmp.
  change (cstr "http://") with "http://"%string.
  change (Z.to_nat 7) with (String.length "http://").
  rewrite strncmp_loop_prefix by reflexivity.
  rewrite Hpre. reflexivity.
Qed.

Lemma input_curl_open_not_mine_witness :
  prefix "http://" "ftp://x" = false
  /\ input_curl_open example_globals answers_ok "ftp://x" = Ok (OpenNull None, []).
Proof.
  split; [reflexivity | apply input_curl_open_not_mine; reflexivity].
Defined.

(** ** The header callback: stack arrays *)

Lemma skip_leading_bounds (header : string) (fuel value end_ : nat) :
  (value <= end_)%nat ->
  (value <= skip_leading header value end_ fuel <= end_)%nat.
Proof.
  revert value. induction fuel as [|fuel IH]; intros value Hle; cbn [skip_leading].
  - lia.
  - destruct (value <? end_)%nat eqn:Hlt; cbn [andb]; [|lia].
    apply Nat.ltb_lt in Hlt.
    destruct (g_ascii_isspace (byte_at header value)); [|lia].
    specialize (IH (S value) ltac:(lia)). lia.
Qed.

Lemma strip_trailing_bounds (header : string) (fuel value end_ : nat) :
  (value <= end_)%nat ->
  (value <= strip_trailing header value end_ fuel <= end_)%nat.
Proof.
  revert end_. induction fuel as [|fuel IH]; intros end_ Hle; cbn [strip_trailing].
  - lia.
  - destruct (value <? end_)%nat eqn:Hlt; cbn [andb]; [|lia].
    apply Nat.ltb_lt in Hlt.
    destruct (g_ascii_isspace (byte_at header (pred end_))); [|lia].
    specialize (IH (pred end_) ltac:(lia)). lia.
Qed.

Lemma memchr_bound (s : string) (c : ascii) (n i : nat) :
  memchr s c n = Some i -> (i < n)%nat.
Proof.
  revert s i. induction n as [|n IH]; intros s i; cbn.
  - discriminate.
  - destruct s as [|a r]; [discriminate|].
    destruct (Ascii.eqb a c).
    + intros [= <-]. lia.
    + destruct (memchr r c n) as [j|] eqn:E; cbn; [|discriminate].
      intros [= <-]. specialize (IH _ _ E). lia.
Qed.

Ltac split_if :=
  match goal with
  | |- context [if ?b then _ else _] => destruct b eqn:?
  end.

(** ** The header callback: metadata and seekability *)

(** What one header line does to the parser and the [seekable] flag:
    an active parser and its flag are left alone, and a line that
    activates the parser clears the flag. *)
Lemma headerfunction_icy_seekable
      (c : input_curl) (ptr : string) (size_ nmemb : Z) :
  let c' := snd (input_curl_headerfunction c ptr size_ nmemb) in
  (IcyMetaDataParser.IsDefined (icy c) = true ->
   icy c' = icy c /\ seekable (base c') = seekable (base c))
  /\ (IcyMetaDataParser.IsDefined (icy c) = false ->
      IcyMetaDataParser.IsDefined (icy c') = true ->
      seekable (base c') = false).
Proof.
  cbv zeta. unfold input_curl_headerfunction, input_curl_headerfunction_writes.
  destruct (memchr ptr ":" (Z.to_nat (size_t (size_ * nmemb)))) as [colon|];
    [|cbn; split; [auto | congruence]].
  repeat split_if; cbn [fst snd];
    (split;
     [ intros Hdef; cbn; try (split; reflexivity);
       repeat match goal with
              | H : (_ || _) = false |- _ => apply orb_false_iff in H as [? ?]
              | H : negb _ = true |- _ => apply negb_true_iff in H
              end; congruence
     | intros Hundef Hdef; cbn in *; try reflexivity; congruence ]).
Qed.

(** C7: over every sequence of response header lines, a stream whose
    metadata parser is active is not seekable: the icy-metaint line that
    starts the parser clears [seekable], and an Accept-Ranges line that
    comes later does not set it again. *)
Theorem icy_active_not_seekable
        (c : input_curl) (lines : list (string * Z * Z)) :
  (IcyMetaDataParser.IsDefined (icy c) = true -> seekable (base c) = false) ->
  IcyMetaDataParser.IsDefined (icy (process_headers c lines)) = true ->
  seekable (base (process_headers c lines)) = false.
Proof.
  revert c. induction lines as [|[[ptr size_] nmemb] lines IH]; intros c Hinv.
  - exact Hinv.
  - cbn [process_headers fold_left]. apply IH.
    pose proof (headerfunction_icy_seekable c ptr size_ nmemb) as [Hon Hoff].
    cbv zeta in Hon, Hoff.
    destruct (IcyMetaDataParser.IsDefined (icy c)) eqn:Hc.
    + destruct (Hon eq_refl) as [Hicy Hseek]. intros _.
      rewrite Hseek. apply Hinv. reflexivity.
    + intros Hdef. apply Hoff; [reflexivity | exact Hdef].
Qed.

Lemma icy_active_not_seekable_witness :
  IcyMetaDataParser.IsDefined (icy (process_headers example_stream icy_headers)) = true
  /\ seekable (base (process_headers example_stream icy_headers)) = false.
Proof.
  split; [reflexivity|].
  apply (icy_active_not_seekable example_stream icy_headers);
    [discriminate | reflexivity].
Defined.

(** ** seek: rejected requests *)

(** A stream that is not ready: input_curl_seek() stops at its assertion
    and does not return failure.  (With assertions compiled out the same
    call is the no-op case and returns success.) *)
Lemma input_curl_seek_not_ready :
  ready (base example_stream) = false
  /\ input_curl_seek example_globals answers_ok example_stream 0 SEEK_SET
     = AssertFail
  /\ forall err c' eff,
      input_curl_seek example_globals answers_ok example_stream 0 SEEK_SET
      <> Ok (SeekReturn false err, c', eff).
Proof.
  split; [reflexivity|]. split; [reflexivity|].
  intros err c' eff H. vm_compute in H. discriminate H.
Qed.

(** C5 (as amended): on a ready stream, whose offset is never negative,
    seek returns failure, without blocking, without touching the stream
    and without a call to the I/O thread, whenever whence is SEEK_END and
    the size is unknown, or the computed absolute target offset is
    negative. *)
Theorem input_curl_seek_rejects
        (G : curl_globals) (ans : curl_answers) (c : input_curl)
        (offset_ whence : Z) :
  ready (base c) = true ->
  0 <= offset (base c) ->
  (whence = SEEK_END /\ size (base c) < 0)
  \/ (exists t, seek_target c offset_ whence = Some t /\ t < 0) ->
  input_curl_seek G ans c offset_ whence = Ok (SeekReturn false None, c, []).
Proof.
  intros Hready Hoff Hcase. unfold input_curl_seek.
  rewrite Hready. cbn [assert bind].
  destruct Hcase as [[-> Hsize] | [t [Ht Hneg]]].
  - change (SEEK_END =? SEEK_SET) with false.
    change (SEEK_END =? SEEK_CUR) with false.
    change (SEEK_END =? SEEK_END) with true.
    cbn [andb]. apply Z.ltb_lt in Hsize. rewrite Hsize.
    destruct (seekable (base c)); reflexivity.
  - unfold seek_target in Ht.
    destruct (whence =? SEEK_SET) eqn:Hset.
    + injection Ht as ->. cbn [andb].
      assert (E : (t =? offset (base c)) = false) by (apply Z.eqb_neq; lia).
      rewrite E. apply Z.ltb_lt in Hneg. rewrite Hneg.
      destruct (seekable (base c)); reflexivity.
    + cbn [andb].
      destruct (seekable (base c)); [|reflexivity]. cbn [negb].
      destruct (whence =? SEEK_CUR).
      * injection Ht as Ht. rewrite Ht. apply Z.ltb_lt in Hneg.
        rewrite Hneg. reflexivity.
      * destruct (whence =? SEEK_END); [|discriminate].
        injection Ht as Ht. rewrite Ht.
        destruct (size (base c) <? 0); [reflexivity|].
        apply Z.ltb_lt in Hneg. rewrite Hneg. reflexivity.
Qed.

Lemma input_curl_seek_rejects_witness :
  input_curl_seek example_globals answers_ok finished_stream (-11) SEEK_END
  = Ok (SeekReturn false None, finished_stream, []).
Proof.
  apply input_curl_seek_rejects.
  - reflexivity.
  - vm_compute. discriminate.
  - right. exists (-1). split; [reflexivity | lia].
Defined.

(** ** seek: the new transfer and its Range header *)

(** A seek back to offset 0 of a seekable stream, from offset 4: a new
    transfer is set up and handed to the I/O thread, without a Range
    option. *)
Lemma input_curl_seek_zero_no_range :
  exists c' eff opts,
    input_curl_seek example_globals answers_ok mid_stream 0 SEEK_SET
    = Ok (SeekBlocked, c', eff)
    /\ In (Io_thread_call IO_easy_add) eff
    /\ offset (base c') = 0
    /\ easy c' = Some opts
    /\ range c' = None
    /\ forall r, ~ In (CURLOPT_RANGE r) opts.
Proof.
  eexists. eexists. eexists.
  split; [vm_compute; reflexivity|].
  split; [cbn; auto|].
  split; [reflexivity|].
  split; [reflexivity|].
  split; [reflexivity|].
  intros r H. cbn in H.
  repeat (destruct H as [H|H]; [discriminate H|]). exact H.
Qed.

Lemma input_curl_easy_free_null (c : input_curl) :
  easy (input_curl_easy_free c) = None.
Proof.
  unfold input_curl_easy_free. destruct (easy c) eqn:E; [reflexivity | exact E].
Qed.

Lemma input_curl_easy_free_base (c : input_curl) :
  base (input_curl_easy_free c) = base c.
Proof. unfold input_curl_easy_free. destruct (easy c); reflexivity. Qed.

Lemma input_curl_easy_free_buffers (c : input_curl) :
  buffers (input_curl_easy_free c) = buffers c.
Proof. unfold input_curl_easy_free. destruct (easy c); reflexivity. Qed.

(** The fast-forward loop changes the buffers and the offset only. *)
Lemma seek_fast_forward_keeps (fuel : nat) (t : Z) (c c1 : input_curl) :
  seek_fast_forward fuel c t = Ok c1 ->
  size (base c1) = size (base c) /\ uri (base c1) = uri (base c)
  /\ easy c1 = easy c /\ icy c1 = icy c.
Proof.
  revert c. induction fuel as [|fuel IH]; intros c; cbn [seek_fast_forward].
  - destruct (buffers c); [intros [= <-]; auto|].
    destruct (offset (base c) <? t); [discriminate|].
    intros [= <-]; auto.
  - destruct (buffers c) as [|buffer rest]; [intros [= <-]; auto|].
    destruct (offset (base c) <? t); [|intros [= <-]; auto].
    destruct (CurlInputBuffer.Consume buffer _) as [[more buffer']| |];
      cbn [bind]; try discriminate.
    intros H. apply IH in H. cbn in H. exact H.
Qed.

(** A transfer setup that libcurl accepts: the handle carries the URL and
    no Range option yet. *)
Lemma input_curl_easy_init_ok
      (G : curl_globals) (ans : curl_answers) (c : input_curl) :
  curl_easy_init_handle ans = true ->
  curl_setopt_url ans = CURLE_OK ->
  exists opts,
    input_curl_easy_init G ans c
    = (true, None,
       set_request_headers ["Icy-Metadata: 1"%string] (set_easy (Some opts) c))
    /\ In (CURLOPT_URL (uri (base c))) opts
    /\ forall r, ~ In (CURLOPT_RANGE r) opts.
Proof.
  intros Hinit Hurl. unfold input_curl_easy_init.
  rewrite Hinit, Hurl. cbn [negb]. change (CURLE_OK =? CURLE_OK) with true.
  cbn [negb]. eexists. split; [reflexivity|]. split.
  - apply in_or_app. right. left. reflexivity.
  - intros r H.
    repeat (apply in_app_or in H; destruct H as [H|H]);
      try (destruct (proxy G)); try (destruct (0 <? proxy_port G));
      try (destruct (proxy_user G)); try (destruct (proxy_password G));
      cbn in H;
      repeat (destruct H as [H|H]; [discriminate H|]); exact H.
Qed.

(** C6 (as amended): a seek whose target is not reached by the buffer
    fast-forward and differs from the stream size sets up a new transfer
    for the stream's URL at the target offset; for every target greater
    than zero the transfer carries the Range option "target-"; for the
    target zero no Range option is set. *)
Theorem input_curl_seek_range
        (G : curl_globals) (ans : curl_answers) (c c1 : input_curl)
        (offset_ whence t : Z) :
  ready (base c) = true ->
  seekable (base c) = true ->
  (whence =? SEEK_SET) && (offset_ =? offset (base c)) = false ->
  seek_target c offset_ whence = Some t ->
  (whence = SEEK_END -> 0 <= size (base c)) ->
  0 <= t ->
  seek_fast_forward (S (List.length (buffers c))) c t = Ok c1 ->
  offset (base c1) <> t ->
  t <> size (base c) ->
  curl_easy_init_handle ans = true ->
  curl_setopt_url ans = CURLE_OK ->
  exists out c' eff opts,
    input_curl_seek G ans c offset_ whence = Ok (out, c', eff)
    /\ In (Io_thread_call IO_easy_add) eff
    /\ offset (base c') = t
    /\ easy c' = Some opts
    /\ In (CURLOPT_URL (uri (base c))) opts
    /\ (0 < t ->
        range c' = Some (string_of_Z t ++ "-")%string
        /\ In (CURLOPT_RANGE (string_of_Z t ++ "-")) opts)
    /\ (t = 0 -> forall r, ~ In (CURLOPT_RANGE r) opts).
Proof.
  intros Hready Hseekable Hnoop Htarget Hend Hpos Hff Hne Hsize Hinit Hurl.
  unfold input_curl_seek.
  rewrite Hready. cbn [assert bind]. rewrite Hnoop, Hseekable. cbn [negb].
  assert (E : (if whence =? SEEK_SET then Some offset_
               else if whence =? SEEK_CUR
                    then Some (goffset_of (offset_ + offset (base c)))
                    else if whence =? SEEK_END
                         then if size (base c) <? 0 then None
                              else Some (goffset_of (offset_ + size (base c)))
                         else None) = Some t).
  { unfold seek_target in Htarget.
    destruct (whence =? SEEK_SET); [exact Htarget|].
    destruct (whence =? SEEK_CUR); [exact Htarget|].
    destruct (whence =? SEEK_END) eqn:Hw; [|discriminate].
    apply Z.eqb_eq in Hw. specialize (Hend Hw).
    assert (E : (size (base c) <? 0) = false) by (apply Z.ltb_ge; lia).
    rewrite E. exact Htarget. }
  rewrite E. clear E.
  assert (E : (t <? 0) = false) by (apply Z.ltb_ge; lia).
  rewrite E. clear E.
  rewrite Hff. cbn [bind].
  assert (E : (t =? offset (base c1)) = false) by (apply Z.eqb_neq; congruence).
  rewrite E. clear E.
  unfold seek_new_connection, input_curl_easy_free_indirect.
  rewrite input_curl_easy_free_null. cbn [assert bind].
  destruct (seek_fast_forward_keeps _ _ _ _ Hff) as (Hsz & Huri & _ & _).
  set (c2 := with_base (set_offset t) (set_buffers [] (input_curl_easy_free c1))).
  assert (Hbase2 : base c2 = set_offset t (base c1)).
  { unfold c2. cbn. rewrite input_curl_easy_free_base. reflexivity. }
  assert (E : (offset (base c2) =? size (base c2)) = false).
  { rewrite Hbase2. cbn. apply Z.eqb_neq. congruence. }
  rewrite E. clear E.
  destruct (input_curl_easy_init_ok G ans c2 Hinit Hurl) as (opts & Einit & Hurl' & Hnorange).
  rewrite Einit.
  assert (Huri2 : uri (base c2) = uri (base c)).
  { rewrite Hbase2. cbn. exact Huri. }
  rewrite Huri2 in Hurl'.
  assert (Hoff2 : offset (base c2) = t) by (rewrite Hbase2; reflexivity).
  cbn [base set_request_headers set_easy]. rewrite Hoff2.
  unfold input_curl_easy_add_indirect.
  destruct (0 <? t) eqn:Ht.
  - apply Z.ltb_lt in Ht. cbn [easy set_opt_range set_range with_base set_easy
                                 set_request_headers is_null negb assert bind].
    destruct (negb (curl_multi_add_handle ans =? CURLM_OK));
      cbn [negb input_curl_seek_wait ready base set_ready with_base];
      do 3 eexists; exists (opts ++ [CURLOPT_RANGE (string_of_Z t ++ "-")])%list;
      (split; [reflexivity|]);
      (split; [cbn; auto|]);
      (split; [cbn; exact Hoff2|]);
      (split; [reflexivity|]);
      (split; [apply in_or_app; left; exact Hurl'|]);
      (split; [intros _; split; [reflexivity | apply in_or_app; right; left; reflexivity]
              | intros ->; lia]).
  - apply Z.ltb_ge in Ht.
    cbn [easy with_base set_easy set_request_headers is_null negb assert bind].
    destruct (negb (curl_multi_add_handle ans =? CURLM_OK));
      cbn [negb input_curl_seek_wait ready base set_ready with_base];
      do 3 eexists; exists opts;
      (split; [reflexivity|]);
      (split; [cbn; auto|]);
      (split; [cbn; exact Hoff2|]);
      (split; [reflexivity|]);
      (split; [exact Hurl'|]);
      (split; [intros Hlt; lia | intros _; exact Hnorange]).
Qed.

Lemma input_curl_seek_range_witness :
  exists out c' eff opts,
    input_curl_seek example_globals answers_ok mid_stream 2 SEEK_SET
    = Ok (out, c', eff)
    /\ In (Io_thread_call IO_easy_add) eff
    /\ offset (base c') = 2
    /\ easy c' = Some opts
    /\ In (CURLOPT_URL (uri (base mid_stream))) opts
    /\ (0 < 2 ->
        range c' = Some (string_of_Z 2 ++ "-")%string
        /\ In (CURLOPT_RANGE (string_of_Z 2 ++ "-")) opts)
    /\ (2 = 0 -> forall r, ~ In (CURLOPT_RANGE r) opts).
Proof.
  apply (input_curl_seek_range example_globals answers_ok mid_stream mid_stream
                               2 SEEK_SET 2).
  - reflexivity.
  - reflexivity.
  - reflexivity.
  - reflexivity.
  - intros H. discriminate H.
  - lia.
  - reflexivity.
  - vm_compute. discriminate.
  - vm_compute. discriminate.
  - reflexivity.
  - reflexivity.
Defined.

(** ** End of stream *)

(** After the end of the stream, a seek back to the start sets up a new
    transfer, and the stream is no longer at its end. *)
Lemma eof_lost_by_seek :
  input_curl_eof finished_stream = true
  /\ exists c',
      step example_parse example_globals finished_stream
           (EvSeek answers_ok 0 SEEK_SET) = Ok (c', 0)
      /\ input_curl_eof c' = false.
Proof.
  split; [reflexivity|].
  eexists. split; [vm_compute; reflexivity | reflexivity].
Qed.

Lemma input_curl_eof_inv (c : input_curl) :
  input_curl_eof c = true -> easy c = None /\ buffers c = [].
Proof.
  unfold input_curl_eof. intros H. apply andb_true_iff in H as [He Hb].
  destruct (easy c); [discriminate|]. destruct (buffers c); [auto | discriminate].
Qed.

Ltac case_in H :=
  match type of H with
  | context [if ?b then _ else _] => destruct b eqn:?
  | context [match ?x with _ => _ end] => destruct x eqn:?
  end.

Lemma input_curl_easy_init_keeps
      (G : curl_globals) (ans : curl_answers) (c c' : input_curl)
      (ok : bool) (err : option GError) :
  input_curl_easy_init G ans c = (ok, err, c') ->
  base c' = base c /\ buffers c' = buffers c /\ icy c' = icy c
  /\ paused c' = paused c.
Proof.
  unfold input_curl_easy_init.
  destruct (negb (curl_easy_init_handle ans)); [intros [= _ _ <-]; auto|].
  destruct (negb (curl_setopt_url ans =? CURLE_OK)); intros [= _ _ <-]; auto.
Qed.

Lemma set_opt_range_keeps (r : string) (c : input_curl) :
  base (set_opt_range r c) = base c /\ buffers (set_opt_range r c) = buffers c
  /\ icy (set_opt_range r c) = icy c /\ paused (set_opt_range r c) = paused c.
Proof. unfold set_opt_range. destruct (easy c); auto. Qed.

(** At the end of the stream every action other than a seek that sets up
    a new transfer leaves the stream at its end. *)
Lemma step_keeps_eof
      (icy_parse_tag : list byte -> option struct_tag) (G : curl_globals)
      (c c1 : input_curl) (e : event) (n : Z) :
  input_curl_eof c = true ->
  step icy_parse_tag G c e = Ok (c1, n) ->
  negb (is_seek e) || is_null (easy c1) = true ->
  input_curl_eof c1 = true.
Proof.
  intros Heof Hstep Hquiet.
  apply input_curl_eof_inv in Heof as [He Hb].
  destruct c as [b rg rh ea bufs pa er ic mn tg pe]. cbn in He, Hb. subst ea bufs.
  destruct e; cbn in Hstep, Hquiet; try discriminate Hstep.
  - (* read *)
    unfold input_curl_read in Hstep.
    destruct pe; cbn in Hstep; injection Hstep as <- _; reflexivity.
  - (* seek *)
    unfold input_curl_seek, seek_new_connection, input_curl_easy_add_indirect,
      assert in Hstep.
    cbn in Hstep. unfold input_curl_eof.
    repeat (case_in Hstep; cbn in Hstep; try discriminate Hstep);
      injection Hstep as <- _; cbn in Hquiet |- *; try reflexivity;
      rewrite Hquiet; cbn [andb];
      match goal with
      | H : input_curl_easy_init _ _ _ = _ |- _ =>
          apply input_curl_easy_init_keeps in H as (_ & Hbufs & _)
      end;
      repeat rewrite (proj1 (proj2 (set_opt_range_keeps _ _)));
      cbn; rewrite Hbufs; reflexivity.
  - (* the waiting seek *)
    unfold input_curl_seek_wait in Hstep. cbn in Hstep.
    repeat (case_in Hstep; cbn in Hstep);
      injection Hstep as <- _; reflexivity.
  - (* check *)
    destruct pe; cbn in Hstep; injection Hstep as <- _; reflexivity.
  - (* tag *)
    injection Hstep as <- _. reflexivity.
Qed.

(** Once eof returns true, every later eof query returns true, whatever
    is done in between, as long as no seek sets up a new transfer. *)
Lemma eof_stable_run
        (icy_parse_tag : list byte -> option struct_tag) (G : curl_globals)
        (tr : list event) (c c' : input_curl) (n : Z) :
  input_curl_eof c = true ->
  no_restart icy_parse_tag G c tr = true ->
  run icy_parse_tag G c tr = Ok (c', n) ->
  input_curl_eof c' = true.
Proof.
  revert c n. induction tr as [|e tr IH]; intros c n Heof Hquiet Hrun.
  - cbn in Hrun. injection Hrun as <- _. exact Heof.
  - cbn [run] in Hrun. cbn [no_restart] in Hquiet.
    destruct (step icy_parse_tag G c e) as [[c1 k]| |] eqn:Hstep;
      try discriminate Hrun.
    cbn [bind] in Hrun.
    apply andb_true_iff in Hquiet as [Hq Hrest].
    destruct (run icy_parse_tag G c1 tr) as [[c2 m]| |] eqn:Hrun';
      try discriminate Hrun.
    cbn [bind] in Hrun. injection Hrun as <- _.
    apply (IH c1 m); [|exact Hrest|exact Hrun'].
    apply (step_keeps_eof icy_parse_tag G c c1 e k Heof Hstep Hq).
Qed.

(** A seek at the end of the stream: the stream is no longer at its end
    afterwards exactly when the seek had to open a new connection (the
    stream is seekable, the target is not negative, not the current
    offset and not the size of the stream) and curl_easy_init() returned
    a handle for it. *)
Lemma seek_at_eof
      (G : curl_globals) (ans : curl_answers) (c c' : input_curl)
      (offset_ whence : Z) (out : seek_outcome) (eff : list effect) :
  input_curl_eof c = true ->
  input_curl_seek G ans c offset_ whence = Ok (out, c', eff) ->
  (input_curl_eof c' = false
   <-> (seekable (base c) = true
        /\ (exists t, seek_absolute_offset c offset_ whence = Some t
                      /\ 0 <= t /\ t <> offset (base c) /\ t <> size (base c))
        /\ curl_easy_init_handle ans = true)).
Proof.
  intros Heof Hseek.
  apply input_curl_eof_inv in Heof as [He Hb].
  destruct c as [b rg rh ea bufs pa er ic mn tg pe]. cbn in He, Hb. subst ea bufs.
  unfold input_curl_seek, assert in Hseek. cbn [base] in Hseek.
  destruct (ready b); cbn [bind] in Hseek; [|discriminate Hseek].
  unfold seek_absolute_offset. cbn [base].
  destruct ((whence =? SEEK_SET) && (offset_ =? offset b)) eqn:Hnoop.
  { injection Hseek as _ <- _. cbn. split; [discriminate|].
    intros (_ & (t & Ht & _ & Hne & _) & _).
    apply andb_true_iff in Hnoop as [Hw Ho]. rewrite Hw in Ht.
    apply Z.eqb_eq in Ho. congruence. }
  destruct (seekable b) eqn:Hsk; cbn [negb] in Hseek.
  2:{ injection Hseek as _ <- _. cbn. split; [discriminate|].
      intros (H & _). discriminate H. }
  set (target := if whence =? SEEK_SET then Some offset_
                 else if whence =? SEEK_CUR
                      then Some (goffset_of (offset_ + offset b))
                      else if whence =? SEEK_END
                           then if size b <? 0 then None
                                else Some (goffset_of (offset_ + size b))
                           else None) in *.
  destruct target as [t|].
  2:{ injection Hseek as _ <- _. cbn. split; [discriminate|].
      intros (_ & (t & Ht & _) & _). discriminate Ht. }
  destruct (t <? 0) eqn:Hneg.
  { injection Hseek as _ <- _. cbn. split; [discriminate|].
    intros (_ & (t' & [= <-] & Hpos & _) & _). apply Z.ltb_lt in Hneg. lia. }
  apply Z.ltb_ge in Hneg.
  cbn [seek_fast_forward buffers bind base] in Hseek.
  destruct (t =? offset b) eqn:Hsame.
  { injection Hseek as _ <- _. cbn. split; [discriminate|].
    intros (_ & (t' & [= <-] & _ & Hne & _) & _). apply Z.eqb_eq in Hsame. lia. }
  apply Z.eqb_neq in Hsame.
  unfold seek_new_connection, input_curl_easy_free_indirect, assert in Hseek.
  cbn in Hseek.
  destruct (t =? size b) eqn:Hend.
  { injection Hseek as _ <- _. cbn. split; [discriminate|].
    intros (_ & (t' & [= <-] & _ & _ & Hne) & _). apply Z.eqb_eq in Hend. lia. }
  apply Z.eqb_neq in Hend.
  unfold input_curl_easy_init in Hseek.
  destruct (curl_easy_init_handle ans) eqn:Hinit; cbn [negb] in Hseek.
  2:{ injection Hseek as _ <- _. cbn. split; [discriminate|].
      intros (_ & _ & H). discriminate H. }
  assert (Hright : true = true
                   /\ (exists t0, Some t = Some t0 /\ 0 <= t0 /\ t0 <> offset b
                                  /\ t0 <> size b)
                   /\ true = true)
    by (split; [reflexivity|]; split; [exists t; auto | reflexivity]).
  destruct (negb (curl_setopt_url ans =? CURLE_OK)).
  { injection Hseek as _ <- _. cbn. split; [intros _; exact Hright | reflexivity]. }
  unfold input_curl_easy_add_indirect, input_curl_seek_wait, assert in Hseek.
  cbn in Hseek.
  split; [intros _; exact Hright | intros _].
  unfold input_curl_eof.
  destruct (0 <? t); cbn in Hseek;
    destruct (curl_multi_add_handle ans =? CURLM_OK); cbn in Hseek;
    injection Hseek as _ <- _; reflexivity.
Qed.

(** C4 (as amended): once eof returns true, every later eof query
    returns true, whatever is done in between, as long as no seek sets up
    a new transfer: a seek that ends without a transfer handle (no-op,
    rejected, or to the end of the stream) keeps it true.  A seek at the
    end of the stream makes eof false exactly when it has to open a new
    connection (a seekable stream, and a target that is not negative,
    not the current offset and not the size of the stream) and
    curl_easy_init() returns a handle for it; when curl_easy_init()
    returns NULL, eof stays true. *)
Theorem eof_until_restart
        (icy_parse_tag : list byte -> option struct_tag) (G : curl_globals) :
  (forall (tr : list event) (c c' : input_curl) (n : Z),
      input_curl_eof c = true ->
      no_restart icy_parse_tag G c tr = true ->
      run icy_parse_tag G c tr = Ok (c', n) ->
      input_curl_eof c' = true)
  /\ (forall (ans : curl_answers) (c c' : input_curl) (offset_ whence : Z)
             (out : seek_outcome) (eff : list effect),
         input_curl_eof c = true ->
         input_curl_seek G ans c offset_ whence = Ok (out, c', eff) ->
         (input_curl_eof c' = false
          <-> (seekable (base c) = true
               /\ (exists t, seek_absolute_offset c offset_ whence = Some t
                             /\ 0 <= t /\ t <> offset (base c)
                             /\ t <> size (base c))
               /\ curl_easy_init_handle ans = true))).
Proof.
  split.
  - intros tr c c' n. exact (eof_stable_run icy_parse_tag G tr c c' n).
  - intros ans c c' offset_ whence out eff.
    exact (seek_at_eof G ans c c' offset_ whence out eff).
Qed.

(** At the end of the 10-byte stream: a read, a seek to the end, the tag,
    a check and another read leave it there; a seek back to the start
    does not, as libcurl gives a handle. *)
Lemma eof_until_restart_witness :
  input_curl_eof
    (fst (match run example_parse example_globals finished_stream after_the_end with
          | Ok r => r
          | _ => (finished_stream, 0)
          end)) = true
  /\ (forall c' out eff,
         input_curl_seek example_globals answers_ok finished_stream 0 SEEK_SET
         = Ok (out, c', eff) ->
         input_curl_eof c' = false).
Proof.
  split.
  - apply (proj1 (eof_until_restart example_parse example_globals)
                 after_the_end finished_stream _ 0).
    + reflexivity.
    + reflexivity.
    + vm_compute. reflexivity.
  - intros c' out eff Hseek.
    apply (proj2 (eof_until_restart example_parse example_globals)
                 answers_ok finished_stream c' 0 SEEK_SET out eff).
    + reflexivity.
    + exact Hseek.
    + split; [reflexivity|]. split; [|reflexivity].
      exists 0. vm_compute.
      split; [reflexivity|]. split; [discriminate|]. split; discriminate.
Defined.

(** The same seek when curl_easy_init() returns NULL: the seek fails, the
    offset has moved to 0, and the stream is still at its end. *)
Example seek_without_handle_keeps_eof :
  match input_curl_seek example_globals answers_no_handle finished_stream
                        0 SEEK_SET with
  | Ok (out, c', _) =>
      (exists e, out = SeekReturn false (Some e))
      /\ offset (base c') = 0
      /\ input_curl_eof c' = true
  | _ => False
  end.
Proof.
  vm_compute. split; [eexists; reflexivity|]. split; reflexivity.
Qed.

(** ** Reading: what the loops change *)

Lemma Consume_size (b b' : CurlInputBuffer) (len : Z) (more : bool) :
  CurlInputBuffer.Consume b len = Ok (more, b') ->
  CurlInputBuffer.size b' = CurlInputBuffer.size b.
Proof.
  unfold CurlInputBuffer.Consume, assert.
  destruct (CurlInputBuffer.consumed b <? CurlInputBuffer.size b);
    cbn; [|discriminate].
  destruct (size_t (CurlInputBuffer.consumed b + len) <? CurlInputBuffer.size b).
  - intros [= _ <-]. reflexivity.
  - destruct (size_t (CurlInputBuffer.consumed b + len) =? CurlInputBuffer.size b);
      cbn; [|discriminate].
    intros [= _ <-]. reflexivity.
Qed.

Lemma Read_size (b b' : CurlInputBuffer) (len : Z) (more : bool) (d : list byte) :
  CurlInputBuffer.Read b len = Ok (d, more, b') ->
  CurlInputBuffer.size b' = CurlInputBuffer.size b.
Proof.
  unfold CurlInputBuffer.Read, assert.
  destruct (size_t (CurlInputBuffer.consumed b + len) <=? CurlInputBuffer.size b);
    cbn; [|discriminate].
  destruct (CurlInputBuffer.Consume b len) as [[m b1]| |] eqn:E; cbn;
    try discriminate.
  intros [= _ _ <-]. eapply Consume_size; eassumption.
Qed.

Lemma shrunk_refl (bufs : list CurlInputBuffer) : shrunk bufs bufs.
Proof. exists []. reflexivity. Qed.

Lemma shrunk_trans (a b c : list CurlInputBuffer) :
  shrunk a b -> shrunk b c -> shrunk a c.
Proof.
  intros [d1 H1] [d2 H2]. exists (d2 ++ d1)%list.
  rewrite H2, H1. apply app_assoc.
Qed.

Lemma shrunk_pop (b : CurlInputBuffer) (rest : list CurlInputBuffer) :
  shrunk rest (b :: rest).
Proof. exists [CurlInputBuffer.size b]. reflexivity. Qed.

Lemma shrunk_front (b b' : CurlInputBuffer) (rest : list CurlInputBuffer) :
  CurlInputBuffer.size b' = CurlInputBuffer.size b ->
  shrunk (b' :: rest) (b :: rest).
Proof. intros H. exists []. cbn. rewrite H. reflexivity. Qed.

Lemma shrunk_nil (bufs : list CurlInputBuffer) : shrunk [] bufs.
Proof. exists (map CurlInputBuffer.size bufs). cbn. now rewrite app_nil_r. Qed.

Section ReadingFacts.

Variable icy_parse_tag : list byte -> option struct_tag.

Lemma read_from_buffer_loop_spec (fuel : nat) :
  forall icy buffer rest length nbytes dest icy' bufs' n d,
    read_from_buffer_loop icy_parse_tag fuel icy buffer rest length nbytes dest
    = Ok (icy', bufs', n, d) ->
    0 <= nbytes ->
    0 <= n /\ shrunk bufs' (buffer :: rest).
Proof.
  induction fuel as [|fuel IH]; intros icy buffer rest length nbytes dest
                                       icy' bufs' n d H Hn.
  - discriminate H.
  - cbn [read_from_buffer_loop] in H. cbv zeta in H.
    destruct (IcyMetaDataParser.Data icy length) as [chunk icy1].
    destruct (0 <? chunk).
    + destruct (CurlInputBuffer.Read buffer chunk) as [[[bytes more] buffer1]| |] eqn:HR;
        cbn [bind] in H; try discriminate H.
      apply Read_size in HR.
      pose proof (size_t_range (nbytes + chunk)) as Hrange.
      destruct more; cbn [negb] in H.
      2:{ injection H as <- <- <- <-. split; [lia | apply shrunk_pop]. }
      destruct (size_t (length - chunk) =? 0).
      { injection H as <- <- <- <-. split; [lia | now apply shrunk_front]. }
      destruct (IcyMetaDataParser.Meta icy_parse_tag icy1
                  (CurlInputBuffer.Begin buffer1) (size_t (length - chunk)))
        as [chunk2 icy2].
      destruct (0 <? chunk2).
      * destruct (CurlInputBuffer.Consume buffer1 chunk2) as [[more2 buffer2]| |] eqn:HC;
          cbn [bind] in H; try discriminate H.
        apply Consume_size in HC.
        destruct more2; cbn [negb] in H.
        2:{ injection H as <- <- <- <-. split; [lia | apply shrunk_pop]. }
        destruct (size_t (size_t (length - chunk) - chunk2) =? 0).
        { injection H as <- <- <- <-.
          split; [lia | apply shrunk_front; congruence]. }
        apply IH in H; [|lia]. destruct H as [H1 H2]. split; [exact H1|].
        eapply shrunk_trans; [exact H2 | apply shrunk_front; congruence].
      * apply IH in H; [|lia]. destruct H as [H1 H2]. split; [exact H1|].
        eapply shrunk_trans; [exact H2 | now apply shrunk_front].
    + destruct (IcyMetaDataParser.Meta icy_parse_tag icy1
                  (CurlInputBuffer.Begin buffer) length) as [chunk2 icy2].
      destruct (0 <? chunk2).
      * destruct (CurlInputBuffer.Consume buffer chunk2) as [[more2 buffer2]| |] eqn:HC;
          cbn [bind] in H; try discriminate H.
        apply Consume_size in HC.
        destruct more2; cbn [negb] in H.
        2:{ injection H as <- <- <- <-. split; [lia | apply shrunk_pop]. }
        destruct (size_t (length - chunk2) =? 0).
        { injection H as <- <- <- <-. split; [lia | now apply shrunk_front]. }
        apply IH in H; [|lia]. destruct H as [H1 H2]. split; [exact H1|].
        eapply shrunk_trans; [exact H2 | now apply shrunk_front].
      * apply IH in H; [|lia]. exact H.
Qed.

Lemma read_from_buffer_spec icy bufs length icy' bufs' n d :
  read_from_buffer icy_parse_tag icy bufs length = Ok (icy', bufs', n, d) ->
  0 <= n /\ shrunk bufs' bufs.
Proof.
  unfold read_from_buffer. destruct bufs as [|buffer rest]; [discriminate|].
  intros H. apply read_from_buffer_loop_spec in H; [exact H | lia].
Qed.

End ReadingFacts.

Section ReadFrame.

Variable icy_parse_tag : list byte -> option struct_tag.

(** The inner loop of input_curl_read() touches the buffers and the parser;
    it ends when nothing more is wanted or nothing more is buffered. *)
Lemma send_buffer_contents_spec (fuel : nat) :
  forall c size_ nbytes dest c' size' n d,
    send_buffer_contents icy_parse_tag fuel c size_ nbytes dest
    = Ok (c', size', n, d) ->
    0 <= nbytes ->
    0 <= n
    /\ base c' = base c /\ easy c' = easy c /\ paused c' = paused c
    /\ postponed_error c' = postponed_error c
    /\ shrunk (buffers c') (buffers c)
    /\ ((0 <? size') && negb (is_empty (buffers c')) = false).
Proof.
  induction fuel as [|fuel IH]; intros c size_ nbytes dest c' size' n d H Hn;
    cbn [send_buffer_contents] in H;
    destruct ((0 <? size_) && negb (is_empty (buffers c))) eqn:Hcond;
    try discriminate H;
    try (injection H as <- <- <- <-;
         repeat split; auto using shrunk_refl).
  destruct (read_from_buffer icy_parse_tag (icy c) (buffers c) size_)
    as [[[[icy1 bufs1] copy] bytes]| |] eqn:HR; cbn [bind] in H;
    try discriminate H.
  apply read_from_buffer_spec in HR as [Hcopy Hshr].
  pose proof (size_t_range (nbytes + copy)) as Hrange.
  apply IH in H; [|lia].
  destruct H as (H1 & H2 & H3 & H4 & H5 & H6 & H7).
  cbn in H2, H3, H4, H5, H6.
  repeat split; auto.
  eapply shrunk_trans; eassumption.
Qed.

Lemma fill_buffer_spec (c c1 : input_curl) (out : fill_outcome) :
  fill_buffer c = (out, c1) ->
  base c1 = base c /\ easy c1 = easy c /\ paused c1 = paused c
  /\ buffers c1 = buffers c /\ icy c1 = icy c
  /\ (forall e, out = FillReturn true e -> c1 = c /\ is_empty (buffers c) = false).
Proof.
  unfold fill_buffer.
  destruct (negb (is_null (easy c)) && is_empty (buffers c)).
  - intros [= <- <-]. repeat split; auto; discriminate.
  - destruct (postponed_error c).
    + intros [= <- <-]. repeat split; auto; discriminate.
    + intros [= <- <-]. repeat split; auto.
      injection H as H _. now apply negb_true_iff in H.
Qed.

Lemma send_buffer_contents_bound (fuel : nat) :
  forall c size_ nbytes dest c' size' n d,
    send_buffer_contents icy_parse_tag fuel c size_ nbytes dest
    = Ok (c', size', n, d) ->
    0 <= nbytes < SIZE_MODULUS -> n < SIZE_MODULUS.
Proof.
  induction fuel as [|fuel IH]; intros c size_ nbytes dest c' size' n d H Hn;
    cbn [send_buffer_contents] in H;
    destruct ((0 <? size_) && negb (is_empty (buffers c)));
    try discriminate H; try (injection H as _ _ <- _; lia).
  destruct (read_from_buffer icy_parse_tag (icy c) (buffers c) size_)
    as [[[[icy1 bufs1] copy] bytes]| |]; cbn [bind] in H;
    try discriminate H.
  eapply IH; [exact H|]. apply size_t_range.
Qed.

(** The outer loop of input_curl_read(): a result [ReadBytes n] has
    n > 0; the stream's base fields, handle and pause flag are as before
    and the buffers have only shrunk. *)
Lemma read_loop_spec (fuel : nat) :
  forall c size_ out c',
    read_loop icy_parse_tag fuel c size_ = Ok (out, c') ->
    base c' = base c /\ easy c' = easy c /\ paused c' = paused c
    /\ shrunk (buffers c') (buffers c)
    /\ (forall n d, out = ReadBytes n d -> 0 < n < SIZE_MODULUS).
Proof.
  induction fuel as [|fuel IH]; intros c size_ out c' H; [discriminate H|].
  cbn [read_loop] in H.
  destruct (fill_buffer c) as [fo c1] eqn:Hfill.
  apply fill_buffer_spec in Hfill as (F1 & F2 & F3 & F4 & F5 & _).
  destruct fo as [|[|] err].
  - injection H as <- <-. rewrite F4.
    refine (conj F1 (conj F2 (conj F3 (conj (shrunk_refl _) _)))).
    intros n d Hn. discriminate Hn.
  - destruct (send_buffer_contents icy_parse_tag _ c1 size_ 0 [])
      as [[[[c2 size2] nbytes] dest]| |] eqn:Hsend; cbn [bind] in H;
      try discriminate H.
    pose proof (send_buffer_contents_bound _ _ _ _ _ _ _ _ _ Hsend) as Hbound.
    apply send_buffer_contents_spec in Hsend as (S1 & S2 & S3 & S4 & S5 & S6 & S7);
      [|lia].
    rewrite F4 in S6.
    destruct (nbytes =? 0) eqn:Hz.
    + apply IH in H as (R1 & R2 & R3 & R4 & R5).
      refine (conj _ (conj _ (conj _ (conj _ R5)))); try congruence.
      eapply shrunk_trans; [exact R4 | exact S6].
    + injection H as <- <-. apply Z.eqb_neq in Hz.
      refine (conj _ (conj _ (conj _ (conj S6 _)))); try congruence.
      intros n d [= <- _]. unfold SIZE_MODULUS in *. lia.
  - injection H as <- <-. rewrite F4.
    refine (conj F1 (conj F2 (conj F3 (conj (shrunk_refl _) _)))).
    intros n d Hn. discriminate Hn.
Qed.

End ReadFrame.

Lemma copy_icy_tag_keeps (c : input_curl) :
  base (copy_icy_tag c) = base c /\ easy (copy_icy_tag c) = easy c
  /\ buffers (copy_icy_tag c) = buffers c /\ paused (copy_icy_tag c) = paused c.
Proof.
  unfold copy_icy_tag. cbn.
  destruct (IcyMetaDataParser.tag (icy c)); cbn; auto.
Qed.

Lemma curl_total_buffer_size_buffers (c c' : input_curl) :
  buffers c' = buffers c -> curl_total_buffer_size c' = curl_total_buffer_size c.
Proof. unfold curl_total_buffer_size. now intros ->. Qed.

Lemma input_curl_resume_keeps (c : input_curl) :
  base (input_curl_resume c) = base c /\ easy (input_curl_resume c) = easy c
  /\ buffers (input_curl_resume c) = buffers c
  /\ paused (input_curl_resume c) = false.
Proof.
  unfold input_curl_resume. destruct (paused c) eqn:E; cbn; auto.
Qed.

(** input_curl_read(): the offset moves by the returned count and by
    nothing else; a call to the I/O thread is the resume, made with less
    than CURL_RESUME_AT buffered. *)
Lemma input_curl_read_spec
      (icy_parse_tag : list byte -> option struct_tag)
      (c c' : input_curl) (size_ : Z) (out : read_outcome) (eff : list effect) :
  input_curl_read icy_parse_tag c size_ = Ok (out, c', eff) ->
  easy c' = easy c
  /\ shrunk (buffers c') (buffers c)
  /\ match out with
     | ReadBytes n _ =>
         0 < n < SIZE_MODULUS
         /\ base c' = set_offset (goffset_of (offset (base c) + goffset_of n)) (base c)
     | _ => base c' = base c /\ eff = []
     end
  /\ (eff = [] /\ paused c' = paused c
      \/ eff = [Io_thread_call IO_resume] /\ paused c = true /\ paused c' = false
         /\ curl_total_buffer_size c' < CURL_RESUME_AT).
Proof.
  unfold input_curl_read. intros H.
  destruct (read_loop icy_parse_tag 2 c size_) as [[out1 c1]| |] eqn:Hloop;
    cbn [bind] in H; try discriminate H.
  apply read_loop_spec in Hloop as (R1 & R2 & R3 & R4 & R5).
  destruct out1 as [n d|err|].
  2,3: injection H as <- <- <-;
       refine (conj R2 (conj R4 (conj (conj R1 eq_refl) _))); left; auto.
  specialize (R5 n d eq_refl).
  set (c2 := if IcyMetaDataParser.IsDefined (icy c1) then copy_icy_tag c1 else c1) in H.
  assert (K : base c2 = base c1 /\ easy c2 = easy c1
              /\ buffers c2 = buffers c1 /\ paused c2 = paused c1).
  { unfold c2. destruct (IcyMetaDataParser.IsDefined (icy c1));
      [apply copy_icy_tag_keeps | auto]. }
  destruct K as (K1 & K2 & K3 & K4).
  set (c3 := with_base (set_offset (goffset_of (offset (base c2) + goffset_of n))) c2) in H.
  assert (B3 : base c3
               = set_offset (goffset_of (offset (base c) + goffset_of n)) (base c)).
  { unfold c3. cbn. rewrite K1, R1. reflexivity. }
  destruct (paused c3 && (curl_total_buffer_size c3 <? CURL_RESUME_AT)) eqn:Hres;
    injection H as <- <- <-.
  - apply andb_true_iff in Hres as [Hp Hlt]. apply Z.ltb_lt in Hlt.
    destruct (input_curl_resume_keeps c3) as (Q1 & Q2 & Q3 & Q4).
    refine (conj _ (conj _ (conj (conj R5 _) _))).
    + rewrite Q2. cbn. congruence.
    + rewrite Q3. cbn. rewrite K3. exact R4.
    + rewrite Q1. exact B3.
    + right. repeat split; auto.
      * cbn in Hp. congruence.
      * rewrite (curl_total_buffer_size_buffers c3 _ Q3). exact Hlt.
  - refine (conj _ (conj _ (conj (conj R5 B3) _))).
    + cbn. congruence.
    + cbn. rewrite K3. exact R4.
    + left. split; [reflexivity|]. cbn. congruence.
Qed.

(** ** Seek: what it does to the buffers *)

Lemma seek_fast_forward_shrunk (fuel : nat) (t : Z) (c c1 : input_curl) :
  seek_fast_forward fuel c t = Ok c1 -> shrunk (buffers c1) (buffers c).
Proof.
  revert c. induction fuel as [|fuel IH]; intros c; cbn [seek_fast_forward].
  - destruct (buffers c) eqn:Hb;
      [intros [= <-]; rewrite Hb; apply shrunk_refl|].
    destruct (offset (base c) <? t); [discriminate|].
    intros [= <-]; rewrite Hb; apply shrunk_refl.
  - destruct (buffers c) as [|buffer rest] eqn:Hb;
      [intros [= <-]; rewrite Hb; apply shrunk_refl|].
    destruct (offset (base c) <? t);
      [|intros [= <-]; rewrite Hb; apply shrunk_refl].
    destruct (CurlInputBuffer.Consume buffer _) as [[more buffer']| |] eqn:HC;
      cbn [bind]; try discriminate.
    apply Consume_size in HC.
    intros H. apply IH in H. cbn in H.
    eapply shrunk_trans; [exact H|].
    destruct more; [now apply shrunk_front | apply shrunk_pop].
Qed.

Lemma seek_new_connection_buffers
      (G : curl_globals) (ans : curl_answers) (c c' : input_curl) (t : Z)
      (out : seek_outcome) (eff : list effect) :
  seek_new_connection G ans c t = Ok (out, c', eff) -> buffers c' = [].
Proof.
  unfold seek_new_connection, input_curl_easy_free_indirect.
  rewrite input_curl_easy_free_null. cbn [assert bind].
  set (c2 := with_base (set_offset t) (set_buffers [] (input_curl_easy_free c))).
  destruct (offset (base c2) =? size (base c2)); [intros [= _ <- _]; reflexivity|].
  destruct (input_curl_easy_init G ans c2) as [[ok err] c3] eqn:Hinit.
  apply input_curl_easy_init_keeps in Hinit as (_ & Hb & _).
  destruct ok; [|intros [= _ <- _]; exact Hb].
  set (c4 := if 0 <? offset (base c3) then _ else c3).
  assert (Hb4 : buffers c4 = []).
  { unfold c4. destruct (0 <? offset (base c3)); [|exact Hb].
    rewrite (proj1 (proj2 (set_opt_range_keeps _ _))). exact Hb. }
  unfold input_curl_easy_add_indirect, assert.
  destruct (negb (is_null (easy (with_base (set_ready false) c4))));
    cbn [bind]; [|discriminate].
  destruct (negb (curl_multi_add_handle ans =? CURLM_OK)); cbn [negb].
  - intros [= _ <- _]. exact Hb4.
  - unfold input_curl_seek_wait. cbn.
    intros [= _ <- _]. exact Hb4.
Qed.

Lemma input_curl_seek_shrunk
      (G : curl_globals) (ans : curl_answers) (c c' : input_curl)
      (offset_ whence : Z) (out : seek_outcome) (eff : list effect) :
  input_curl_seek G ans c offset_ whence = Ok (out, c', eff) ->
  shrunk (buffers c') (buffers c).
Proof.
  unfold input_curl_seek, assert.
  destruct (ready (base c)); cbn [bind]; [|discriminate].
  destruct ((whence =? SEEK_SET) && (offset_ =? offset (base c)));
    [intros [= _ <- _]; apply shrunk_refl|].
  destruct (negb (seekable (base c))); [intros [= _ <- _]; apply shrunk_refl|].
  match goal with
  | |- context [match ?x with Some _ => _ | None => _ end] => destruct x as [t|]
  end; [|intros [= _ <- _]; apply shrunk_refl].
  destruct (t <? 0); [intros [= _ <- _]; apply shrunk_refl|].
  destruct (seek_fast_forward _ c t) as [c1| |] eqn:Hff; cbn [bind];
    try discriminate.
  apply seek_fast_forward_shrunk in Hff.
  destruct (t =? offset (base c1)); [intros [= _ <- _]; exact Hff|].
  intros H. apply seek_new_connection_buffers in H. rewrite H. apply shrunk_nil.
Qed.

(** ** What the other actions leave alone *)

Lemma headerfunction_keeps (c : input_curl) (ptr : string) (size_ nmemb : Z) :
  let c' := snd (input_curl_headerfunction c ptr size_ nmemb) in
  offset (base c') = offset (base c) /\ buffers c' = buffers c
  /\ easy c' = easy c /\ paused c' = paused c.
Proof.
  cbv zeta. unfold input_curl_headerfunction, input_curl_headerfunction_writes.
  destruct (memchr ptr ":" (Z.to_nat (size_t (size_ * nmemb)))) as [colon|];
    [|cbn; auto].
  repeat split_if; cbn; auto.
Qed.

Lemma handle_done_keeps (c c' : input_curl) (result status : Z) :
  input_curl_handle_done c result status = Ok c' ->
  offset (base c') = offset (base c) /\ buffers c' = buffers c /\ easy c' = None
  /\ paused c' = paused c.
Proof.
  unfold input_curl_handle_done, input_curl_request_done, assert.
  destruct (negb (is_null (easy c))) eqn:He; cbn [bind]; [|discriminate].
  rewrite input_curl_easy_free_null. cbn [is_null bind].
  destruct (is_null (postponed_error (input_curl_easy_free c)));
    cbn [bind]; [|discriminate].
  intros [= <-].
  assert (K : paused (input_curl_easy_free c) = paused c)
    by (unfold input_curl_easy_free; destruct (easy c); reflexivity).
  repeat split_if; cbn;
    rewrite ?input_curl_easy_free_base, ?input_curl_easy_free_buffers,
      ?input_curl_easy_free_null; auto.
Qed.

Lemma abort_request_keeps (c c' : input_curl) (err : GError) :
  input_curl_abort_request c err = Ok c' ->
  offset (base c') = offset (base c) /\ buffers c' = buffers c /\ easy c' = None
  /\ paused c' = paused c.
Proof.
  unfold input_curl_abort_request, assert.
  destruct (is_null (postponed_error c)); cbn [bind]; [|discriminate].
  intros [= <-]. cbn.
  rewrite input_curl_easy_free_base, input_curl_easy_free_buffers,
    input_curl_easy_free_null.
  repeat split; auto.
  unfold input_curl_easy_free; destruct (easy c); reflexivity.
Qed.

Lemma seek_wait_keeps (c : input_curl) :
  base (snd (input_curl_seek_wait c)) = base c
  /\ buffers (snd (input_curl_seek_wait c)) = buffers c
  /\ easy (snd (input_curl_seek_wait c)) = easy c.
Proof.
  unfold input_curl_seek_wait.
  destruct (negb (ready (base c))); [cbn; auto|].
  destruct (postponed_error c); cbn; auto.
Qed.

Lemma check_keeps (c : input_curl) :
  base (snd (input_curl_check c)) = base c
  /\ buffers (snd (input_curl_check c)) = buffers c
  /\ easy (snd (input_curl_check c)) = easy c.
Proof.
  unfold input_curl_check.
  destruct (negb (is_null (postponed_error c))); cbn; auto.
Qed.

(** ** The buffered total *)

Lemma sum_sizes_app (a b : list CurlInputBuffer) :
  sum_sizes (a ++ b) = sum_sizes a + sum_sizes b.
Proof.
  unfold sum_sizes. induction a as [|x a IH]; cbn; [reflexivity|].
  rewrite IH. lia.
Qed.

Lemma sum_sizes_nonneg (bufs : list CurlInputBuffer) :
  Forall (fun b => 0 < CurlInputBuffer.size b) bufs -> 0 <= sum_sizes bufs.
Proof.
  unfold sum_sizes. induction 1 as [|b bufs Hb _ IH]; cbn; lia.
Qed.

(** As long as the sum fits [size_t], curl_total_buffer_size() computes
    it. *)
Lemma fold_total_sizes (bufs : list CurlInputBuffer) :
  Forall (fun b => 0 < CurlInputBuffer.size b) bufs ->
  forall acc,
    0 <= acc -> acc + sum_sizes bufs < SIZE_MODULUS ->
    fold_left (fun total i => size_t (total + CurlInputBuffer.TotalSize i)) bufs acc
    = acc + sum_sizes bufs.
Proof.
  induction 1 as [|b bufs Hb Hall IH]; intros acc Hacc Hsum.
  - cbn. lia.
  - pose proof (sum_sizes_nonneg bufs Hall) as Hnn.
    change (sum_sizes (b :: bufs))
      with (CurlInputBuffer.size b + sum_sizes bufs) in *.
    cbn [fold_left]. unfold CurlInputBuffer.TotalSize at 2.
    rewrite size_t_small by lia.
    rewrite IH by lia. lia.
Qed.

Lemma curl_total_buffer_size_sum (c : input_curl) :
  buffered_ok (buffers c) -> curl_total_buffer_size c = sum_sizes (buffers c).
Proof.
  intros [Hall Hsum]. unfold curl_total_buffer_size.
  rewrite fold_total_sizes; auto; try lia.
  unfold CURL_MAX_BUFFERED, SIZE_MODULUS in *. lia.
Qed.

Lemma Forall_map_size (bufs : list CurlInputBuffer) :
  Forall (fun b => 0 < CurlInputBuffer.size b) bufs
  <-> Forall (fun z => 0 < z) (map CurlInputBuffer.size bufs).
Proof. symmetry. apply Forall_map. Qed.

Lemma sum_sizes_map (bufs : list CurlInputBuffer) :
  sum_sizes bufs = fold_right Z.add 0 (map CurlInputBuffer.size bufs).
Proof. induction bufs as [|b bufs IH]; cbn; [reflexivity|]. now rewrite <- IH. Qed.

Lemma fold_add_app (a b : list Z) :
  fold_right Z.add 0 (a ++ b) = fold_right Z.add 0 a + fold_right Z.add 0 b.
Proof. induction a as [|x a IH]; cbn; lia. Qed.

Lemma fold_add_nonneg (a : list Z) :
  Forall (fun z => 0 < z) a -> 0 <= fold_right Z.add 0 a.
Proof. induction 1; cbn; lia. Qed.

(** Dropping buffers from the front keeps the bound. *)
Lemma buffered_ok_shrunk (bufs bufs' : list CurlInputBuffer) :
  buffered_ok bufs -> shrunk bufs' bufs -> buffered_ok bufs'.
Proof.
  intros [Hall Hsum] [dropped Hd].
  rewrite Forall_map_size in Hall. rewrite sum_sizes_map in Hsum.
  rewrite Hd in Hall, Hsum. apply Forall_app in Hall as [Hdrop Hkeep].
  rewrite fold_add_app in Hsum.
  pose proof (fold_add_nonneg _ Hdrop).
  split; [now apply Forall_map_size | rewrite sum_sizes_map; lia].
Qed.

(** The write callback keeps the bound: it appends only what still fits. *)
Lemma writefunction_buffered_ok
      (c : input_curl) (ptr : list byte) (size_ nmemb : Z) :
  buffered_ok (buffers c) ->
  wf_event (EvWrite ptr size_ nmemb) ->
  buffered_ok (buffers (snd (input_curl_writefunction c ptr size_ nmemb))).
Proof.
  intros Hok (Hs & Hn & Hlen & Hmax).
  unfold input_curl_writefunction.
  assert (Hsz : size_t (size_ * nmemb) = size_ * nmemb).
  { apply size_t_small. unfold G_MAXINT64, SIZE_MODULUS in *. nia. }
  rewrite Hsz.
  destruct (size_ * nmemb =? 0) eqn:Hz; [exact Hok|].
  apply Z.eqb_neq in Hz.
  rewrite (curl_total_buffer_size_sum c Hok).
  destruct Hok as [Hall Hsum].
  pose proof (sum_sizes_nonneg _ Hall) as Hnn.
  rewrite size_t_small
    by (unfold G_MAXINT64, SIZE_MODULUS, CURL_MAX_BUFFERED in *; nia).
  destruct (CURL_MAX_BUFFERED <=? sum_sizes (buffers c) + size_ * nmemb) eqn:Hfull.
  - cbn. split; assumption.
  - apply Z.leb_gt in Hfull. cbn. split.
    + apply Forall_app. split; [exact Hall|].
      constructor; [cbn; nia | constructor].
    + rewrite sum_sizes_app. unfold sum_sizes at 2.
      cbn [fold_right CurlInputBuffer.size CurlInputBuffer.make].
      unfold CURL_MAX_BUFFERED in *. lia.
Qed.

Section TraceInvariants.

Variable icy_parse_tag : list byte -> option struct_tag.
Variable G : curl_globals.

(** Every action keeps the bound on the buffered total. *)
Lemma step_buffered_ok (c c1 : input_curl) (e : event) (n : Z) :
  buffered_ok (buffers c) ->
  wf_event e ->
  step icy_parse_tag G c e = Ok (c1, n) ->
  buffered_ok (buffers c1).
Proof.
  intros Hok Hwf Hstep. destruct e; cbn [step] in Hstep.
  - destruct (input_curl_read icy_parse_tag c size0) as [[[out c2] eff]| |] eqn:Hr;
      cbv beta iota delta [bind] in Hstep; try discriminate Hstep.
    apply input_curl_read_spec in Hr as (_ & Hshr & _).
    injection Hstep as <- _. eapply buffered_ok_shrunk; eassumption.
  - destruct (input_curl_seek G ans c offset_ whence) as [[[out c2] eff]| |] eqn:Hs;
      cbn [bind] in Hstep; try discriminate Hstep.
    injection Hstep as <- _.
    apply input_curl_seek_shrunk in Hs. eapply buffered_ok_shrunk; eassumption.
  - injection Hstep as <- _.
    rewrite (proj1 (proj2 (seek_wait_keeps c))). exact Hok.
  - injection Hstep as <- _.
    rewrite (proj1 (proj2 (check_keeps c))). exact Hok.
  - injection Hstep as <- _. exact Hok.
  - unfold assert in Hstep. destruct (negb (is_null (easy c)));
      cbn [bind] in Hstep; [|discriminate Hstep].
    injection Hstep as <- _.
    rewrite (proj1 (proj2 (headerfunction_keeps c ptr size0 nmemb))). exact Hok.
  - unfold assert in Hstep. destruct (negb (is_null (easy c)));
      cbn [bind] in Hstep; [|discriminate Hstep].
    injection Hstep as <- _. now apply writefunction_buffered_ok.
  - destruct (input_curl_handle_done (set_error error_text c) result status)
      as [c2| |] eqn:Hd; cbn [bind] in Hstep; try discriminate Hstep.
    injection Hstep as <- _.
    apply handle_done_keeps in Hd as (_ & Hb & _). rewrite Hb. exact Hok.
  - unfold assert in Hstep. destruct (negb (is_null (easy c)));
      cbn [bind] in Hstep; [|discriminate Hstep].
    destruct (input_curl_abort_request c err) as [c2| |] eqn:Ha;
      cbn [bind] in Hstep; try discriminate Hstep.
    injection Hstep as <- _.
    apply abort_request_keeps in Ha as (_ & Hb & _). rewrite Hb. exact Hok.
Qed.

Lemma run_buffered_ok (tr : list event) :
  forall c c' n,
    buffered_ok (buffers c) ->
    Forall wf_event tr ->
    run icy_parse_tag G c tr = Ok (c', n) ->
    buffered_ok (buffers c').
Proof.
  induction tr as [|e tr IH]; intros c c' n Hok Hwf Hrun.
  - injection Hrun as <- _. exact Hok.
  - cbn [run] in Hrun. inversion Hwf as [|? ? He Htr]; subst.
    destruct (step icy_parse_tag G c e) as [[c1 k]| |] eqn:Hstep;
      cbn [bind] in Hrun; try discriminate Hrun.
    destruct (run icy_parse_tag G c1 tr) as [[c2 m]| |] eqn:Hrun';
      cbn [bind] in Hrun; try discriminate Hrun.
    injection Hrun as <- _.
    eapply IH; [|exact Htr|exact Hrun'].
    eapply step_buffered_ok; eassumption.
Qed.

End TraceInvariants.

(** C3: over every interleaving of write callbacks, reads and the other
    actions on a stream, the sum of the sizes of the buffered chunks stays
    below CURL_MAX_BUFFERED, and so never exceeds CURL_MAX_BUFFERED plus
    the size of one incoming write; curl_total_buffer_size() computes
    that sum. *)
Theorem buffered_total_bounded
        (icy_parse_tag : list byte -> option struct_tag) (G : curl_globals)
        (tr : list event) (c c' : input_curl) (n : Z) :
  buffered_ok (buffers c) ->
  Forall wf_event tr ->
  run icy_parse_tag G c tr = Ok (c', n) ->
  sum_sizes (buffers c') < CURL_MAX_BUFFERED
  /\ curl_total_buffer_size c' = sum_sizes (buffers c')
  /\ forall ptr size_ nmemb,
      wf_event (EvWrite ptr size_ nmemb) ->
      sum_sizes (buffers c') <= CURL_MAX_BUFFERED + size_ * nmemb.
Proof.
  intros Hok Hwf Hrun.
  pose proof (run_buffered_ok icy_parse_tag G tr c c' n Hok Hwf Hrun) as Hok'.
  split; [exact (proj2 Hok')|].
  split; [now apply curl_total_buffer_size_sum|].
  intros ptr size_ nmemb (Hs & Hn & _). destruct Hok' as [_ Hsum]. nia.
Qed.

Lemma wf_event_write_of (l : list byte) :
  Z.of_nat (List.length l) <= G_MAXINT64 -> wf_event (write_of l).
Proof. intros H. unfold write_of, wf_event. repeat split; lia. Qed.

Lemma backpressure_wf : Forall wf_event backpressure.
Proof.
  unfold backpressure. apply Forall_app. split.
  - apply Forall_forall. intros e He. apply repeat_spec in He. subst e.
    apply wf_event_write_of. vm_compute. discriminate.
  - repeat constructor; vm_compute; discriminate.
Defined.

Lemma buffered_total_bounded_witness :
  sum_sizes (buffers (state_after example_stream backpressure)) < CURL_MAX_BUFFERED
  /\ curl_total_buffer_size (state_after example_stream backpressure)
     = sum_sizes (buffers (state_after example_stream backpressure))
  /\ forall ptr size_ nmemb,
      wf_event (EvWrite ptr size_ nmemb) ->
      sum_sizes (buffers (state_after example_stream backpressure))
      <= CURL_MAX_BUFFERED + size_ * nmemb.
Proof.
  assert (Hrun : is_ok (run example_parse example_globals example_stream
                            backpressure) = true)
    by (vm_compute; reflexivity).
  unfold state_after.
  destruct (run example_parse example_globals example_stream backpressure)
    as [[c' n]| |] eqn:E; try discriminate Hrun.
  apply (buffered_total_bounded example_parse example_globals backpressure
                                example_stream c' n).
  - split; [constructor | vm_compute; reflexivity].
  - exact backpressure_wf.
  - exact E.
Defined.

(** ** Pause and resume *)


Lemma fold_total_range (bufs : list CurlInputBuffer) (acc : Z) :
  0 <= acc < SIZE_MODULUS ->
  0 <= fold_left (fun total i => size_t (total + CurlInputBuffer.TotalSize i))
                 bufs acc < SIZE_MODULUS.
Proof.
  revert acc. induction bufs as [|b bufs IH]; intros acc Hacc; cbn [fold_left].
  - exact Hacc.
  - apply IH. apply size_t_range.
Qed.

Lemma curl_total_buffer_size_range (c : input_curl) :
  0 <= curl_total_buffer_size c < SIZE_MODULUS.
Proof.
  unfold curl_total_buffer_size. apply fold_total_range.
  unfold SIZE_MODULUS. lia.
Qed.




(** The resume, on a concrete run: after the refused write, a read of
    128 KiB brings the total down to 376832 bytes, and the read resumes
    the transfer. *)
Example resume_after_draining :
  match input_curl_read
          example_parse
          (snd (input_curl_writefunction nearly_full chunk16k 1 16384)) 131072
  with
  | Ok (out, c', eff) =>
      eff = [Io_thread_call IO_resume]
      /\ read_return out = 131072
      /\ paused c' = false
      /\ curl_total_buffer_size c' = 376832
  | _ => False
  end.
Proof. vm_compute. repeat split; reflexivity. Qed.

(** ** The offset and what the reads returned *)

Section Offsets.

Variable icy_parse_tag : list byte -> option struct_tag.
Variable G : curl_globals.

Lemma step_return_range (c c1 : input_curl) (e : event) (n : Z) :
  step icy_parse_tag G c e = Ok (c1, n) -> 0 <= n < SIZE_MODULUS.
Proof.
  assert (Z0 : 0 <= 0 < SIZE_MODULUS) by (unfold SIZE_MODULUS; lia).
  destruct e; cbn [step]; intros Hstep;
    try (unfold assert in Hstep; destruct (negb (is_null (easy c)));
         cbn [bind] in Hstep; [|discriminate Hstep]);
    try (injection Hstep as _ <-; exact Z0).
  - destruct (input_curl_read icy_parse_tag c size0) as [[[out c2] eff]| |] eqn:Hr;
      cbv beta iota delta [bind] in Hstep; try discriminate Hstep.
    injection Hstep as _ <-.
    apply input_curl_read_spec in Hr as (_ & _ & Hout & _).
    destruct out; cbn [read_return]; [lia | exact Z0 | exact Z0].
  - destruct (input_curl_seek G ans c offset_ whence) as [[[out c2] eff]| |];
      cbv beta iota delta [bind] in Hstep; try discriminate Hstep.
    injection Hstep as _ <-; exact Z0.
  - destruct (input_curl_handle_done _ result status) as [c2| |];
      cbn [bind] in Hstep; try discriminate Hstep.
    injection Hstep as _ <-; exact Z0.
  - destruct (input_curl_abort_request c err) as [c2| |];
      cbn [bind] in Hstep; try discriminate Hstep.
    injection Hstep as _ <-; exact Z0.
Qed.

(** One action other than a seek: the offset moves by what a read
    returned, in [goffset] arithmetic, and not at all otherwise. *)
Lemma step_offset (c c1 : input_curl) (e : event) (n : Z) :
  is_seek e = false ->
  step icy_parse_tag G c e = Ok (c1, n) ->
  offset (base c1) = goffset_of (offset (base c) + n)
  \/ (n = 0 /\ offset (base c1) = offset (base c)).
Proof.
  intros Hns Hstep. destruct e; try discriminate Hns; cbn [step] in Hstep;
    try (unfold assert in Hstep; destruct (negb (is_null (easy c)));
         cbn [bind] in Hstep; [|discriminate Hstep]).
  - destruct (input_curl_read icy_parse_tag c size0) as [[[out c2] eff]| |] eqn:Hr;
      cbv beta iota delta [bind] in Hstep; try discriminate Hstep.
    injection Hstep as <- <-.
    apply input_curl_read_spec in Hr as (_ & _ & Hout & _).
    destruct out as [nb d|err|]; cbn [read_return].
    + left. destruct Hout as [_ ->]. cbn. apply goffset_of_add_idem.
    + right. destruct Hout as [-> _]. auto.
    + right. destruct Hout as [-> _]. auto.
  - injection Hstep as <- <-. right.
    rewrite (proj1 (seek_wait_keeps c)). auto.
  - injection Hstep as <- <-. right.
    rewrite (proj1 (check_keeps c)). auto.
  - injection Hstep as <- <-. right. auto.
  - injection Hstep as <- <-. right.
    split; [reflexivity | apply headerfunction_keeps].
  - injection Hstep as <- <-. right. split; [reflexivity|].
    unfold input_curl_writefunction. repeat split_if; reflexivity.
  - destruct (input_curl_handle_done _ result status) as [c2| |] eqn:Hd;
      cbn [bind] in Hstep; try discriminate Hstep.
    injection Hstep as <- <-. right.
    apply handle_done_keeps in Hd as (Ho & _). auto.
  - destruct (input_curl_abort_request c err) as [c2| |] eqn:Ha;
      cbn [bind] in Hstep; try discriminate Hstep.
    injection Hstep as <- <-. right.
    apply abort_request_keeps in Ha as (Ho & _). auto.
Qed.

Lemma run_return_nonneg (tr : list event) :
  forall c c' total, run icy_parse_tag G c tr = Ok (c', total) -> 0 <= total.
Proof.
  induction tr as [|e tr IH]; intros c c' total Hrun.
  - injection Hrun as _ <-. lia.
  - cbn [run] in Hrun.
    destruct (step icy_parse_tag G c e) as [[c1 k]| |] eqn:Hstep;
      cbn [bind] in Hrun; try discriminate Hrun.
    destruct (run icy_parse_tag G c1 tr) as [[c2 m]| |] eqn:Hrun';
      cbn [bind] in Hrun; try discriminate Hrun.
    injection Hrun as _ <-.
    apply step_return_range in Hstep. apply IH in Hrun'. lia.
Qed.

End Offsets.

(** One successful read: the offset grows by exactly the returned number
    of bytes, as long as the sum is a [goffset]. *)
Lemma input_curl_read_offset
      (icy_parse_tag : list byte -> option struct_tag)
      (c c' : input_curl) (size_ nbytes : Z) (dest : list byte)
      (eff : list effect) :
  input_curl_read icy_parse_tag c size_ = Ok (ReadBytes nbytes dest, c', eff) ->
  G_MININT64 <= offset (base c) ->
  offset (base c) + nbytes <= G_MAXINT64 ->
  0 < nbytes /\ offset (base c') = offset (base c) + nbytes.
Proof.
  intros Hr Hlo Hhi.
  apply input_curl_read_spec in Hr as (_ & _ & [Hn ->] & _).
  split; [lia|]. cbn. rewrite goffset_of_add_idem.
  apply goffset_of_small. lia.
Qed.

(** On a stream on which no seek is performed nothing but the reads moves
    the offset: after any such trace it is the offset at the start plus
    the sum of what the reads returned.  (The offset is a [goffset]; the
    statement is for sums that fit it.) *)
Lemma read_sum_offset
        (icy_parse_tag : list byte -> option struct_tag) (G : curl_globals)
        (tr : list event) (c c' : input_curl) (total : Z) :
  no_seek tr = true ->
  run icy_parse_tag G c tr = Ok (c', total) ->
  G_MININT64 <= offset (base c) ->
  offset (base c) + total <= G_MAXINT64 ->
  offset (base c') = offset (base c) + total.
Proof.
  revert c total. induction tr as [|e tr IH]; intros c total Hns Hrun Hlo Hhi.
  - injection Hrun as <- <-. lia.
  - cbn [run] in Hrun. cbn in Hns. apply andb_true_iff in Hns as [He Hns].
    apply negb_true_iff in He.
    destruct (step icy_parse_tag G c e) as [[c1 k]| |] eqn:Hstep;
      cbn [bind] in Hrun; try discriminate Hrun.
    destruct (run icy_parse_tag G c1 tr) as [[c2 m]| |] eqn:Hrun';
      cbn [bind] in Hrun; try discriminate Hrun.
    injection Hrun as <- <-.
    pose proof (step_return_range _ _ _ _ _ _ Hstep) as Hk.
    pose proof (run_return_nonneg _ _ _ _ _ _ Hrun') as Hm.
    assert (Hoff : offset (base c1) = offset (base c) + k).
    { destruct (step_offset _ _ _ _ _ _ He Hstep) as [-> | [-> ->]]; [|lia].
      apply goffset_of_small. lia. }
    rewrite (IH c1 m Hns Hrun'); lia.
Qed.

Example plain_get_offset :
  offset (base (state_after example_stream plain_get))
  = offset (base example_stream) + 10.
Proof.
  apply (read_sum_offset example_parse example_globals plain_get
                            example_stream _ 10).
  - reflexivity.
  - vm_compute. reflexivity.
  - vm_compute. discriminate.
  - vm_compute. discriminate.
Qed.

(** ** The loops end: reading from well-formed buffers *)

Lemma Data_spec (p : IcyMetaDataParser.t) (limit : Z) :
  icy_wf p -> 0 < limit ->
  0 <= fst (IcyMetaDataParser.Data p limit) <= limit
  /\ icy_wf (snd (IcyMetaDataParser.Data p limit))
  /\ (fst (IcyMetaDataParser.Data p limit) < limit ->
      IcyMetaDataParser.IsDefined (snd (IcyMetaDataParser.Data p limit)) = true
      /\ at_meta (snd (IcyMetaDataParser.Data p limit))).
Proof.
  intros Hwf Hlim. unfold IcyMetaDataParser.Data.
  destruct (IcyMetaDataParser.IsDefined p) eqn:Hdef; cbn [negb fst snd].
  - specialize (Hwf Hdef). unfold icy_wf, at_meta.
    destruct (IcyMetaDataParser.state p) as [rest| |rest text] eqn:Hst;
      cbn [fst snd IcyMetaDataParser.state IcyMetaDataParser.IsDefined
           IcyMetaDataParser.stride].
    + destruct (rest - Z.min rest limit =? 0) eqn:Hz.
      * split; [lia|]. split; [auto|]. auto.
      * apply Z.eqb_neq in Hz. split; [lia|]. split; [intros _; lia|]. lia.
    + rewrite Hst. split; [lia|]. split; auto.
    + rewrite Hst. split; [lia|]. split; auto.
  - split; [lia|]. split; [exact Hwf|]. lia.
Qed.

Lemma meta_body_spec (parse : list byte -> option struct_tag)
      (p : IcyMetaDataParser.t) (rest : Z) (text buf : list byte) (limit : Z) :
  IcyMetaDataParser.IsDefined p = true -> 0 < rest -> 0 <= limit ->
  0 <= fst (IcyMetaDataParser.meta_body parse p rest text buf limit) <= limit
  /\ (0 < limit -> 0 < fst (IcyMetaDataParser.meta_body parse p rest text buf limit))
  /\ icy_wf (snd (IcyMetaDataParser.meta_body parse p rest text buf limit)).
Proof.
  intros Hdef Hrest Hlim. unfold IcyMetaDataParser.meta_body.
  unfold IcyMetaDataParser.IsDefined in Hdef. apply Z.ltb_lt in Hdef.
  destruct (rest - Z.min rest limit =? 0) eqn:Hz; cbn [fst snd];
    (split; [lia|]); (split; [lia|]); unfold icy_wf; cbn; intros _.
  - lia.
  - apply Z.eqb_neq in Hz. lia.
Qed.

Lemma Meta_spec (parse : list byte -> option struct_tag)
      (p : IcyMetaDataParser.t) (buf : list byte) (limit : Z) :
  IcyMetaDataParser.IsDefined p = true -> at_meta p -> 0 < limit ->
  0 < fst (IcyMetaDataParser.Meta parse p buf limit) <= limit
  /\ icy_wf (snd (IcyMetaDataParser.Meta parse p buf limit)).
Proof.
  intros Hdef Hat Hlim. unfold IcyMetaDataParser.Meta. unfold at_meta in Hat.
  destruct (IcyMetaDataParser.state p) as [rest| |rest text]; [destruct Hat| |].
  - assert (E : (limit <=? 0) = false) by (apply Z.leb_gt; lia). rewrite E.
    set (L := Z.of_N (Byte.to_N (nth 0 buf x00))).
    assert (HL : 0 <= L) by (unfold L; lia).
    destruct (L =? 0) eqn:HL0.
    + cbn [fst snd]. split; [lia|]. unfold icy_wf. cbn.
      unfold IcyMetaDataParser.IsDefined in Hdef. apply Z.ltb_lt in Hdef.
      intros _. exact Hdef.
    + apply Z.eqb_neq in HL0.
      pose proof (meta_body_spec parse p (16 * L) [] (tl buf) (limit - 1)
                                 Hdef ltac:(lia) ltac:(lia)) as (H1 & _ & H3).
      destruct (IcyMetaDataParser.meta_body parse p (16 * L) [] (tl buf) (limit - 1))
        as [n p'].
      cbn [fst snd] in *. split; [lia | exact H3].
  - pose proof (meta_body_spec parse p rest text buf limit
                               Hdef Hat ltac:(lia)) as (H1 & H2 & H3).
    split; [lia | exact H3].
Qed.

Lemma Consume_ok (b : CurlInputBuffer) (len : Z) :
  buf_wf b -> 0 < len <= CurlInputBuffer.size b - CurlInputBuffer.consumed b ->
  exists b',
    CurlInputBuffer.Consume b len
    = Ok (CurlInputBuffer.consumed b + len <? CurlInputBuffer.size b, b')
    /\ CurlInputBuffer.size b' = CurlInputBuffer.size b
    /\ CurlInputBuffer.consumed b' = CurlInputBuffer.consumed b + len
    /\ CurlInputBuffer.data b' = CurlInputBuffer.data b.
Proof.
  intros (Hc & Hs & Hd) Hlen. unfold CurlInputBuffer.Consume, assert.
  assert (E : (CurlInputBuffer.consumed b <? CurlInputBuffer.size b) = true)
    by (apply Z.ltb_lt; lia).
  rewrite E. cbn [bind CurlInputBuffer.consumed CurlInputBuffer.size].
  rewrite size_t_small by lia.
  destruct (CurlInputBuffer.consumed b + len <? CurlInputBuffer.size b) eqn:Hlt.
  - eexists. split; [reflexivity|]. cbn. auto.
  - apply Z.ltb_ge in Hlt.
    assert (E2 : (CurlInputBuffer.consumed b + len =? CurlInputBuffer.size b) = true)
      by (apply Z.eqb_eq; lia).
    rewrite E2. cbn [bind]. eexists. split; [reflexivity|]. cbn. auto.
Qed.

Lemma Read_ok (b : CurlInputBuffer) (len : Z) :
  buf_wf b -> 0 < len <= CurlInputBuffer.size b - CurlInputBuffer.consumed b ->
  exists b',
    CurlInputBuffer.Read b len
    = Ok (firstn (Z.to_nat len) (CurlInputBuffer.Begin b),
          CurlInputBuffer.consumed b + len <? CurlInputBuffer.size b, b')
    /\ CurlInputBuffer.size b' = CurlInputBuffer.size b
    /\ CurlInputBuffer.consumed b' = CurlInputBuffer.consumed b + len
    /\ CurlInputBuffer.data b' = CurlInputBuffer.data b
    /\ Z.of_nat (List.length (firstn (Z.to_nat len) (CurlInputBuffer.Begin b))) = len.
Proof.
  intros Hwf Hlen. unfold CurlInputBuffer.Read, assert.
  destruct (Consume_ok b len Hwf Hlen) as (b' & HC & H1 & H2 & H3).
  destruct Hwf as (Hc & Hs & Hd).
  rewrite size_t_small by lia.
  assert (E : (CurlInputBuffer.consumed b + len <=? CurlInputBuffer.size b) = true)
    by (apply Z.leb_le; lia).
  rewrite E, HC. cbn [bind]. exists b'.
  repeat (split; [assumption || reflexivity|]).
  unfold CurlInputBuffer.Begin. rewrite length_firstn, length_skipn. lia.
Qed.

Lemma Available_wf (b : CurlInputBuffer) :
  buf_wf b ->
  CurlInputBuffer.Available b = CurlInputBuffer.size b - CurlInputBuffer.consumed b.
Proof.
  intros (Hc & Hs & _). unfold CurlInputBuffer.Available. apply size_t_small. lia.
Qed.

Section ReadingEnds.

Variable icy_parse_tag : list byte -> option struct_tag.

(** On a well-formed buffer and parser, the loop of read_from_buffer()
    ends within [length] rounds, without a failed assertion; it pops the
    buffer or leaves it with more consumed; the count it adds is the
    number of bytes it appends to the destination, at most [length]. *)
Lemma read_from_buffer_loop_ok (fuel : nat) :
  forall icy buffer rest length nbytes dest,
    buf_wf buffer -> icy_wf icy ->
    0 < length <= CurlInputBuffer.size buffer - CurlInputBuffer.consumed buffer ->
    (Z.to_nat length <= fuel)%nat ->
    0 <= nbytes -> nbytes + length < SIZE_MODULUS ->
    exists icy' bufs' n d,
      read_from_buffer_loop icy_parse_tag fuel icy buffer rest length nbytes dest
      = Ok (icy', bufs', n, d)
      /\ icy_wf icy'
      /\ (bufs' = rest
          \/ exists b', bufs' = b' :: rest /\ buf_wf b'
                        /\ CurlInputBuffer.consumed buffer < CurlInputBuffer.consumed b'
                        /\ CurlInputBuffer.size b' = CurlInputBuffer.size buffer)
      /\ nbytes <= n <= nbytes + length
      /\ Z.of_nat (List.length d) - Z.of_nat (List.length dest) = n - nbytes.
Proof.
  induction fuel as [|fuel IH]; intros icy buffer rest length nbytes dest
                                       Hb Hicy Hlen Hfuel Hnb Hsum; [lia|].
  assert (Hmeta :
    forall icy1 buffer1 length1 nbytes1 dest1,
      IcyMetaDataParser.IsDefined icy1 = true -> at_meta icy1 ->
      buf_wf buffer1 ->
      0 < length1 <= CurlInputBuffer.size buffer1 - CurlInputBuffer.consumed buffer1 ->
      (Z.to_nat length1 <= S fuel)%nat ->
      0 <= nbytes1 -> nbytes1 + length1 < SIZE_MODULUS ->
      exists icy' bufs' n d,
        (let '(chunk, icy) :=
           IcyMetaDataParser.Meta icy_parse_tag icy1
                                  (CurlInputBuffer.Begin buffer1) length1 in
         if 0 <? chunk then
           ' (more, buffer) <- CurlInputBuffer.Consume buffer1 chunk ;;
           let length := size_t (length1 - chunk) in
           if negb more then Ok (icy, rest, nbytes1, dest1)
           else if length =? 0 then Ok (icy, buffer :: rest, nbytes1, dest1)
           else read_from_buffer_loop icy_parse_tag fuel icy buffer rest length
                                      nbytes1 dest1
         else read_from_buffer_loop icy_parse_tag fuel icy buffer1 rest length1
                                    nbytes1 dest1)
        = Ok (icy', bufs', n, d)
        /\ icy_wf icy'
        /\ (bufs' = rest
            \/ exists b', bufs' = b' :: rest /\ buf_wf b'
                          /\ CurlInputBuffer.consumed buffer1 < CurlInputBuffer.consumed b'
                          /\ CurlInputBuffer.size b' = CurlInputBuffer.size buffer1)
        /\ nbytes1 <= n <= nbytes1 + length1
        /\ Z.of_nat (List.length d) - Z.of_nat (List.length dest1) = n - nbytes1).
  { intros icy1 buffer1 length1 nbytes1 dest1 Hdef Hat Hb1 Hlen1 Hfuel1 Hnb1 Hsum1.
    pose proof (Meta_spec icy_parse_tag icy1 (CurlInputBuffer.Begin buffer1) length1
                          Hdef Hat ltac:(lia)) as [Hm Hwf2].
    destruct (IcyMetaDataParser.Meta icy_parse_tag icy1
                (CurlInputBuffer.Begin buffer1) length1) as [chunk2 icy2].
    cbn [fst snd] in Hm, Hwf2.
    assert (E : (0 <? chunk2) = true) by (apply Z.ltb_lt; lia). rewrite E.
    destruct (Consume_ok buffer1 chunk2 Hb1 ltac:(lia)) as (b2 & HC & S2 & C2 & D2).
    rewrite HC. cbn [bind].
    destruct Hb1 as (Hc1 & Hs1 & Hd1).
    rewrite (size_t_small (length1 - chunk2)) by lia.
    destruct (CurlInputBuffer.consumed buffer1 + chunk2 <? CurlInputBuffer.size buffer1)
             eqn:Hmore; cbn [negb].
    2:{ do 4 eexists. split; [reflexivity|]. split; [exact Hwf2|].
        split; [left; reflexivity|]. split; lia. }
    apply Z.ltb_lt in Hmore.
    assert (Hb2 : buf_wf b2) by (unfold buf_wf; rewrite D2; lia).
    destruct (length1 - chunk2 =? 0) eqn:Hz.
    { do 4 eexists. split; [reflexivity|]. split; [exact Hwf2|].
      split; [|split; lia].
      right. exists b2. split; [reflexivity|]. split; [exact Hb2|]. split; lia. }
    apply Z.eqb_neq in Hz.
    destruct (IH icy2 b2 rest (length1 - chunk2) nbytes1 dest1 Hb2 Hwf2
                 ltac:(lia) ltac:(lia) Hnb1 ltac:(lia))
      as (icy' & bufs' & n & d & Heq & Hwf' & Hbufs & Hn & Hd).
    exists icy', bufs', n, d. split; [exact Heq|]. split; [exact Hwf'|].
    split; [|split; [lia | exact Hd]].
    destruct Hbufs as [->|(b' & -> & Hb' & Hc' & Hs')]; [left; reflexivity|].
    right. exists b'. split; [reflexivity|]. split; [exact Hb'|]. split; lia. }
  cbn [read_from_buffer_loop]. cbv zeta.
  pose proof (Data_spec icy length Hicy ltac:(lia)) as (Hd1 & Hd2 & Hd3).
  destruct (IcyMetaDataParser.Data icy length) as [chunk icy1].
  cbn [fst snd] in Hd1, Hd2, Hd3.
  destruct (0 <? chunk) eqn:Hchunk.
  - apply Z.ltb_lt in Hchunk.
    destruct (Read_ok buffer chunk Hb ltac:(lia)) as (b1 & HR & S1 & C1 & D1 & L1).
    rewrite HR. cbn [bind].
    destruct Hb as (Hc & Hs & Hdt).
    rewrite (size_t_small (length - chunk)) by lia.
    rewrite (size_t_small (nbytes + chunk)) by lia.
    assert (Hlapp :
              Z.of_nat (List.length
                          (dest ++ firstn (Z.to_nat chunk) (CurlInputBuffer.Begin buffer)))
              = Z.of_nat (List.length dest) + chunk)
      by (rewrite length_app; lia).
    destruct (CurlInputBuffer.consumed buffer + chunk <? CurlInputBuffer.size buffer)
             eqn:Hmore; cbn [negb].
    2:{ do 4 eexists. split; [reflexivity|]. split; [exact Hd2|].
        split; [left; reflexivity|]. split; lia. }
    apply Z.ltb_lt in Hmore.
    assert (Hb1 : buf_wf b1) by (unfold buf_wf; rewrite D1; lia).
    destruct (length - chunk =? 0) eqn:Hz.
    { do 4 eexists. split; [reflexivity|]. split; [exact Hd2|].
      split; [|split; lia].
      right. exists b1. split; [reflexivity|]. split; [exact Hb1|]. split; lia. }
    apply Z.eqb_neq in Hz.
    destruct (Hd3 ltac:(lia)) as [Hdef Hat].
    destruct (Hmeta icy1 b1 (length - chunk) (nbytes + chunk)
                    (dest ++ firstn (Z.to_nat chunk) (CurlInputBuffer.Begin buffer))%list
                    Hdef Hat Hb1 ltac:(lia) ltac:(lia) ltac:(lia) ltac:(lia))
      as (icy' & bufs' & n & d & Heq & Hwf' & Hbufs & Hn & Hd).
    exists icy', bufs', n, d. split; [exact Heq|]. split; [exact Hwf'|].
    split; [|split; lia].
    destruct Hbufs as [->|(b' & -> & Hb' & Hc' & Hs')]; [left; reflexivity|].
    right. exists b'. split; [reflexivity|]. split; [exact Hb'|]. split; lia.
  - apply Z.ltb_ge in Hchunk.
    destruct (Hd3 ltac:(lia)) as [Hdef Hat].
    apply (Hmeta icy1 buffer length nbytes dest Hdef Hat Hb Hlen Hfuel Hnb Hsum).
Qed.

Lemma total_available_wf (bufs : list CurlInputBuffer) :
  Forall buf_wf bufs ->
  0 <= total_available bufs /\ (bufs <> [] -> 0 < total_available bufs).
Proof.
  unfold total_available.
  induction 1 as [|b bufs Hb Hall [IH1 IH2]]; cbn [fold_right].
  - split; [lia | congruence].
  - rewrite (Available_wf b Hb). destruct Hb as [Hc Hs]. split; [lia|].
    intros _. lia.
Qed.

(** read_from_buffer() on a well-formed stream returns, and leaves less
    to read in the buffers; it returns the number of bytes it delivers,
    at most [length]. *)
Lemma read_from_buffer_ok icy bufs length :
  Forall buf_wf bufs -> bufs <> [] -> icy_wf icy -> 0 < length ->
  exists icy' bufs' n d,
    read_from_buffer icy_parse_tag icy bufs length = Ok (icy', bufs', n, d)
    /\ icy_wf icy' /\ Forall buf_wf bufs'
    /\ total_available bufs' < total_available bufs
    /\ 0 <= n <= length
    /\ Z.of_nat (List.length d) = n.
Proof.
  intros Hall Hne Hicy Hlen. destruct bufs as [|buffer rest]; [congruence|].
  inversion Hall as [|? ? Hb Hrest]; subst.
  unfold read_from_buffer. rewrite (Available_wf buffer Hb).
  set (len := if CurlInputBuffer.size buffer - CurlInputBuffer.consumed buffer <? length
              then CurlInputBuffer.size buffer - CurlInputBuffer.consumed buffer
              else length).
  assert (Hl : 0 < len <= CurlInputBuffer.size buffer - CurlInputBuffer.consumed buffer
               /\ len <= length).
  { unfold len. destruct Hb as (Hc & Hs & _).
    destruct (CurlInputBuffer.size buffer - CurlInputBuffer.consumed buffer <? length)
             eqn:E; [apply Z.ltb_lt in E | apply Z.ltb_ge in E]; lia. }
  destruct Hl as [Hl Hle].
  destruct (read_from_buffer_loop_ok (S (Z.to_nat len)) icy buffer rest len 0 []
                                     Hb Hicy Hl ltac:(lia) ltac:(lia)
                                     ltac:(destruct Hb as (? & ? & _); lia))
    as (icy' & bufs' & n & d & Heq & Hwf' & Hbufs & Hn & Hd).
  exists icy', bufs', n, d. split; [exact Heq|]. split; [exact Hwf'|].
  cbn [List.length] in Hd.
  assert (Hcount : 0 <= n <= length /\ Z.of_nat (List.length d) = n) by lia.
  pose proof (total_available_wf rest Hrest) as [Hr _].
  unfold total_available in *. cbn [fold_right].
  rewrite (Available_wf buffer Hb).
  destruct Hbufs as [->|(b' & -> & Hb' & Hc' & Hs')].
  - split; [exact Hrest|]. split; [|exact Hcount]. destruct Hb as (Hc & Hs & _). lia.
  - split; [constructor; assumption|]. split; [|exact Hcount]. cbn [fold_right].
    rewrite (Available_wf b' Hb'). lia.
Qed.

(** The inner loop of input_curl_read() returns on a well-formed stream;
    what it has read and what is still wanted add up to the request, and
    the count is the number of bytes delivered. *)
Lemma send_buffer_contents_ok (fuel : nat) :
  forall c size_ nbytes dest,
    stream_wf c ->
    (Z.to_nat (total_available (buffers c)) <= fuel)%nat ->
    0 <= size_ -> 0 <= nbytes -> nbytes + size_ < SIZE_MODULUS ->
    Z.of_nat (List.length dest) = nbytes ->
    exists c' size' n d,
      send_buffer_contents icy_parse_tag fuel c size_ nbytes dest
      = Ok (c', size', n, d)
      /\ stream_wf c'
      /\ 0 <= size' /\ n + size' = nbytes + size_
      /\ Z.of_nat (List.length d) = n.
Proof.
  induction fuel as [|fuel IH];
    intros c size_ nbytes dest [Hall Hicy] Hfuel Hs0 Hnb Hsum Hdest;
    cbn [send_buffer_contents];
    destruct ((0 <? size_) && negb (is_empty (buffers c))) eqn:Hcond;
    try (do 4 eexists; split; [reflexivity|];
         split; [split; assumption|]; split; [assumption|]; split; [reflexivity|];
         assumption);
    apply andb_true_iff in Hcond as [Hsz Hne]; apply Z.ltb_lt in Hsz;
    assert (Hne' : buffers c <> [])
      by (destruct (buffers c); [discriminate Hne | congruence]);
    pose proof (total_available_wf _ Hall) as [_ Hpos];
    specialize (Hpos Hne'); [lia|].
  destruct (read_from_buffer_ok (icy c) (buffers c) size_ Hall Hne' Hicy Hsz)
    as (icy' & bufs' & copy & bytes & Heq & Hwf' & Hall' & Hless & Hcopy & Hbytes).
  rewrite Heq. cbn [bind].
  rewrite (size_t_small (size_ - copy)) by lia.
  rewrite (size_t_small (nbytes + copy)) by lia.
  destruct (IH (set_icy icy' (set_buffers bufs' c)) (size_ - copy) (nbytes + copy)
               (dest ++ bytes)%list)
    as (c' & size' & n & d & Heq' & Hwf'' & Hs' & Hn & Hd).
  - split; assumption.
  - cbn [buffers set_icy set_buffers]. lia.
  - lia.
  - lia.
  - lia.
  - rewrite length_app. lia.
  - exists c', size', n, d. split; [exact Heq'|]. split; [exact Hwf''|].
    split; [exact Hs'|]. split; [lia | exact Hd].
Qed.

Lemma fill_buffer_wf (c c1 : input_curl) (out : fill_outcome) :
  fill_buffer c = (out, c1) -> stream_wf c -> stream_wf c1.
Proof.
  intros H [Hall Hicy].
  apply fill_buffer_spec in H as (_ & _ & _ & Hb & Hi & _).
  unfold stream_wf. rewrite Hb, Hi. auto.
Qed.

(** The outer loop of input_curl_read() asked for at least one byte: two
    rounds decide it; bytes are returned by count, at most [size_]. *)
Lemma read_loop_ok (c : input_curl) (size_ : Z) :
  stream_wf c -> 0 < size_ < SIZE_MODULUS ->
  exists out c',
    read_loop icy_parse_tag 2 c size_ = Ok (out, c') /\ stream_wf c'
    /\ forall n d, out = ReadBytes n d ->
                   0 < n <= size_ /\ Z.of_nat (List.length d) = n.
Proof.
  intros Hwf Hsize. cbn [read_loop].
  destruct (fill_buffer c) as [fo c1] eqn:Hfill.
  pose proof (fill_buffer_wf _ _ _ Hfill Hwf) as Hwf1.
  destruct fo as [|[|] err];
    try (do 2 eexists; split; [reflexivity|]; split; [exact Hwf1|];
         intros n d Hn; discriminate Hn).
  destruct (send_buffer_contents_ok (Z.to_nat (total_available (buffers c1)))
                                    c1 size_ 0 [] Hwf1 ltac:(lia)
                                    ltac:(lia) ltac:(lia) ltac:(lia) eq_refl)
    as (c2 & size2 & nbytes & dest & Hsend & Hwf2 & Hs2 & Hsum & Hlen).
  rewrite Hsend. cbn [bind].
  destruct (nbytes =? 0) eqn:Hz.
  2:{ apply Z.eqb_neq in Hz. do 2 eexists. split; [reflexivity|].
      split; [exact Hwf2|]. intros n d [= <- <-]. split; [|exact Hlen].
      pose proof (Nat2Z.is_nonneg (List.length dest)). lia. }
  apply Z.eqb_eq in Hz. subst nbytes.
  destruct (fill_buffer c2) as [fo2 c3] eqn:Hfill2.
  pose proof (fill_buffer_wf _ _ _ Hfill2 Hwf2) as Hwf3.
  destruct fo2 as [|[|] err2];
    try (do 2 eexists; split; [reflexivity|]; split; [exact Hwf3|];
         intros n d Hn; discriminate Hn).
  exfalso.
  apply fill_buffer_spec in Hfill2 as (_ & _ & _ & _ & _ & Hne).
  destruct (Hne err2 eq_refl) as [_ Hne2].
  apply send_buffer_contents_spec in Hsend as (_ & _ & _ & _ & _ & _ & Hexit);
    [|lia].
  rewrite Hne2 in Hexit. cbn [negb] in Hexit. rewrite andb_true_r in Hexit.
  apply Z.ltb_ge in Hexit. lia.
Qed.

Lemma copy_icy_tag_wf (c : input_curl) : stream_wf c -> stream_wf (copy_icy_tag c).
Proof.
  intros [Hall Hicy]. unfold copy_icy_tag. cbn.
  destruct (IcyMetaDataParser.tag (icy c)); cbn; split; auto.
Qed.

(** input_curl_read() asked for at least one byte returns: bytes, zero,
    or it waits for the I/O thread.  The bytes it returns are as many as
    it says, and at most as many as were asked for. *)
Lemma input_curl_read_ok (c : input_curl) (size_ : Z) :
  stream_wf c -> 0 < size_ < SIZE_MODULUS ->
  exists out c' eff,
    input_curl_read icy_parse_tag c size_ = Ok (out, c', eff) /\ stream_wf c'
    /\ forall n d, out = ReadBytes n d ->
                   0 < n <= size_ /\ Z.of_nat (List.length d) = n.
Proof.
  intros Hwf Hsize. unfold input_curl_read.
  destruct (read_loop_ok c size_ Hwf Hsize) as (out & c1 & Hloop & Hwf1 & Hcount).
  rewrite Hloop. cbn [bind].
  destruct out as [n d|err|];
    try (do 3 eexists; split; [reflexivity|]; split; [exact Hwf1 | exact Hcount]).
  set (c2 := if IcyMetaDataParser.IsDefined (icy c1) then copy_icy_tag c1 else c1).
  assert (Hwf2 : stream_wf c2).
  { unfold c2. destruct (IcyMetaDataParser.IsDefined (icy c1));
      [now apply copy_icy_tag_wf | exact Hwf1]. }
  set (c3 := with_base _ c2).
  assert (Hwf3 : stream_wf c3) by exact Hwf2.
  destruct (paused c3 && (curl_total_buffer_size c3 <? CURL_RESUME_AT));
    do 3 eexists; (split; [reflexivity|]); (split; [|exact Hcount]);
    [|exact Hwf3].
  unfold input_curl_resume. destruct (paused c3); exact Hwf3.
Qed.

(** A read of no bytes with data buffered and no error pending never
    leaves the outer loop, whatever the fuel. *)
Lemma read_loop_zero_spins (fuel : nat) (c : input_curl) :
  is_empty (buffers c) = false -> postponed_error c = None ->
  read_loop icy_parse_tag fuel c 0 = Spin.
Proof.
  intros Hne Herr. induction fuel as [|fuel IH]; [reflexivity|].
  cbn [read_loop]. unfold fill_buffer. rewrite Hne, Herr, andb_false_r.
  cbn [negb].
  destruct (Z.to_nat (total_available (buffers c))); cbn; exact IH.
Qed.

End ReadingEnds.

(** ** The loops end: seek *)

Lemma Consume_wf (b b' : CurlInputBuffer) (len : Z) :
  buf_wf b -> CurlInputBuffer.Consume b len = Ok (true, b') -> buf_wf b'.
Proof.
  intros (Hc & Hs & Hd). unfold CurlInputBuffer.Consume, assert.
  destruct (CurlInputBuffer.consumed b <? CurlInputBuffer.size b);
    cbn [bind]; [|discriminate].
  cbn [CurlInputBuffer.consumed CurlInputBuffer.size].
  destruct (size_t (CurlInputBuffer.consumed b + len) <? CurlInputBuffer.size b)
           eqn:Hlt.
  - intros [= <-]. apply Z.ltb_lt in Hlt.
    pose proof (size_t_range (CurlInputBuffer.consumed b + len)).
    unfold buf_wf.
    cbn [CurlInputBuffer.consumed CurlInputBuffer.size CurlInputBuffer.data]. lia.
  - destruct (size_t (CurlInputBuffer.consumed b + len) =? CurlInputBuffer.size b);
      cbn [bind]; discriminate.
Qed.

(** The fast-forward loop keeps the buffers well-formed. *)
Lemma seek_fast_forward_wf (fuel : nat) (t : Z) :
  forall c c1,
    seek_fast_forward fuel c t = Ok c1 ->
    Forall buf_wf (buffers c) -> Forall buf_wf (buffers c1).
Proof.
  induction fuel as [|fuel IH]; intros c c1; cbn [seek_fast_forward].
  - destruct (buffers c) eqn:Hb; [intros [= <-]; now rewrite Hb|].
    destruct (offset (base c) <? t); [discriminate|].
    intros [= <-]; now rewrite Hb.
  - destruct (buffers c) as [|buffer rest] eqn:Hb; [intros [= <-]; now rewrite Hb|].
    destruct (offset (base c) <? t); [|intros [= <-]; now rewrite Hb].
    destruct (CurlInputBuffer.Consume buffer _) as [[more buffer']| |] eqn:HC;
      cbn [bind]; try discriminate.
    intros H Hall. apply IH in H; [exact H|]. cbn.
    inversion Hall as [|? ? Hbw Hrest]; subst.
    destruct more; [|exact Hrest].
    constructor; [|exact Hrest]. eapply Consume_wf; eassumption.
Qed.

Lemma buffered_ok_sizes (bufs : list CurlInputBuffer) :
  buffered_ok bufs ->
  Forall (fun b => CurlInputBuffer.size b < CURL_MAX_BUFFERED) bufs.
Proof.
  intros [Hall Hsum]. revert Hsum.
  induction Hall as [|b bufs Hb Hall IH]; intros Hsum; constructor.
  - pose proof (sum_sizes_nonneg _ Hall).
    change (sum_sizes (b :: bufs)) with (CurlInputBuffer.size b + sum_sizes bufs) in Hsum.
    lia.
  - apply IH.
    change (sum_sizes (b :: bufs)) with (CurlInputBuffer.size b + sum_sizes bufs) in Hsum.
    lia.
Qed.

(** On well-formed buffers the fast-forward loop of input_curl_seek()
    ends within one round per buffer, without a failed assertion. *)
Lemma seek_fast_forward_ok (fuel : nat) (t : Z) :
  forall c,
    Forall buf_wf (buffers c) ->
    Forall (fun b => CurlInputBuffer.size b < CURL_MAX_BUFFERED) (buffers c) ->
    0 <= offset (base c) -> t <= G_MAXINT64 ->
    (List.length (buffers c) <= fuel)%nat ->
    exists c1, seek_fast_forward fuel c t = Ok c1.
Proof.
  induction fuel as [|fuel IH]; intros c Hall Hsz Hoff Ht Hfuel;
    cbn [seek_fast_forward].
  - destruct (buffers c); [eexists; reflexivity | cbn in Hfuel; lia].
  - destruct (buffers c) as [|buffer rest] eqn:Hb; [eexists; reflexivity|].
    destruct (offset (base c) <? t) eqn:Hlt; [|eexists; reflexivity].
    apply Z.ltb_lt in Hlt.
    inversion Hall as [|? ? Hbw Hrest]; subst.
    inversion Hsz as [|? ? Hbs Hszrest]; subst.
    rewrite (Available_wf buffer Hbw).
    pose proof Hbw as (Hc & Hs & _).
    assert (Hav : goffset_of (CurlInputBuffer.size buffer
                              - CurlInputBuffer.consumed buffer)
                  = CurlInputBuffer.size buffer - CurlInputBuffer.consumed buffer).
    { apply goffset_of_small.
      unfold G_MININT64, G_MAXINT64, CURL_MAX_BUFFERED in *. lia. }
    assert (Hd : goffset_of (t - offset (base c)) = t - offset (base c)).
    { apply goffset_of_small. unfold G_MININT64, G_MAXINT64 in *. lia. }
    rewrite Hav, Hd.
    destruct (t - offset (base c)
              <? CurlInputBuffer.size buffer - CurlInputBuffer.consumed buffer)
             eqn:Hcmp.
    + apply Z.ltb_lt in Hcmp.
      rewrite (size_t_small (t - offset (base c)))
        by (unfold SIZE_MODULUS, G_MAXINT64 in *; lia).
      destruct (Consume_ok buffer (t - offset (base c)) Hbw ltac:(lia))
        as (b' & HC & S' & C' & _).
      rewrite HC. cbn [bind].
      assert (E : (CurlInputBuffer.consumed buffer + (t - offset (base c))
                   <? CurlInputBuffer.size buffer) = true)
        by (apply Z.ltb_lt; lia).
      rewrite E.
      (* the offset is now the target: the loop ends *)
      set (c' := with_base _ _).
      assert (Ho : offset (base c') = t).
      { unfold c'. cbn.
        replace (offset (base c) + (t - offset (base c))) with t by lia.
        apply goffset_of_small. unfold G_MININT64, G_MAXINT64 in *. lia. }
      exists c'. destruct fuel; cbn [seek_fast_forward];
        (destruct (buffers c'); [reflexivity|]);
        rewrite Ho, Z.ltb_irrefl; reflexivity.
    + apply Z.ltb_ge in Hcmp.
      destruct (Consume_ok buffer (CurlInputBuffer.size buffer
                                   - CurlInputBuffer.consumed buffer)
                           Hbw ltac:(lia))
        as (b' & HC & S' & C' & _).
      rewrite HC. cbn [bind].
      assert (E : (CurlInputBuffer.consumed buffer
                   + (CurlInputBuffer.size buffer - CurlInputBuffer.consumed buffer)
                   <? CurlInputBuffer.size buffer) = false)
        by (apply Z.ltb_ge; lia).
      rewrite E.
      apply IH; cbn; auto.
      * rewrite goffset_of_small; unfold G_MININT64, G_MAXINT64 in *; lia.
      * cbn in Hfuel. lia.
Qed.

(** Setting up the new connection always comes to an end. *)
Lemma seek_new_connection_ok
      (G : curl_globals) (ans : curl_answers) (c : input_curl) (t : Z) :
  exists out c' eff, seek_new_connection G ans c t = Ok (out, c', eff).
Proof.
  unfold seek_new_connection, input_curl_easy_free_indirect.
  rewrite input_curl_easy_free_null. cbn [assert bind].
  set (c2 := with_base (set_offset t) (set_buffers [] (input_curl_easy_free c))).
  destruct (offset (base c2) =? size (base c2)); [do 3 eexists; reflexivity|].
  unfold input_curl_easy_init.
  destruct (negb (curl_easy_init_handle ans)); [do 3 eexists; reflexivity|].
  destruct (negb (curl_setopt_url ans =? CURLE_OK)); [do 3 eexists; reflexivity|].
  unfold input_curl_easy_add_indirect, assert.
  cbn [base set_request_headers set_easy].
  destruct (0 <? offset (base c2));
    cbn [easy set_opt_range set_range with_base set_easy set_request_headers
         is_null negb bind];
    destruct (negb (curl_multi_add_handle ans =? CURLM_OK)); cbn [negb];
    try (do 3 eexists; reflexivity);
    destruct (input_curl_seek_wait _); do 3 eexists; reflexivity.
Qed.

(** input_curl_seek() on a ready, well-formed stream returns or waits for
    the new transfer. *)
Lemma input_curl_seek_ok
      (G : curl_globals) (ans : curl_answers) (c : input_curl)
      (offset_ whence : Z) :
  ready (base c) = true ->
  Forall buf_wf (buffers c) -> buffered_ok (buffers c) ->
  0 <= offset (base c) ->
  offset_ <= G_MAXINT64 ->
  exists out c' eff, input_curl_seek G ans c offset_ whence = Ok (out, c', eff).
Proof.
  intros Hready Hwf Hok Hoff Hmax. unfold input_curl_seek.
  rewrite Hready. cbn [assert bind].
  destruct ((whence =? SEEK_SET) && (offset_ =? offset (base c)));
    [do 3 eexists; reflexivity|].
  destruct (negb (seekable (base c))); [do 3 eexists; reflexivity|].
  match goal with
  | |- context [match ?x with Some _ => _ | None => _ end] =>
      assert (Ht : forall t, x = Some t -> t <= G_MAXINT64);
      [|destruct x as [t|]; [specialize (Ht t eq_refl) | do 3 eexists; reflexivity]]
  end.
  { intros t. destruct (whence =? SEEK_SET); [intros [= <-]; exact Hmax|].
    destruct (whence =? SEEK_CUR); [intros [= <-]; apply goffset_of_range|].
    destruct (whence =? SEEK_END); [|discriminate].
    destruct (size (base c) <? 0); [discriminate|].
    intros [= <-]; apply goffset_of_range. }
  destruct (t <? 0); [do 3 eexists; reflexivity|].
  destruct (seek_fast_forward_ok (S (List.length (buffers c))) t c Hwf
                                 (buffered_ok_sizes _ Hok) Hoff Ht ltac:(lia))
    as [c1 Hff].
  rewrite Hff. cbn [bind].
  destruct (t =? offset (base c1)); [do 3 eexists; reflexivity|].
  apply seek_new_connection_ok.
Qed.

(** ** Well-formed streams stay well-formed *)

Lemma input_curl_new_wf (url : string) : stream_wf (input_curl_new url).
Proof. split; [constructor | intros H; discriminate H]. Qed.

Lemma headerfunction_wf (c : input_curl) (ptr : string) (size_ nmemb : Z) :
  stream_wf c -> stream_wf (snd (input_curl_headerfunction c ptr size_ nmemb)).
Proof.
  intros [Hall Hicy].
  unfold input_curl_headerfunction, input_curl_headerfunction_writes.
  destruct (memchr ptr ":" (Z.to_nat (size_t (size_ * nmemb)))) as [colon|];
    [|split; assumption].
  repeat split_if; cbn [fst snd]; split; cbn; auto.
  intros _. now apply Z.ltb_lt.
Qed.

Lemma writefunction_wf (c : input_curl) (ptr : list byte) (size_ nmemb : Z) :
  stream_wf c -> wf_event (EvWrite ptr size_ nmemb) ->
  stream_wf (snd (input_curl_writefunction c ptr size_ nmemb)).
Proof.
  intros [Hall Hicy] (Hs & Hn & Hlen & Hmax). unfold input_curl_writefunction.
  destruct (size_t (size_ * nmemb) =? 0) eqn:Hz; [split; assumption|].
  apply Z.eqb_neq in Hz.
  destruct (CURL_MAX_BUFFERED <=? _); [split; assumption|].
  split; [|exact Hicy]. cbn. apply Forall_app. split; [exact Hall|].
  constructor; [|constructor].
  pose proof (size_t_range (size_ * nmemb)).
  assert (Hsz : size_t (size_ * nmemb) = size_ * nmemb).
  { apply size_t_small. unfold G_MAXINT64, SIZE_MODULUS in *. nia. }
  unfold buf_wf.
  cbn [CurlInputBuffer.make CurlInputBuffer.consumed CurlInputBuffer.size
       CurlInputBuffer.data].
  rewrite length_firstn. rewrite Hsz in *. lia.
Qed.

Lemma input_curl_easy_free_wf (c : input_curl) :
  stream_wf c -> stream_wf (input_curl_easy_free c).
Proof. unfold input_curl_easy_free. destruct (easy c); auto. Qed.

Lemma seek_new_connection_wf
      (G : curl_globals) (ans : curl_answers) (c c' : input_curl) (t : Z)
      (out : seek_outcome) (eff : list effect) :
  seek_new_connection G ans c t = Ok (out, c', eff) ->
  stream_wf c -> stream_wf c'.
Proof.
  intros H [Hall Hicy]. split.
  - apply seek_new_connection_buffers in H. rewrite H. constructor.
  - revert H. unfold seek_new_connection, input_curl_easy_free_indirect.
    rewrite input_curl_easy_free_null. cbn [assert bind].
    set (c2 := with_base (set_offset t) (set_buffers [] (input_curl_easy_free c))).
    assert (Hi2 : icy c2 = icy c)
      by (unfold c2, input_curl_easy_free; destruct (easy c); reflexivity).
    destruct (offset (base c2) =? size (base c2));
      [intros [= _ <- _]; now rewrite Hi2|].
    destruct (input_curl_easy_init G ans c2) as [[ok err] c3] eqn:Hinit.
    apply input_curl_easy_init_keeps in Hinit as (_ & _ & Hi3 & _).
    destruct ok; [|intros [= _ <- _]; now rewrite Hi3, Hi2].
    set (c4 := if 0 <? offset (base c3) then _ else c3).
    assert (Hi4 : icy c4 = icy c).
    { unfold c4. destruct (0 <? offset (base c3)); [|congruence].
      rewrite (proj1 (proj2 (proj2 (set_opt_range_keeps _ _)))). cbn. congruence. }
    unfold input_curl_easy_add_indirect, assert.
    destruct (negb (is_null (easy (with_base (set_ready false) c4))));
      cbn [bind]; [|discriminate].
    destruct (negb (curl_multi_add_handle ans =? CURLM_OK)); cbn [negb].
    + intros [= _ <- _]. cbn. now rewrite Hi4.
    + unfold input_curl_seek_wait. cbn.
      intros [= _ <- _]. cbn. now rewrite Hi4.
Qed.

Lemma input_curl_seek_wf
      (G : curl_globals) (ans : curl_answers) (c c' : input_curl)
      (offset_ whence : Z) (out : seek_outcome) (eff : list effect) :
  input_curl_seek G ans c offset_ whence = Ok (out, c', eff) ->
  stream_wf c -> stream_wf c'.
Proof.
  intros H Hwf. revert H. unfold input_curl_seek, assert.
  destruct (ready (base c)); cbn [bind]; [|discriminate].
  destruct ((whence =? SEEK_SET) && (offset_ =? offset (base c)));
    [intros [= _ <- _]; exact Hwf|].
  destruct (negb (seekable (base c))); [intros [= _ <- _]; exact Hwf|].
  match goal with
  | |- context [match ?x with Some _ => _ | None => _ end] => destruct x as [t|]
  end; [|intros [= _ <- _]; exact Hwf].
  destruct (t <? 0); [intros [= _ <- _]; exact Hwf|].
  destruct (seek_fast_forward _ c t) as [c1| |] eqn:Hff; cbn [bind];
    try discriminate.
  assert (Hwf1 : stream_wf c1).
  { destruct Hwf as [Hall Hicy]. split.
    - eapply seek_fast_forward_wf; eassumption.
    - apply seek_fast_forward_keeps in Hff as (_ & _ & _ & Hi). now rewrite Hi. }
  destruct (t =? offset (base c1)); [intros [= _ <- _]; exact Hwf1|].
  intros H. eapply seek_new_connection_wf; eassumption.
Qed.

Section WellFormedTraces.

Variable icy_parse_tag : list byte -> option struct_tag.
Variable G : curl_globals.

Lemma read_loop_zero_wf (fuel : nat) :
  forall c out c',
    read_loop icy_parse_tag fuel c 0 = Ok (out, c') ->
    stream_wf c ->
    stream_wf c' /\ forall n d, out <> ReadBytes n d.
Proof.
  induction fuel as [|fuel IH]; intros c out c' H Hwf; [discriminate H|].
  cbn [read_loop] in H.
  destruct (fill_buffer c) as [fo c1] eqn:Hfill.
  pose proof (fill_buffer_wf _ _ _ Hfill Hwf) as Hwf1.
  destruct fo as [|[|] err];
    try (injection H as <- <-; split; [exact Hwf1 | intros n d; discriminate]).
  destruct (Z.to_nat (total_available (buffers c1))); cbn in H;
    apply IH in H; auto.
Qed.

Lemma input_curl_read_wf (c c' : input_curl) (size_ : Z)
      (out : read_outcome) (eff : list effect) :
  stream_wf c -> 0 <= size_ < SIZE_MODULUS ->
  input_curl_read icy_parse_tag c size_ = Ok (out, c', eff) ->
  stream_wf c'.
Proof.
  intros Hwf Hsize Hread.
  destruct (Z.eq_dec size_ 0) as [->|Hne].
  - unfold input_curl_read in Hread.
    destruct (read_loop icy_parse_tag 2 c 0) as [[out1 c1]| |] eqn:Hloop;
      cbn [bind] in Hread; try discriminate Hread.
    apply read_loop_zero_wf in Hloop as [Hwf1 Hout]; [|exact Hwf].
    destruct out1 as [n d|err|]; [exfalso; eapply Hout; reflexivity| |];
      injection Hread as _ <- _; exact Hwf1.
  - destruct (input_curl_read_ok icy_parse_tag c size_ Hwf ltac:(lia))
      as (out2 & c2 & eff2 & Heq & Hwf2 & _).
    rewrite Heq in Hread. injection Hread as _ <- _. exact Hwf2.
Qed.

Lemma step_stream_wf (c c1 : input_curl) (e : event) (n : Z) :
  stream_wf c -> sized_event e ->
  step icy_parse_tag G c e = Ok (c1, n) ->
  stream_wf c1.
Proof.
  intros Hwf Hsz Hstep.
  destruct e as [size_|ans offset_ whence| | | |ptr size_ nmemb|ptr size_ nmemb
                 |error_text result status|err];
    cbn [step] in Hstep;
    try (unfold assert in Hstep; destruct (negb (is_null (easy c)));
         cbn [bind] in Hstep; [|discriminate Hstep]).
  - destruct (input_curl_read icy_parse_tag c size_) as [[[out c2] eff]| |] eqn:Hr;
      cbv beta iota delta [bind] in Hstep; try discriminate Hstep.
    injection Hstep as <- _. eapply input_curl_read_wf; eassumption.
  - destruct (input_curl_seek G ans c offset_ whence) as [[[out c2] eff]| |] eqn:Hs;
      cbv beta iota delta [bind] in Hstep; try discriminate Hstep.
    injection Hstep as <- _. eapply input_curl_seek_wf; eassumption.
  - injection Hstep as <- _. destruct Hwf as [Hall Hicy].
    unfold input_curl_seek_wait.
    destruct (negb (ready (base c))); [split; assumption|].
    destruct (postponed_error c); split; assumption.
  - injection Hstep as <- _. destruct Hwf as [Hall Hicy].
    unfold input_curl_check.
    destruct (negb (is_null (postponed_error c))); split; assumption.
  - injection Hstep as <- _. exact Hwf.
  - injection Hstep as <- _. now apply headerfunction_wf.
  - injection Hstep as <- _. now apply writefunction_wf.
  - destruct (input_curl_handle_done _ result status) as [c2| |] eqn:Hd;
      cbn [bind] in Hstep; try discriminate Hstep.
    injection Hstep as <- _. revert Hd.
    unfold input_curl_handle_done, input_curl_request_done, assert.
    destruct (negb (is_null (easy (set_error error_text c)))); cbn [bind];
      [|discriminate].
    rewrite input_curl_easy_free_null. cbn [is_null bind].
    destruct (is_null (postponed_error _)); cbn [bind]; [|discriminate].
    intros [= <-].
    assert (K : stream_wf (input_curl_easy_free (set_error error_text c)))
      by (apply input_curl_easy_free_wf; exact Hwf).
    repeat split_if; exact K.
  - destruct (input_curl_abort_request c err) as [c2| |] eqn:Ha;
      cbn [bind] in Hstep; try discriminate Hstep.
    injection Hstep as <- _. revert Ha.
    unfold input_curl_abort_request, assert.
    destruct (is_null (postponed_error c)); cbn [bind]; [|discriminate].
    intros [= <-]. exact (input_curl_easy_free_wf c Hwf).
Qed.

Lemma run_stream_wf (tr : list event) :
  forall c c' n,
    stream_wf c -> Forall sized_event tr ->
    run icy_parse_tag G c tr = Ok (c', n) ->
    stream_wf c'.
Proof.
  induction tr as [|e tr IH]; intros c c' n Hwf Hsz Hrun.
  - injection Hrun as <- _. exact Hwf.
  - cbn [run] in Hrun. inversion Hsz as [|? ? He Htr]; subst.
    destruct (step icy_parse_tag G c e) as [[c1 k]| |] eqn:Hstep;
      cbn [bind] in Hrun; try discriminate Hrun.
    destruct (run icy_parse_tag G c1 tr) as [[c2 m]| |] eqn:Hrun';
      cbn [bind] in Hrun; try discriminate Hrun.
    injection Hrun as <- _.
    eapply IH; [|exact Htr|exact Hrun'].
    eapply step_stream_wf; eassumption.
Qed.

(** On every state a new stream reaches, a read of at least one byte
    comes to an end: it returns bytes, returns 0, or waits for the I/O
    thread.  The fuel of the model's loops is enough and no assertion of
    the buffer code fails.  The count it returns is the number of bytes
    it has copied, at least one and at most the number asked for. *)
Theorem reachable_read_returns
        (url : string) (tr : list event) (c : input_curl) (n size_ : Z) :
  Forall sized_event tr ->
  run icy_parse_tag G (input_curl_new url) tr = Ok (c, n) ->
  0 < size_ < SIZE_MODULUS ->
  exists out c' eff,
    input_curl_read icy_parse_tag c size_ = Ok (out, c', eff)
    /\ forall nbytes dest,
        out = ReadBytes nbytes dest ->
        0 < nbytes <= size_ /\ Z.of_nat (List.length dest) = nbytes.
Proof.
  intros Hsz Hrun Hsize.
  pose proof (run_stream_wf tr _ _ _ (input_curl_new_wf url) Hsz Hrun) as Hwf.
  destruct (input_curl_read_ok icy_parse_tag c size_ Hwf Hsize)
    as (out & c' & eff & Heq & _ & Hcount).
  exists out, c', eff. split; [exact Heq | exact Hcount].
Qed.

End WellFormedTraces.

(** ** The scenarios of the spec, run on the model *)

(** Scenario 1: a 10-byte body is read to its end; offset and size are 10
    and the stream is at its end. *)
Example scenario_plain_get :
  run example_parse example_globals example_stream plain_get
  = Ok (finished_stream, 10)
  /\ offset (base finished_stream) = 10
  /\ size (base finished_stream) = 10
  /\ input_curl_eof finished_stream = true.
Proof.
  split; [vm_compute; reflexivity|].
  split; [vm_compute; reflexivity|].
  split; vm_compute; reflexivity.
Qed.

(** Scenario 2: a seek to offset 5 inside the buffered body is served from
    the buffer, and the next read starts there; a seek back to offset 2
    sends "Range: 2-". *)
Example scenario_seek :
  match input_curl_seek example_globals answers_ok mid_stream 5 SEEK_SET with
  | Ok (out, c', eff) =>
      out = SeekReturn true None /\ eff = [] /\ offset (base c') = 5
      /\ match input_curl_read example_parse c' 5 with
         | Ok (out, _, _) => out = ReadBytes 5 [x35; x36; x37; x38; x39]
         | _ => False
         end
  | _ => False
  end
  /\ match input_curl_seek example_globals answers_ok mid_stream 2 SEEK_SET with
     | Ok (out, c', eff) => out = SeekBlocked /\ range c' = Some "2-"%string
     | _ => False
     end.
Proof.
  split; vm_compute.
  - split; [reflexivity|]. split; [reflexivity|]. split; reflexivity.
  - split; reflexivity.
Qed.

(** Scenario 3: with inline metadata of stride 4, a read of 8 bytes
    yields the audio bytes only, the title becomes the pending tag and the
    stream is not seekable. *)
Example scenario_icy :
  match input_curl_read example_parse icy_stream 8 with
  | Ok (out, c', _) =>
      out = ReadBytes 8 [x41; x41; x41; x41; x42; x42; x42; x42]
      /\ offset (base c') = 8
      /\ is_null (tag c') = false
      /\ seekable (base c') = false
  | _ => False
  end.
Proof.
  vm_compute.
  split; [reflexivity|]. split; [reflexivity|]. split; reflexivity.
Qed.

(** Scenario 5: the transfer ends with status 404; the next read returns 0
    with the error. *)
Example scenario_404 :
  match run example_parse example_globals example_stream
            [EvDone EmptyString CURLE_OK 404] with
  | Ok (c, _) =>
      match input_curl_read example_parse c 10 with
      | Ok (ReadZero (Some e), _, _) => message e = "got HTTP status 404"%string
      | _ => False
      end
  | _ => False
  end.
Proof. vm_compute. reflexivity. Qed.

Lemma Begin_length (b : CurlInputBuffer) :
  buf_wf b ->
  Z.of_nat (List.length (CurlInputBuffer.Begin b))
  = CurlInputBuffer.size b - CurlInputBuffer.consumed b.
Proof.
  intros (Hc & Hs & Hd). unfold CurlInputBuffer.Begin.
  rewrite length_skipn. lia.
Qed.

Lemma pending_length (bufs : list CurlInputBuffer) :
  Forall buf_wf bufs ->
  Z.of_nat (List.length (pending bufs)) = total_available bufs.
Proof.
  induction 1 as [|b rest Hb Hrest IH]; [reflexivity|].
  unfold pending in *. cbn [map List.concat total_available fold_right].
  rewrite length_app, Nat2Z.inj_add, IH, (Begin_length b Hb), (Available_wf b Hb).
  reflexivity.
Qed.

Lemma firstn_plus {A : Type} (n m : nat) (l : list A) :
  firstn (n + m) l = (firstn n l ++ firstn m (skipn n l))%list.
Proof.
  revert l. induction n as [|n IH]; intros l; [reflexivity|].
  destruct l as [|x l]; cbn.
  - now rewrite firstn_nil.
  - now rewrite IH.
Qed.

Section PlainReading.

Variable icy_parse_tag : list byte -> option struct_tag.

Lemma read_from_buffer_plain (icy : IcyMetaDataParser.t) (b : CurlInputBuffer)
      (rest : list CurlInputBuffer) (len : Z) :
  IcyMetaDataParser.IsDefined icy = false ->
  buf_wf b -> Forall buf_wf rest -> 0 < len < SIZE_MODULUS ->
  let n := Z.min len (CurlInputBuffer.size b - CurlInputBuffer.consumed b) in
  exists bufs',
    read_from_buffer icy_parse_tag icy (b :: rest) len
    = Ok (icy, bufs', n, firstn (Z.to_nat n) (pending (b :: rest)))
    /\ pending bufs' = skipn (Z.to_nat n) (pending (b :: rest))
    /\ Forall buf_wf bufs'.
Proof.
  intros Hdef Hb Hrest Hlen n.
  pose proof (Begin_length b Hb) as HBl.
  pose proof Hb as (Hc & Hs & Hd).
  assert (Hn : 0 < n <= CurlInputBuffer.size b - CurlInputBuffer.consumed b)
    by (unfold n; lia).
  assert (Hfirst : firstn (Z.to_nat n) (pending (b :: rest))
                   = firstn (Z.to_nat n) (CurlInputBuffer.Begin b)).
  { unfold pending. cbn [map List.concat]. rewrite firstn_app.
    replace (Z.to_nat n - List.length (CurlInputBuffer.Begin b))%nat with 0%nat by lia.
    cbn [firstn]. apply app_nil_r. }
  unfold read_from_buffer. rewrite (Available_wf b Hb).
  replace (if CurlInputBuffer.size b - CurlInputBuffer.consumed b <? len
           then CurlInputBuffer.size b - CurlInputBuffer.consumed b else len)
    with n by (unfold n; destruct (Z.ltb_spec (CurlInputBuffer.size b
                                               - CurlInputBuffer.consumed b) len); lia).
  cbn [read_from_buffer_loop]. cbv zeta.
  unfold IcyMetaDataParser.Data. rewrite Hdef. cbn [negb].
  assert (E : (0 <? n) = true) by (apply Z.ltb_lt; lia). rewrite E.
  destruct (Read_ok b n Hb Hn) as (b' & HR & H1 & H2 & H3 & H4).
  rewrite HR. cbn [bind].
  rewrite Z.sub_diag. change (size_t 0 =? 0) with true.
  rewrite (Z.add_0_l n), (size_t_small n) by (unfold SIZE_MODULUS in *; lia).
  cbn [app]. rewrite Hfirst.
  destruct (CurlInputBuffer.consumed b + n <? CurlInputBuffer.size b) eqn:Hmore;
    cbn [negb].
  - apply Z.ltb_lt in Hmore. exists (b' :: rest).
    split; [reflexivity|]. split.
    + unfold pending. cbn [map List.concat]. rewrite skipn_app.
      replace (Z.to_nat n - List.length (CurlInputBuffer.Begin b))%nat with 0%nat by lia.
      cbn [skipn]. f_equal. unfold CurlInputBuffer.Begin.
      rewrite H2, H3, skipn_skipn. f_equal. lia.
    + constructor; [|exact Hrest]. unfold buf_wf. rewrite H1, H2, H3. lia.
  - apply Z.ltb_ge in Hmore. exists rest.
    split; [reflexivity|]. split; [|exact Hrest].
    unfold pending. cbn [map List.concat]. rewrite skipn_app.
    rewrite skipn_all2 by lia.
    replace (Z.to_nat n - List.length (CurlInputBuffer.Begin b))%nat with 0%nat by lia.
    reflexivity.
Qed.


Lemma pending_nonempty (bufs : list CurlInputBuffer) :
  Forall buf_wf bufs -> is_empty bufs = false -> (0 < List.length (pending bufs))%nat.
Proof.
  intros Hwf He. destruct bufs as [|b rest]; [discriminate|].
  inversion Hwf as [|? ? Hb Hrest]; subst.
  pose proof (Begin_length b Hb) as HB. destruct Hb as (Hc & _).
  unfold pending. cbn [map List.concat]. rewrite length_app. lia.
Qed.

Lemma send_buffer_contents_plain (fuel : nat) :
  forall c size_ nbytes dest,
    IcyMetaDataParser.IsDefined (icy c) = false ->
    Forall buf_wf (buffers c) ->
    0 <= size_ -> 0 <= nbytes -> nbytes + size_ < SIZE_MODULUS ->
    (List.length (pending (buffers c)) <= fuel)%nat ->
    let taken := firstn (Z.to_nat size_) (pending (buffers c)) in
    exists c' size',
      send_buffer_contents icy_parse_tag fuel c size_ nbytes dest
      = Ok (c', size', nbytes + Z.of_nat (List.length taken), (dest ++ taken)%list)
      /\ pending (buffers c') = skipn (Z.to_nat size_) (pending (buffers c))
      /\ Forall buf_wf (buffers c')
      /\ icy c' = icy c.
Proof.
  induction fuel as [|fuel IH]; intros c size_ nbytes dest Hdef Hwf Hsz Hnb Hsum Hfuel taken.
  - assert (Hnil : pending (buffers c) = []) by (apply length_zero_iff_nil; lia).
    assert (He : is_empty (buffers c) = true).
    { destruct (is_empty (buffers c)) eqn:He; [reflexivity|].
      pose proof (pending_nonempty _ Hwf He). lia. }
    cbn [send_buffer_contents]. rewrite He, andb_false_r.
    exists c, size_. subst taken. rewrite Hnil, firstn_nil, skipn_nil, app_nil_r.
    cbn [List.length]. rewrite Z.add_0_r. auto.
  - cbn [send_buffer_contents].
    destruct ((0 <? size_) && negb (is_empty (buffers c))) eqn:Hcond.
    2:{ exists c, size_. apply andb_false_iff in Hcond as [Hz|He].
        - apply Z.ltb_ge in Hz. assert (size_ = 0) by lia. subst size_ taken.
          cbn [Z.to_nat firstn skipn List.length]. rewrite app_nil_r, Z.add_0_r. auto.
        - apply negb_false_iff in He.
          destruct (buffers c) eqn:Hb; [|discriminate]. subst taken.
          cbn [pending map List.concat]. rewrite firstn_nil, skipn_nil, app_nil_r.
          cbn [List.length]. rewrite Z.add_0_r. auto. }
    apply andb_true_iff in Hcond as [Hz He]. apply Z.ltb_lt in Hz.
    apply negb_true_iff in He.
    destruct (buffers c) as [|b rest] eqn:Hb; [discriminate|].
    inversion Hwf as [|? ? Hwb Hwrest]; subst.
    destruct (read_from_buffer_plain (icy c) b rest size_ Hdef Hwb Hwrest ltac:(lia))
      as (bufs' & HR & HP & HW).
    pose proof (Begin_length b Hwb) as HBl. pose proof Hwb as (Hc & Hs & Hd).
    set (n := Z.min size_ (CurlInputBuffer.size b - CurlInputBuffer.consumed b)) in *.
    assert (Hn : 0 < n <= size_) by (unfold n; lia).
    assert (HnP : (Z.to_nat n <= List.length (pending (b :: rest)))%nat).
    { unfold pending. cbn [map List.concat]. rewrite length_app. lia. }
    rewrite HR. cbn [bind].
    rewrite (size_t_small (size_ - n)) by lia.
    rewrite (size_t_small (nbytes + n)) by lia.
    destruct (IH (set_icy (icy c) (set_buffers bufs' c)) (size_ - n) (nbytes + n)
                 (dest ++ firstn (Z.to_nat n) (pending (b :: rest)))%list)
      as (c' & size' & HS & HP' & HW' & HI').
    { exact Hdef. } { exact HW. } { lia. } { lia. } { lia. }
    { cbn [buffers set_icy set_buffers]. rewrite HP, length_skipn. lia. }
    cbn [buffers set_icy set_buffers icy] in HS, HP', HW', HI'.
    exists c', size'. rewrite HS.
    assert (Hsplit : taken
                     = (firstn (Z.to_nat n) (pending (b :: rest))
                        ++ firstn (Z.to_nat (size_ - n)) (pending bufs'))%list).
    { subst taken. rewrite HP, <- firstn_plus. f_equal. lia. }
    split; [|split; [|split]].
    + assert (HN : nbytes + n + Z.of_nat (List.length (firstn (Z.to_nat (size_ - n))
                                                               (pending bufs')))
                   = nbytes + Z.of_nat (List.length taken))
        by (rewrite Hsplit, length_app, (length_firstn (Z.to_nat n)); lia).
      assert (HD : ((dest ++ firstn (Z.to_nat n) (pending (b :: rest)))
                      ++ firstn (Z.to_nat (size_ - n)) (pending bufs'))%list
                   = (dest ++ taken)%list)
        by (rewrite Hsplit; symmetry; apply app_assoc).
      rewrite HN, HD. reflexivity.
    + rewrite HP', HP, skipn_skipn. f_equal. lia.
    + exact HW'.
    + exact HI'.
Qed.


Lemma read_takes_front (c : input_curl) (size_ : Z) :
  Forall buf_wf (buffers c) ->
  IcyMetaDataParser.IsDefined (icy c) = false ->
  postponed_error c = None ->
  is_empty (buffers c) = false ->
  0 < size_ < SIZE_MODULUS ->
  let taken := firstn (Z.to_nat size_) (pending (buffers c)) in
  exists c' eff,
    input_curl_read icy_parse_tag c size_
    = Ok (ReadBytes (Z.of_nat (List.length taken)) taken, c', eff)
    /\ taken <> []
    /\ pending (buffers c') = skipn (Z.to_nat size_) (pending (buffers c))
    /\ offset (base c')
       = goffset_of (offset (base c) + goffset_of (Z.of_nat (List.length taken)))
    /\ icy c' = icy c /\ postponed_error c' = None.
Proof.
  intros Hwf Hdef Herr He Hsz taken.
  pose proof (pending_nonempty _ Hwf He) as Hpos.
  assert (Htaken : (0 < List.length taken)%nat).
  { subst taken. rewrite length_firstn. lia. }
  destruct (send_buffer_contents_plain (List.length (pending (buffers c)))
              c size_ 0 [] Hdef Hwf ltac:(lia) ltac:(lia) ltac:(lia) (le_n _))
    as (c1 & size' & HS & HP & HW & HI).
  fold taken in HS. cbn [app] in HS. rewrite Z.add_0_l in HS.
  assert (Hloop : read_loop icy_parse_tag 2 c size_
                  = Ok (ReadBytes (Z.of_nat (List.length taken)) taken, c1)).
  { cbn [read_loop]. unfold fill_buffer. rewrite He, andb_false_r, Herr.
    cbn [negb]. rewrite <- (pending_length _ Hwf), Nat2Z.id, HS. cbn [bind].
    destruct (Z.eqb_spec (Z.of_nat (List.length taken)) 0) as [E|E]; [lia|].
    reflexivity. }
  destruct (input_curl_read icy_parse_tag c size_) as [[[out c'] eff]| |] eqn:HR.
  2,3: unfold input_curl_read in HR; rewrite Hloop in HR; cbn [bind] in HR;
       destruct (paused _ && _); discriminate HR.
  pose proof (input_curl_read_spec _ _ _ _ _ _ HR) as (_ & _ & Hout & _).
  unfold input_curl_read in HR. rewrite Hloop in HR. cbn [bind] in HR.
  rewrite HI, Hdef in HR.
  assert (Hc' : out = ReadBytes (Z.of_nat (List.length taken)) taken
                /\ buffers c' = buffers c1 /\ icy c' = icy c1
                /\ postponed_error c' = postponed_error c1).
  { destruct (paused _ && _) in HR; injection HR as <- <- <-; auto.
    unfold input_curl_resume. destruct (paused _); auto. }
  destruct Hc' as (-> & Hb & Hi & Hp). destruct Hout as [_ Hbase].
  assert (Herr1 : postponed_error c1 = None).
  { apply send_buffer_contents_spec in HS; [|lia].
    destruct HS as (_ & _ & _ & _ & HS & _). congruence. }
  exists c', eff. split; [reflexivity|]. split.
  - intros E. rewrite E in Htaken. cbn in Htaken. lia.
  - split; [rewrite Hb; exact HP|]. split; [rewrite Hbase; reflexivity|].
    split; congruence.
Qed.

(** X1: A read on a stream without inline metadata returns the first
    [min size available] of the buffered bytes, in the order of arrival,
    and leaves the others buffered; the offset moves by that count. *)
Theorem read_delivers_in_order (c : input_curl) (size_ : Z) :
  Forall buf_wf (buffers c) ->
  IcyMetaDataParser.IsDefined (icy c) = false ->
  postponed_error c = None ->
  is_empty (buffers c) = false ->
  0 < size_ < SIZE_MODULUS ->
  let taken := firstn (Z.to_nat size_) (pending (buffers c)) in
  exists c' eff,
    input_curl_read icy_parse_tag c size_
    = Ok (ReadBytes (Z.of_nat (List.length taken)) taken, c', eff)
    /\ taken <> []
    /\ pending (buffers c') = skipn (Z.to_nat size_) (pending (buffers c))
    /\ offset (base c')
       = goffset_of (offset (base c) + goffset_of (Z.of_nat (List.length taken)))
    /\ icy c' = icy c /\ postponed_error c' = None.
Proof. exact (read_takes_front c size_). Qed.

End PlainReading.

Lemma pending_app (a b : list CurlInputBuffer) :
  pending (a ++ b) = (pending a ++ pending b)%list.
Proof. unfold pending. now rewrite map_app, concat_app. Qed.

Lemma pending_consume (b b' : CurlInputBuffer) (rest : list CurlInputBuffer)
      (len : Z) :
  buf_wf b -> Forall buf_wf rest ->
  0 < len <= CurlInputBuffer.size b - CurlInputBuffer.consumed b ->
  CurlInputBuffer.size b' = CurlInputBuffer.size b ->
  CurlInputBuffer.consumed b' = CurlInputBuffer.consumed b + len ->
  CurlInputBuffer.data b' = CurlInputBuffer.data b ->
  let bufs' := if CurlInputBuffer.consumed b + len <? CurlInputBuffer.size b
               then b' :: rest else rest in
  pending bufs' = skipn (Z.to_nat len) (pending (b :: rest))
  /\ Forall buf_wf bufs'.
Proof.
  intros Hb Hrest Hlen H1 H2 H3 bufs'. subst bufs'.
  pose proof (Begin_length b Hb) as HBl. pose proof Hb as (Hc & Hs & Hd).
  unfold pending. cbn [map List.concat]. rewrite skipn_app.
  replace (Z.to_nat len - List.length (CurlInputBuffer.Begin b))%nat with 0%nat by lia.
  cbn [skipn].
  destruct (CurlInputBuffer.consumed b + len <? CurlInputBuffer.size b) eqn:Hmore.
  - apply Z.ltb_lt in Hmore. split.
    + cbn [map List.concat]. f_equal. unfold CurlInputBuffer.Begin.
      rewrite H2, H3, skipn_skipn. f_equal. lia.
    + constructor; [|exact Hrest]. unfold buf_wf. rewrite H1, H2, H3. lia.
  - apply Z.ltb_ge in Hmore. split; [|exact Hrest].
    rewrite skipn_all2 by lia. reflexivity.
Qed.

(** The write callback takes a chunk whole or not at all. *)
Lemma writefunction_cases (c : input_curl) (ptr : list byte)
        (size_ nmemb : Z) :
  wf_event (EvWrite ptr size_ nmemb) -> buffered_ok (buffers c) ->
  0 < size_ * nmemb ->
  if curl_total_buffer_size c + size_ * nmemb <? CURL_MAX_BUFFERED then
    exists c',
      input_curl_writefunction c ptr size_ nmemb = (size_ * nmemb, c')
      /\ pending (buffers c') = (pending (buffers c) ++ ptr)%list
      /\ ready (base c') = true /\ paused c' = paused c /\ easy c' = easy c
  else
    input_curl_writefunction c ptr size_ nmemb
    = (CURL_WRITEFUNC_PAUSE, set_paused true c).
Proof.
  intros (H1 & H2 & H3 & H4) Hok Hpos.
  pose proof (curl_total_buffer_size_sum c Hok) as Hsum.
  destruct Hok as [Hall Hlt]. pose proof (sum_sizes_nonneg _ Hall) as Hnn.
  unfold input_curl_writefunction.
  rewrite (size_t_small (size_ * nmemb))
    by (unfold SIZE_MODULUS, G_MAXINT64 in *; lia).
  destruct (Z.eqb_spec (size_ * nmemb) 0) as [E|_]; [lia|].
  rewrite (size_t_small (curl_total_buffer_size c + size_ * nmemb))
    by (unfold SIZE_MODULUS, G_MAXINT64, CURL_MAX_BUFFERED in *; lia).
  destruct (Z.ltb_spec (curl_total_buffer_size c + size_ * nmemb) CURL_MAX_BUFFERED)
    as [Hlt'|Hge].
  - destruct (Z.leb_spec CURL_MAX_BUFFERED (curl_total_buffer_size c + size_ * nmemb));
      [lia|].
    eexists. split; [reflexivity|]. cbn [buffers set_buffers with_base base paused easy
                                          ready set_ready].
    split; [|auto]. rewrite pending_app. f_equal.
    unfold pending, CurlInputBuffer.make, CurlInputBuffer.Begin. cbn.
    rewrite app_nil_r. apply firstn_all2. lia.
  - destruct (Z.leb_spec CURL_MAX_BUFFERED (curl_total_buffer_size c + size_ * nmemb));
      [reflexivity|lia].
Qed.

(** X2: The write callback takes a chunk whole or not at all: below the
    limit it appends all its bytes behind the buffered ones and reports
    them; otherwise it buffers nothing and asks for a pause. *)
Theorem write_appends_or_pauses (c : input_curl) (ptr : list byte)
        (size_ nmemb : Z) :
  wf_event (EvWrite ptr size_ nmemb) -> buffered_ok (buffers c) ->
  0 < size_ * nmemb ->
  if curl_total_buffer_size c + size_ * nmemb <? CURL_MAX_BUFFERED then
    exists c',
      input_curl_writefunction c ptr size_ nmemb = (size_ * nmemb, c')
      /\ pending (buffers c') = (pending (buffers c) ++ ptr)%list
      /\ ready (base c') = true /\ paused c' = paused c /\ easy c' = easy c
  else
    input_curl_writefunction c ptr size_ nmemb
    = (CURL_WRITEFUNC_PAUSE, set_paused true c).
Proof. exact (writefunction_cases c ptr size_ nmemb). Qed.

Section ReadEdges.

Variable icy_parse_tag : list byte -> option struct_tag.

(** A latched error comes before buffered data, once. *)
Lemma read_error_first (c : input_curl) (size_ : Z) (e : GError) :
  postponed_error c = Some e ->
  is_null (easy c) = true \/ is_empty (buffers c) = false ->
  input_curl_read icy_parse_tag c size_
  = Ok (ReadZero (Some e), set_postponed_error None c, [])
  /\ input_curl_check (set_postponed_error None c)
     = (true, None, set_postponed_error None c).
Proof.
  intros He Hav. split; [|reflexivity].
  unfold input_curl_read. cbn [read_loop]. unfold fill_buffer.
  assert (E : negb (is_null (easy c)) && is_empty (buffers c) = false).
  { destruct Hav as [-> | ->]; [reflexivity | apply andb_false_r]. }
  rewrite E, He. reflexivity.
Qed.

(** X3: A latched error comes before buffered data: the read returns 0 with
    the error, hands it over once and leaves the buffers alone. *)
Theorem read_surfaces_error_first (c : input_curl) (size_ : Z) (e : GError) :
  postponed_error c = Some e ->
  is_null (easy c) = true \/ is_empty (buffers c) = false ->
  input_curl_read icy_parse_tag c size_
  = Ok (ReadZero (Some e), set_postponed_error None c, [])
  /\ input_curl_check (set_postponed_error None c)
     = (true, None, set_postponed_error None c).
Proof. exact (read_error_first c size_ e). Qed.

Lemma read_no_data (c : input_curl) (size_ : Z) :
  is_empty (buffers c) = true -> postponed_error c = None ->
  input_curl_read icy_parse_tag c size_
  = Ok (if input_curl_eof c then ReadZero None else ReadBlocked, c, []).
Proof.
  intros He Herr. unfold input_curl_read, input_curl_eof. cbn [read_loop].
  unfold fill_buffer. rewrite He, Herr, !andb_true_r.
  destruct (is_null (easy c)); reflexivity.
Qed.

(** X4: With nothing buffered and no error latched, a read returns 0 when the
    transfer is over and waits otherwise; the stream is left as it is. *)
Theorem read_without_data (c : input_curl) (size_ : Z) :
  is_empty (buffers c) = true -> postponed_error c = None ->
  input_curl_read icy_parse_tag c size_
  = Ok (if input_curl_eof c then ReadZero None else ReadBlocked, c, []).
Proof. exact (read_no_data c size_). Qed.

End ReadEdges.

Lemma pending_nil_buffers (bufs : list CurlInputBuffer) :
  Forall buf_wf bufs -> pending bufs = [] -> bufs = [].
Proof.
  intros Hwf Hp. destruct bufs as [|b rest]; [reflexivity|].
  pose proof (pending_nonempty _ Hwf eq_refl) as H. rewrite Hp in H.
  cbn in H. lia.
Qed.

(** The fast-forward loop drops [min (t - offset) available] bytes from
    the front of the buffered bytes and moves the offset by as much. *)
Lemma seek_fast_forward_skips (fuel : nat) (t : Z) :
  forall c,
    Forall buf_wf (buffers c) ->
    Forall (fun b => CurlInputBuffer.size b < CURL_MAX_BUFFERED) (buffers c) ->
    0 <= offset (base c) <= t -> t <= G_MAXINT64 ->
    (List.length (buffers c) <= fuel)%nat \/ offset (base c) = t ->
    let d := Z.min (t - offset (base c)) (total_available (buffers c)) in
    exists c1,
      seek_fast_forward fuel c t = Ok c1
      /\ offset (base c1) = offset (base c) + d
      /\ pending (buffers c1) = skipn (Z.to_nat d) (pending (buffers c))
      /\ Forall buf_wf (buffers c1).
Proof.
  induction fuel as [|fuel IH]; intros c Hall Hsz Hoff Ht Hfuel d.
  - pose proof (pending_length _ Hall) as HPL.
    exists c. cbn [seek_fast_forward].
    destruct (buffers c) as [|b rest] eqn:Hb.
    + subst d. cbn [total_available fold_right]. rewrite Z.min_r by lia.
      cbn. split; [reflexivity|]. split; [lia|]. auto.
    + destruct Hfuel as [Hfuel|Hfuel]; [cbn in Hfuel; lia|].
      subst d. rewrite Hfuel, Z.ltb_irrefl, Z.sub_diag, Z.min_l by lia.
      cbn [Z.to_nat skipn]. split; [reflexivity|]. split; [lia|]. auto.
  - cbn [seek_fast_forward].
    destruct (buffers c) as [|b rest] eqn:Hb.
    { exists c. subst d. cbn [total_available fold_right]. rewrite Z.min_r by lia.
      rewrite ?Hb. cbn. split; [reflexivity|]. split; [lia|]. auto. }
    pose proof (pending_length _ Hall) as HPL.
    destruct (Z.ltb_spec (offset (base c)) t) as [Hlt|Hge].
    2:{ exists c. subst d. rewrite Z.min_l by lia.
        replace (t - offset (base c)) with 0 by lia. rewrite ?Hb. cbn [Z.to_nat skipn].
        split; [reflexivity|]. split; [lia|]. auto. }
    inversion Hall as [|? ? Hwb Hwrest]; subst.
    inversion Hsz as [|? ? Hsb Hsrest]; subst.
    pose proof Hwb as (Hc & Hs & Hd).
    rewrite (Available_wf b Hwb).
    set (a := CurlInputBuffer.size b - CurlInputBuffer.consumed b) in *.
    rewrite (goffset_of_small (t - offset (base c)))
      by (unfold G_MININT64, G_MAXINT64 in *; lia).
    rewrite (goffset_of_small a)
      by (unfold a, G_MININT64, G_MAXINT64, CURL_MAX_BUFFERED in *; lia).
    rewrite (size_t_small (t - offset (base c)))
      by (unfold SIZE_MODULUS, G_MAXINT64 in *; lia).
    set (len := if t - offset (base c) <? a then t - offset (base c) else a).
    assert (Hlen : len = Z.min (t - offset (base c)) a)
      by (unfold len; destruct (Z.ltb_spec (t - offset (base c)) a); lia).
    destruct (Consume_ok b len Hwb ltac:(unfold a in *; lia)) as (b' & HC & H1 & H2 & H3).
    rewrite HC. cbn [bind].
    destruct (pending_consume b b' rest len Hwb Hwrest ltac:(unfold a in *; lia) H1 H2 H3)
      as [HP HW].
    set (bufs' := if CurlInputBuffer.consumed b + len <? CurlInputBuffer.size b
                  then b' :: rest else rest) in *.
    set (c2 := with_base (set_offset (goffset_of (offset (base (set_buffers bufs' c)) + len)))
                         (set_buffers bufs' c)).
    assert (Hoff2 : offset (base c2) = offset (base c) + len).
    { unfold c2. cbn. apply goffset_of_small.
      unfold G_MININT64, G_MAXINT64 in *. lia. }
    assert (Hbuf2 : buffers c2 = bufs') by reflexivity.
    assert (Hsz2 : Forall (fun b => CurlInputBuffer.size b < CURL_MAX_BUFFERED) bufs').
    { unfold bufs'.
      destruct (CurlInputBuffer.consumed b + len <? CurlInputBuffer.size b);
        [|exact Hsrest].
      constructor; [rewrite H1; exact Hsb | exact Hsrest]. }
    assert (Hlen2 : (List.length bufs' <= fuel)%nat \/ offset (base c2) = t).
    { unfold bufs'. destruct Hfuel as [Hfuel|Hfuel]; [|lia].
      cbn [List.length] in Hfuel.
      destruct (CurlInputBuffer.consumed b + len <? CurlInputBuffer.size b) eqn:Hm;
        cbn [List.length]; [|left; lia].
      apply Z.ltb_lt in Hm. right. unfold a in *. lia. }
    destruct (IH c2) as (c1 & HS & HO & HPc & HWc).
    { rewrite Hbuf2. exact HW. } { rewrite Hbuf2. exact Hsz2. }
    { rewrite Hoff2. lia. } { exact Ht. } { rewrite Hbuf2. exact Hlen2. }
    exists c1. split; [exact HS|].
    rewrite Hoff2, Hbuf2 in HO. rewrite Hoff2, Hbuf2 in HPc.
    pose proof (pending_length _ HW) as HPL2. rewrite HP, length_skipn in HPL2.
    assert (Hab : Z.of_nat (List.length (pending (b :: rest))) >= a).
    { unfold pending. cbn [map List.concat]. rewrite length_app.
      pose proof (Begin_length b Hwb). unfold a. lia. }
    subst d. split; [lia|]. split; [|exact HWc].
    rewrite HPc, HP, skipn_skipn. f_equal. lia.
Qed.

Lemma total_available_le_sum (bufs : list CurlInputBuffer) :
  Forall buf_wf bufs -> 0 <= total_available bufs <= sum_sizes bufs.
Proof.
  induction 1 as [|b rest Hb Hrest IH]; [cbn; lia|].
  change (total_available (b :: rest))
    with (CurlInputBuffer.Available b + total_available rest).
  change (sum_sizes (b :: rest)) with (CurlInputBuffer.size b + sum_sizes rest).
  rewrite (Available_wf b Hb). destruct Hb as (Hc & _). lia.
Qed.

Section SeekFacts.

Variable G : curl_globals.

(** X5: A seek forward to a position that is buffered is served from the
    buffers. *)
Theorem seek_within_buffer (ans : curl_answers) (c : input_curl)
        (offset_ whence k : Z) :
  ready (base c) = true -> seekable (base c) = true ->
  Forall buf_wf (buffers c) -> buffered_ok (buffers c) ->
  0 <= offset (base c) ->
  0 < k <= total_available (buffers c) ->
  offset (base c) + k <= G_MAXINT64 ->
  (whence = SEEK_SET /\ offset_ = offset (base c) + k)
  \/ (whence = SEEK_CUR /\ offset_ = k) ->
  exists c',
    input_curl_seek G ans c offset_ whence = Ok (SeekReturn true None, c', [])
    /\ offset (base c') = offset (base c) + k
    /\ pending (buffers c') = skipn (Z.to_nat k) (pending (buffers c))
    /\ easy c' = easy c.
Proof.
  intros Hready Hseek Hwf Hok Hoff Hk Hmax Hwh.
  pose proof (curl_total_buffer_size_sum c Hok) as Hsum.
  pose proof (total_available_le_sum _ Hwf) as Hta.
  assert (Hlt : sum_sizes (buffers c) < CURL_MAX_BUFFERED) by apply Hok.
  set (t := offset (base c) + k).
  assert (Ht : t <= G_MAXINT64) by exact Hmax.
  destruct (seek_fast_forward_skips (S (List.length (buffers c))) t c Hwf
              (buffered_ok_sizes _ Hok) ltac:(unfold t; lia) Ht ltac:(left; lia))
    as (c1 & HS & HO & HP & HW).
  cbv zeta in HO, HP.
  replace (Z.min (t - offset (base c)) (total_available (buffers c))) with k in HO, HP
    by (unfold t; lia).
  pose proof (seek_fast_forward_keeps _ _ _ _ HS) as (_ & _ & He & _).
  exists c1. unfold input_curl_seek. rewrite Hready, Hseek.
  cbn [assert bind negb].
  assert (Htarget :
            (if whence =? SEEK_SET then Some offset_
             else if whence =? SEEK_CUR
                  then Some (goffset_of (offset_ + offset (base c)))
                  else if whence =? SEEK_END
                       then if size (base c) <? 0 then None
                            else Some (goffset_of (offset_ + size (base c)))
                       else None) = Some t
            /\ (whence =? SEEK_SET) && (offset_ =? offset (base c)) = false).
  { destruct Hwh as [[-> ->]|[-> ->]].
    - cbn. split; [reflexivity|]. apply Z.eqb_neq. lia.
    - cbn. split; [|reflexivity]. f_equal. unfold t.
      rewrite goffset_of_small; unfold G_MININT64, G_MAXINT64 in *; lia. }
  destruct Htarget as [-> ->].
  destruct (Z.ltb_spec t 0) as [Hneg|_]; [unfold t in Hneg; lia|].
  rewrite HS. cbn [bind]. rewrite HO. fold t. rewrite Z.eqb_refl.
  auto.
Qed.


End SeekFacts.

(** The end of a transfer: success is a 2xx status with CURLE_OK. *)
Lemma handle_done_outcome (c : input_curl) (result status : Z) :
  is_null (easy c) = false -> postponed_error c = None ->
  exists c',
    input_curl_handle_done c result status = Ok c'
    /\ easy c' = None /\ ready (base c') = true
    /\ buffers c' = buffers c /\ offset (base c') = offset (base c)
    /\ postponed_error c'
       = (if negb (result =? CURLE_OK) then
            Some (g_error_new curl_quark result
                              ("curl failed: " ++ cstr (error c))%string)
          else if (200 <=? status) && (status <? 300) then None
          else Some (g_error_new curl_quark 0
                                 ("got HTTP status " ++ string_of_Z status)%string))
    /\ (postponed_error c' = None <-> result = CURLE_OK /\ 200 <= status < 300).
Proof.
  intros He Herr.
  assert (Hfree : postponed_error (input_curl_easy_free c) = None
                  /\ buffers (input_curl_easy_free c) = buffers c
                  /\ error (input_curl_easy_free c) = error c).
  { unfold input_curl_easy_free. destruct (easy c); cbn; auto. }
  destruct Hfree as (F1 & F2 & F3).
  unfold input_curl_handle_done, input_curl_request_done, assert.
  rewrite He. cbn [negb bind]. rewrite input_curl_easy_free_null, F1.
  cbn [is_null bind]. eexists. split; [reflexivity|].
  rewrite F3.
  destruct (Z.eqb_spec result CURLE_OK) as [Hr|Hr]; cbn [negb].
  - destruct (Z.ltb_spec status 200) as [H2|H2];
      destruct (Z.leb_spec 300 status) as [H3|H3];
      destruct (Z.leb_spec 200 status) as [H4|H4]; try lia;
      destruct (Z.ltb_spec status 300) as [H5|H5]; try lia;
      cbn [orb andb postponed_error with_base set_postponed_error easy base ready
           set_ready buffers offset];
      rewrite ?input_curl_easy_free_null, ?input_curl_easy_free_base, ?F1, ?F2;
      repeat (split; [reflexivity|]);
      (split; [intros H; first [discriminate H | split; [assumption | lia]]
              | intros [_ H]; first [reflexivity | lia]]).
  - cbn [postponed_error with_base set_postponed_error easy base ready
         set_ready buffers offset].
    rewrite ?input_curl_easy_free_null, ?input_curl_easy_free_base, ?F2.
    repeat (split; [reflexivity|]).
    split; [intros H; discriminate H | intros [H _]; contradiction].
Qed.

(** X7: The end of a transfer frees the handle and marks the stream ready;
    it latches an error unless libcurl reports success and the HTTP
    status is 2xx. *)
Theorem handle_done_classifies (c : input_curl) (result status : Z) :
  is_null (easy c) = false -> postponed_error c = None ->
  exists c',
    input_curl_handle_done c result status = Ok c'
    /\ easy c' = None /\ ready (base c') = true
    /\ buffers c' = buffers c /\ offset (base c') = offset (base c)
    /\ postponed_error c'
       = (if negb (result =? CURLE_OK) then
            Some (g_error_new curl_quark result
                              ("curl failed: " ++ cstr (error c))%string)
          else if (200 <=? status) && (status <? 300) then None
          else Some (g_error_new curl_quark 0
                                 ("got HTTP status " ++ string_of_Z status)%string))
    /\ (postponed_error c' = None <-> result = CURLE_OK /\ 200 <= status < 300).
Proof. exact (handle_done_outcome c result status). Qed.

Section OpenFacts.

Variable G : curl_globals.

(** X8: For an http:// URI open() returns a stream or NULL with an error, and a
    stream it does not return is deleted. *)
Theorem input_curl_open_http (ans : curl_answers) (url : string) :
  prefix "http://" url = true ->
  match input_curl_open G ans url with
  | Ok (OpenStream c, eff) =>
      eff = [New_input_curl; Io_thread_call IO_easy_add]
      /\ base c = input_stream_init url
      /\ buffers c = [] /\ postponed_error c = None
      /\ (exists opts, easy c = Some opts /\ In (CURLOPT_URL url) opts
                       /\ In (CURLOPT_HTTPHEADER ["Icy-Metadata: 1"%string]) opts)
      /\ curl_easy_init_handle ans = true
      /\ curl_setopt_url ans = CURLE_OK /\ curl_multi_add_handle ans = CURLM_OK
  | Ok (OpenNull err, eff) =>
      (exists e, err = Some e /\ domain e = curl_quark)
      /\ hd_error eff = Some New_input_curl
      /\ last eff New_input_curl = Delete_input_curl
      /\ In (Io_thread_call IO_easy_free) eff
  | _ => False
  end.
Proof.
  intros Hpre. unfold input_curl_open, strncmp.
  change (cstr "http://") with "http://"%string.
  change (Z.to_nat 7) with (String.length "http://").
  rewrite strncmp_loop_prefix by reflexivity.
  rewrite Hpre. cbn [negb].
  unfold input_curl_easy_init.
  destruct (curl_easy_init_handle ans) eqn:Hinit; cbn [negb].
  2:{ cbn. split; [eexists; split; reflexivity|]. auto. }
  destruct (Z.eqb_spec (curl_setopt_url ans) CURLE_OK) as [Hurl|Hurl]; cbn [negb].
  2:{ cbn. split; [eexists; split; reflexivity|]. auto. }
  unfold input_curl_easy_add_indirect, assert.
  cbn [easy set_request_headers set_easy is_null negb bind].
  destruct (Z.eqb_spec (curl_multi_add_handle ans) CURLM_OK) as [Hadd|Hadd];
    cbn [negb bind].
  - split; [reflexivity|]. split; [reflexivity|]. split; [reflexivity|].
    split; [reflexivity|]. split; [|auto].
    eexists. split; [reflexivity|]. cbn [base input_curl_new uri input_stream_init].
    rewrite !in_app_iff. split; right; cbn; auto.
  - cbn. split; [eexists; split; reflexivity|]. tauto.
Qed.

(** The proxy options of a transfer. *)
Lemma easy_init_options (ans : curl_answers) (c : input_curl) (opts : CURL) :
  easy (snd (input_curl_easy_init G ans c)) = Some opts ->
  (forall s, In (CURLOPT_PROXYUSERPWD s) opts
             <-> exists u p, proxy_user G = Some u /\ proxy_password G = Some p
                             /\ s = (u ++ ":" ++ p)%string)
  /\ (forall n, In (CURLOPT_PROXYPORT n) opts <-> 0 < proxy_port G /\ n = proxy_port G)
  /\ (forall s, In (CURLOPT_PROXY s) opts <-> proxy G = Some s)
  /\ In (CURLOPT_MAXREDIRS 5) opts /\ In (CURLOPT_FAILONERROR true) opts
  /\ In (CURLOPT_CONNECTTIMEOUT 10) opts.
Proof.
  unfold input_curl_easy_init.
  destruct (curl_easy_init_handle ans); cbn [negb]; [|discriminate].
  set (fixed := [CURLOPT_USERAGENT _; CURLOPT_HEADERFUNCTION; CURLOPT_WRITEHEADER;
                 CURLOPT_WRITEFUNCTION; CURLOPT_WRITEDATA; CURLOPT_HTTP200ALIASES _;
                 CURLOPT_FOLLOWLOCATION 1; CURLOPT_NETRC 1; CURLOPT_MAXREDIRS 5;
                 CURLOPT_FAILONERROR true; CURLOPT_ERRORBUFFER; CURLOPT_NOPROGRESS 1;
                 CURLOPT_NOSIGNAL 1; CURLOPT_CONNECTTIMEOUT 10]).
  set (p1 := match proxy G with Some p => [CURLOPT_PROXY p] | None => [] end).
  set (p2 := if 0 <? proxy_port G then [CURLOPT_PROXYPORT (proxy_port G)] else []).
  set (p3 := match proxy_user G, proxy_password G with
             | Some u, Some p => [CURLOPT_PROXYUSERPWD (u ++ ":" ++ p)]
             | _, _ => []
             end).
  assert (Hfixed : forall o, In o fixed ->
                             match o with
                             | CURLOPT_PROXY _ | CURLOPT_PROXYPORT _
                             | CURLOPT_PROXYUSERPWD _ => False
                             | _ => True
                             end).
  { intros o Ho. unfold fixed in Ho. cbn in Ho.
    repeat (destruct Ho as [<-|Ho]; [exact I|]). destruct Ho. }
  assert (H1 : forall s, In (CURLOPT_PROXY s) (fixed ++ p1 ++ p2 ++ p3)
                         <-> proxy G = Some s).
  { intros s. rewrite !in_app_iff. unfold p1, p2, p3. split.
    - intros [H|[H|[H|H]]].
      + apply Hfixed in H. destruct H.
      + destruct (proxy G); cbn in H; [destruct H as [[= ->]|[]]; reflexivity | destruct H].
      + destruct (0 <? proxy_port G); cbn in H; [destruct H as [H|[]]; discriminate H | destruct H].
      + destruct (proxy_user G), (proxy_password G); cbn in H;
          try destruct H as [H|[]]; try discriminate H; destruct H.
    - intros ->. right. left. cbn. auto. }
  assert (H2 : forall n, In (CURLOPT_PROXYPORT n) (fixed ++ p1 ++ p2 ++ p3)
                         <-> 0 < proxy_port G /\ n = proxy_port G).
  { intros n. rewrite !in_app_iff. unfold p1, p2, p3. split.
    - intros [H|[H|[H|H]]].
      + apply Hfixed in H. destruct H.
      + destruct (proxy G); cbn in H; [destruct H as [H|[]]; discriminate H | destruct H].
      + destruct (Z.ltb_spec 0 (proxy_port G)); cbn in H;
          [destruct H as [[= <-]|[]]; auto | destruct H].
      + destruct (proxy_user G), (proxy_password G); cbn in H;
          try destruct H as [H|[]]; try discriminate H; destruct H.
    - intros [Hp ->]. right. right. left.
      destruct (Z.ltb_spec 0 (proxy_port G)); [cbn; auto | lia]. }
  assert (H3 : forall s, In (CURLOPT_PROXYUSERPWD s) (fixed ++ p1 ++ p2 ++ p3)
                         <-> exists u p, proxy_user G = Some u
                                         /\ proxy_password G = Some p
                                         /\ s = (u ++ ":" ++ p)%string).
  { intros s. rewrite !in_app_iff. unfold p1, p2, p3. split.
    - intros [H|[H|[H|H]]].
      + apply Hfixed in H. destruct H.
      + destruct (proxy G); cbn in H; [destruct H as [H|[]]; discriminate H | destruct H].
      + destruct (0 <? proxy_port G); cbn in H; [destruct H as [H|[]]; discriminate H | destruct H].
      + destruct (proxy_user G) as [u|], (proxy_password G) as [p|]; cbn in H;
          try destruct H as [[= <-]|[]]; try destruct H.
        exists u, p. auto.
    - intros (u & p & -> & -> & ->). right. right. right. cbn. auto. }
  destruct (negb (curl_setopt_url ans =? CURLE_OK)); cbn [snd easy set_easy set_request_headers].
  - intros [= <-]. split; [exact H3|]. split; [exact H2|]. split; [exact H1|].
    split; [|split]; cbn; auto 20.
  - intros [= <-].
    assert (Hx : forall o, match o with
                           | CURLOPT_PROXY _ | CURLOPT_PROXYPORT _
                           | CURLOPT_PROXYUSERPWD _ => True
                           | _ => False
                           end ->
                           In o ((fixed ++ p1 ++ p2 ++ p3)
                                   ++ [CURLOPT_URL (uri (base c));
                                       CURLOPT_HTTPHEADER ["Icy-Metadata: 1"%string]])
                           <-> In o (fixed ++ p1 ++ p2 ++ p3)).
    { intros o Ho. rewrite (in_app_iff (fixed ++ p1 ++ p2 ++ p3)). split; [|auto].
      intros [H|H]; [exact H|]. cbn in H.
      destruct H as [<-|[<-|[]]]; destruct Ho. }
    split; [intros s; etransitivity;
            [exact (Hx (CURLOPT_PROXYUSERPWD s) I) | apply H3]|].
    split; [intros n; etransitivity;
            [exact (Hx (CURLOPT_PROXYPORT n) I) | apply H2]|].
    split; [intros s; etransitivity;
            [exact (Hx (CURLOPT_PROXY s) I) | apply H1]|].
    split; [|split]; cbn; auto 20.
Qed.

(** X9: The options of a transfer: proxy credentials are set only when both
    the user and the password are configured, in the form user:password;
    the proxy port only when it is positive; redirects are followed at
    most 5 times, HTTP errors fail the transfer and connecting times out
    after 10 seconds. *)
Theorem easy_init_proxy_options (ans : curl_answers) (c : input_curl) (opts : CURL) :
  easy (snd (input_curl_easy_init G ans c)) = Some opts ->
  (forall s, In (CURLOPT_PROXYUSERPWD s) opts
             <-> exists u p, proxy_user G = Some u /\ proxy_password G = Some p
                             /\ s = (u ++ ":" ++ p)%string)
  /\ (forall n, In (CURLOPT_PROXYPORT n) opts <-> 0 < proxy_port G /\ n = proxy_port G)
  /\ (forall s, In (CURLOPT_PROXY s) opts <-> proxy G = Some s)
  /\ In (CURLOPT_MAXREDIRS 5) opts /\ In (CURLOPT_FAILONERROR true) opts
  /\ In (CURLOPT_CONNECTTIMEOUT 10) opts.
Proof. exact (easy_init_options ans c opts). Qed.

End OpenFacts.

(** X10: The header callback never aborts the transfer. *)
Theorem headerfunction_never_aborts (c : input_curl) (ptr : string)
        (size_ nmemb : Z) :
  fst (input_curl_headerfunction c ptr size_ nmemb) = size_t (size_ * nmemb)
  /\ let c' := snd (input_curl_headerfunction c ptr size_ nmemb) in
     buffers c' = buffers c /\ offset (base c') = offset (base c)
     /\ ready (base c') = ready (base c) /\ easy c' = easy c
     /\ paused c' = paused c /\ postponed_error c' = postponed_error c.
Proof.
  cbv zeta. unfold input_curl_headerfunction, input_curl_headerfunction_writes.
  destruct (memchr ptr ":" (Z.to_nat (size_t (size_ * nmemb)))) as [colon|];
    [|cbn; auto 10].
  repeat split_if; cbn; auto 10.
Qed.

Lemma FD_ISSET_CLR_same (fd : Z) (s : CurlSockets.fd_set) :
  CurlSockets.FD_ISSET fd (CurlSockets.FD_CLR fd s) = false.
Proof.
  unfold CurlSockets.FD_ISSET, CurlSockets.FD_CLR.
  induction s as [|x s IH]; [reflexivity|]. cbn.
  destruct (Z.eqb_spec fd x) as [->|Hne]; cbn; [exact IH|].
  destruct (Z.eqb_spec fd x); [contradiction | exact IH].
Qed.

Lemma FD_ISSET_CLR_other (fd fd' : Z) (s : CurlSockets.fd_set) :
  fd' <> fd ->
  CurlSockets.FD_ISSET fd' (CurlSockets.FD_CLR fd s) = CurlSockets.FD_ISSET fd' s.
Proof.
  intros Hne. unfold CurlSockets.FD_ISSET, CurlSockets.FD_CLR.
  induction s as [|x s IH]; [reflexivity|]. cbn.
  destruct (Z.eqb_spec fd x) as [->|Hx]; cbn.
  - destruct (Z.eqb_spec fd' x); [contradiction | exact IH].
  - now rewrite IH.
Qed.

(** The event mask of a descriptor says in which sets it was, and the
    descriptor is taken out of the sets. *)
Lemma fd_events_facts (fd : Z) (rfds wfds efds : CurlSockets.fd_set) :
  let events := fst (CurlSockets.input_curl_fd_events fd (rfds, wfds, efds)) in
  let sets' := snd (CurlSockets.input_curl_fd_events fd (rfds, wfds, efds)) in
  let r := CurlSockets.FD_ISSET fd rfds in
  let w := CurlSockets.FD_ISSET fd wfds in
  let e := CurlSockets.FD_ISSET fd efds in
  (events =? 0) = negb (r || w || e)
  /\ (Z.land events CurlSockets.G_IO_IN =? 0) = negb r
  /\ (Z.land events CurlSockets.G_IO_OUT =? 0) = negb w
  /\ (Z.land events CurlSockets.G_IO_HUP =? 0) = negb (r || e)
  /\ (Z.land events CurlSockets.G_IO_ERR =? 0) = negb (r || w || e)
  /\ 0 <= events < 32
  /\ fst (CurlSockets.input_curl_fd_events fd sets') = 0
  /\ forall fd', fd' <> fd ->
       fst (CurlSockets.input_curl_fd_events fd' sets')
       = fst (CurlSockets.input_curl_fd_events fd' (rfds, wfds, efds)).
Proof.
  cbv zeta. unfold CurlSockets.input_curl_fd_events.
  destruct (CurlSockets.FD_ISSET fd rfds) eqn:Hr;
    destruct (CurlSockets.FD_ISSET fd wfds) eqn:Hw;
    destruct (CurlSockets.FD_ISSET fd efds) eqn:He;
    cbn [fst snd];
    rewrite ?FD_ISSET_CLR_same, ?Hr, ?Hw, ?He;
    (split; [reflexivity|]); (split; [reflexivity|]); (split; [reflexivity|]);
    (split; [reflexivity|]); (split; [reflexivity|]);
    (split; [vm_compute; split; [discriminate | reflexivity]|]);
    (split; [reflexivity|]);
    intros fd' Hne; rewrite ?(FD_ISSET_CLR_other fd fd') by exact Hne;
    destruct (CurlSockets.FD_ISSET fd' rfds), (CurlSockets.FD_ISSET fd' wfds),
      (CurlSockets.FD_ISSET fd' efds); reflexivity.
Qed.

(** X11: The event mask of a descriptor tells in which of the three sets it
    was; the call takes it out of the sets, so that a second call for it
    gives no events, and leaves the other descriptors alone. *)
Theorem input_curl_fd_events_spec (fd : Z) (rfds wfds efds : CurlSockets.fd_set) :
  let events := fst (CurlSockets.input_curl_fd_events fd (rfds, wfds, efds)) in
  let sets' := snd (CurlSockets.input_curl_fd_events fd (rfds, wfds, efds)) in
  let r := CurlSockets.FD_ISSET fd rfds in
  let w := CurlSockets.FD_ISSET fd wfds in
  let e := CurlSockets.FD_ISSET fd efds in
  (events =? 0) = negb (r || w || e)
  /\ (Z.land events CurlSockets.G_IO_IN =? 0) = negb r
  /\ (Z.land events CurlSockets.G_IO_OUT =? 0) = negb w
  /\ (Z.land events CurlSockets.G_IO_HUP =? 0) = negb (r || e)
  /\ (Z.land events CurlSockets.G_IO_ERR =? 0) = negb (r || w || e)
  /\ 0 <= events < 32
  /\ fst (CurlSockets.input_curl_fd_events fd sets') = 0
  /\ forall fd', fd' <> fd ->
       fst (CurlSockets.input_curl_fd_events fd' sets')
       = fst (CurlSockets.input_curl_fd_events fd' (rfds, wfds, efds)).
Proof. exact (fd_events_facts fd rfds wfds efds). Qed.

(** X12: The deadline of the socket bridge: after PrepareSockets() with a
    timeout of [t] milliseconds from libcurl, CheckSockets() reports true
    from [now + t * 1000] microseconds on; when curl_multi_timeout()
    fails there is no deadline, and the caller's timeout is left as it
    was. *)
Theorem CheckSockets_after_Prepare
        (s : CurlSockets.t) (a : CurlSockets.fdset_answer)
        (now mcode t timeout_r later : Z) :
  let s' := fst (CurlSockets.PrepareSockets s a now mcode t timeout_r) in
  let r := snd (CurlSockets.PrepareSockets s a now mcode t timeout_r) in
  (mcode = CURLM_OK -> 0 <= t -> 0 <= now -> now + t * 1000 <= G_MAXINT64 ->
   CurlSockets.CheckSockets s' later = (now + t * 1000 <=? later))
  /\ (mcode <> CURLM_OK ->
      CurlSockets.CheckSockets s' later = false /\ r = timeout_r
      /\ CurlSockets.absolute_timeout s'
         = CurlSockets.absolute_timeout (CurlSockets.UpdateSockets s a)).
Proof.
  cbv zeta. unfold CurlSockets.PrepareSockets, CurlSockets.CheckSockets. split.
  - intros -> Ht Hnow Hmax. change (CURLM_OK =? CURLM_OK) with true. cbv iota.
    assert (E1 : (0 <=? t) = true) by (apply Z.leb_le; lia). rewrite E1.
    cbn [fst CurlSockets.have_timeout CurlSockets.absolute_timeout andb].
    assert (E2 : (0 <=? (if t <? 10 then 10 else t)) = true)
      by (destruct (t <? 10); apply Z.leb_le; lia).
    rewrite E2. cbn [andb].
    rewrite (goffset_of_small (t * 1000))
      by (unfold G_MININT64, G_MAXINT64 in *; lia).
    rewrite goffset_of_small by (unfold G_MININT64, G_MAXINT64 in *; lia).
    reflexivity.
  - intros Hne. destruct (Z.eqb_spec mcode CURLM_OK) as [E|_]; [contradiction|].
    cbn. auto.
Qed.

Lemma of_uint_acc_mono (d : Decimal.uint) :
  forall p, (p <= Pos.of_uint_acc d p)%positive.
Proof.
  induction d; intros p; cbn [Pos.of_uint_acc]; try lia;
    match goal with
    | |- (_ <= Pos.of_uint_acc _ ?q)%positive => specialize (IHd q); lia
    end.
Qed.

Lemma all_digits_string_of_uint (d : Decimal.uint) :
  all_digits (NilEmpty.string_of_uint d) = true.
Proof. induction d; cbn [NilEmpty.string_of_uint all_digits]; auto. Qed.

Lemma parse_digits_acc (d : Decimal.uint) :
  forall p rest,
    Z.pos (Pos.of_uint_acc d p) <= G_MAXUINT64 ->
    parse_digits (NilEmpty.string_of_uint d ++ rest) (Z.pos p) false
    = parse_digits rest (Z.pos (Pos.of_uint_acc d p)) false.
Proof.
  induction d; intros p rest Hmax;
    cbn [NilEmpty.string_of_uint append Pos.of_uint_acc] in *;
    try reflexivity;
    match type of Hmax with
    | Z.pos (Pos.of_uint_acc _ ?q) <= _ =>
        pose proof (of_uint_acc_mono d q) as Hm;
        cbn [parse_digits]; change (is_digit _) with true; cbv iota;
        match goal with
        | |- context [G_MAXUINT64 <? ?a] =>
            replace a with (Z.pos q) by (vm_compute (code _); lia);
            destruct (Z.ltb_spec G_MAXUINT64 (Z.pos q)); [lia|]
        end;
        apply IHd; exact Hmax
    end.
Qed.

Lemma parse_digits_of_uint (d : Decimal.uint) :
  forall rest,
    Z.of_N (Pos.of_uint d) <= G_MAXUINT64 ->
    parse_digits (NilEmpty.string_of_uint d ++ rest) 0 false
    = parse_digits rest (Z.of_N (Pos.of_uint d)) false.
Proof.
  induction d; intros rest Hmax;
    cbn [NilEmpty.string_of_uint append Pos.of_uint] in *;
    try reflexivity.
  1:{ cbn [parse_digits]. change (is_digit "0") with true. cbv iota.
      change (0 * 10 + (code "0" - 48)) with 0.
      change (G_MAXUINT64 <? 0) with false. cbv iota. apply IHd. exact Hmax. }
  all: cbn [parse_digits]; change (is_digit _) with true; cbv iota;
    match goal with
    | |- context [G_MAXUINT64 <? ?a] =>
        let v := eval vm_compute in a in
        change a with v; change (G_MAXUINT64 <? v) with false; cbv iota
    end;
    cbn [Z.of_N] in *; apply parse_digits_acc; exact Hmax.
Qed.

Lemma append_empty_r (s : string) : (s ++ "")%string = s.
Proof. induction s as [|c s IH]; cbn; [reflexivity | now rewrite IH]. Qed.

Lemma is_digit_code (c : ascii) : is_digit c = true -> 48 <= code c <= 57.
Proof. unfold is_digit. intros H. apply andb_true_iff in H as [H1 H2]. lia. Qed.

Lemma is_digit_not_space (c : ascii) :
  is_digit c = true -> g_ascii_isspace c = false.
Proof.
  intros H. apply is_digit_code in H. unfold g_ascii_isspace.
  destruct (Z.eqb_spec (code c) 32); [lia|].
  destruct (Z.leb_spec 9 (code c)); destruct (Z.leb_spec (code c) 13);
    cbn; try reflexivity; lia.
Qed.

Lemma is_digit_not_NUL (c : ascii) : is_digit c = true -> Ascii.eqb c NUL = false.
Proof.
  intros H. apply is_digit_code in H.
  destruct (Ascii.eqb_spec c NUL) as [->|]; [change (code NUL) with 0 in H; lia | reflexivity].
Qed.

Lemma all_digits_cstr (s : string) : all_digits s = true -> cstr s = s.
Proof.
  induction s as [|c s IH]; [reflexivity|]. cbn [all_digits cstr].
  intros H. apply andb_true_iff in H as [Hc Hs].
  rewrite (is_digit_not_NUL c Hc), IH by exact Hs. reflexivity.
Qed.

(** The decimal digits of a number that a guint64 holds are read back as
    the number. *)
Lemma g_ascii_strtoull_digits (d : Decimal.uint) :
  d <> Decimal.Nil -> Z.of_N (Pos.of_uint d) <= G_MAXUINT64 ->
  g_ascii_strtoull (NilEmpty.string_of_uint d) = Z.of_N (Pos.of_uint d).
Proof.
  intros Hnil Hmax. unfold g_ascii_strtoull.
  pose proof (all_digits_string_of_uint d) as Hall.
  rewrite (all_digits_cstr _ Hall).
  pose proof (parse_digits_of_uint d "" Hmax) as HP.
  rewrite append_empty_r in HP.
  destruct (NilEmpty.string_of_uint d) as [|c r] eqn:Hs.
  { destruct d; cbn in Hs; congruence. }
  cbn [all_digits] in Hall. apply andb_true_iff in Hall as [Hc _].
  cbn [skip_spaces]. rewrite (is_digit_not_space c Hc).
  pose proof (is_digit_code c Hc) as Hcode.
  destruct (Z.eqb_spec (code c) 45); [lia|].
  destruct (Z.eqb_spec (code c) 43); [lia|].
  rewrite HP. reflexivity.
Qed.

Lemma string_of_Z_uint (n : Z) :
  0 <= n ->
  exists d, string_of_Z n = NilEmpty.string_of_uint d
            /\ d <> Decimal.Nil /\ Z.of_N (Pos.of_uint d) = n
            /\ Decimal.unorm d = d.
Proof.
  intros Hn. destruct n as [|p|p]; [| |lia].
  - exists (Decimal.D0 Decimal.Nil). repeat split; discriminate.
  - exists (Pos.to_uint p). unfold string_of_Z. cbn [Z.to_int NilZero.string_of_int].
    pose proof (DecimalPos.Unsigned.to_uint_nonnil p) as Hnn.
    split; [destruct (Pos.to_uint p); [contradiction|reflexivity..]|].
    split; [exact Hnn|]. split.
    + now rewrite DecimalPos.Unsigned.of_to.
    + rewrite <- (DecimalPos.Unsigned.to_of (Pos.to_uint p)).
      rewrite DecimalPos.Unsigned.of_to. reflexivity.
Qed.

(** printf("%lld") followed by g_ascii_strtoull(). *)
Lemma g_ascii_strtoull_string_of_Z (n : Z) :
  0 <= n <= G_MAXUINT64 -> g_ascii_strtoull (string_of_Z n) = n.
Proof.
  intros [H0 Hmax]. destruct (string_of_Z_uint n H0) as (d & -> & Hnil & Hv & _).
  rewrite g_ascii_strtoull_digits; [exact Hv | exact Hnil | lia].
Qed.

Lemma length_string_of_uint (d : Decimal.uint) :
  String.length (NilEmpty.string_of_uint d) = Decimal.nb_digits d.
Proof. induction d; cbn; auto. Qed.

Lemma of_uint_acc_lower (d : Decimal.uint) :
  forall p, Z.pos p * 10 ^ Z.of_nat (Decimal.nb_digits d)
            <= Z.pos (Pos.of_uint_acc d p).
Proof.
  induction d; intros p; cbn [Pos.of_uint_acc Decimal.nb_digits];
    [cbn; lia|..];
    rewrite Nat2Z.inj_succ, Z.pow_succ_r by lia;
    match goal with
    | |- _ <= Z.pos (Pos.of_uint_acc _ ?q) =>
        specialize (IHd q);
        pose proof (Z.pow_pos_nonneg 10 (Z.of_nat (Decimal.nb_digits d))
                                     ltac:(lia) ltac:(lia));
        nia
    end.
Qed.

Lemma to_uint_head (p : positive) :
  match Pos.to_uint p with
  | Decimal.Nil | Decimal.D0 _ => False
  | _ => True
  end.
Proof.
  pose proof (DecimalPos.Unsigned.to_of (Pos.to_uint p)) as Hn.
  rewrite DecimalPos.Unsigned.of_to in Hn. cbn [N.to_uint] in Hn.
  pose proof (DecimalPos.Unsigned.to_uint_nonnil p) as Hnn.
  pose proof (DecimalPos.Unsigned.to_uint_nonzero p) as Hnz.
  destruct (Pos.to_uint p) as [|l|l|l|l|l|l|l|l|l|l]; try exact I;
    [contradiction|].
  unfold Decimal.unorm in Hn. cbn [Decimal.nzhead] in Hn.
  pose proof (DecimalFacts.nb_digits_nzhead l) as Hle.
  destruct (Decimal.nzhead l) eqn:Hz; try discriminate Hn.
  - injection Hn as Hl. subst l. contradiction.
  - injection Hn as Hl. subst l. cbn [Decimal.nb_digits] in Hle. lia.
Qed.

Lemma string_of_Z_length (n : Z) :
  0 <= n <= G_MAXUINT64 -> (1 <= String.length (string_of_Z n) <= 20)%nat.
Proof.
  intros [H0 Hmax]. destruct n as [|p|p]; [cbn; lia| |lia].
  unfold string_of_Z. cbn [Z.to_int NilZero.string_of_int].
  pose proof (to_uint_head p) as Hh.
  pose proof (DecimalPos.Unsigned.of_to p) as Hv.
  assert (Hpow : forall k, (20 <= k)%nat -> 10 ^ 20 <= 10 ^ Z.of_nat k)
    by (intros k Hk; apply Z.pow_le_mono_r; lia).
  destruct (Pos.to_uint p) as [|l|l|l|l|l|l|l|l|l|l]; try destruct Hh.
  all: cbn [NilZero.string_of_uint NilEmpty.string_of_uint String.length].
  all: rewrite length_string_of_uint.
  all: cbn [Pos.of_uint] in Hv; injection Hv as Hv.
  all: match type of Hv with
       | Pos.of_uint_acc _ ?q = _ =>
           pose proof (of_uint_acc_lower l q) as Hlow; rewrite Hv in Hlow
       end.
  all: split; [lia|].
  all: destruct (le_lt_dec 20 (Decimal.nb_digits l)) as [Hbig|Hsmall]; [|lia].
  all: specialize (Hpow _ Hbig); unfold G_MAXUINT64 in Hmax; lia.
Qed.

Lemma length_append (a b : string) :
  String.length (a ++ b) = (String.length a + String.length b)%nat.
Proof. induction a as [|c a IH]; cbn; [reflexivity | now rewrite IH]. Qed.

Lemma byte_at_append_l (a b : string) (i : nat) :
  (i < String.length a)%nat -> byte_at (a ++ b) i = byte_at a i.
Proof.
  intros H. unfold byte_at. now rewrite <- append_correct1.
Qed.

Lemma byte_at_append_r (a b : string) (i : nat) :
  byte_at (a ++ b) (String.length a + i) = byte_at b i.
Proof.
  unfold byte_at. rewrite (Nat.add_comm (String.length a) i).
  now rewrite <- append_correct2.
Qed.

Lemma all_space_byte_at (s : string) :
  all_space s = true ->
  forall i, (i < String.length s)%nat -> g_ascii_isspace (byte_at s i) = true.
Proof.
  induction s as [|c s IH]; intros Hall i Hi; [cbn in Hi; lia|].
  cbn [all_space] in Hall. apply andb_true_iff in Hall as [Hc Hs].
  destruct i as [|i]; [exact Hc|].
  change (byte_at (String c s) (S i)) with (byte_at s i).
  apply IH; [exact Hs | cbn in Hi; lia].
Qed.

Lemma memchr_append (pre rest : string) (c : ascii) :
  memchr pre c (String.length pre) = None ->
  forall n, (String.length pre < n)%nat ->
            memchr (pre ++ String c rest) c n = Some (String.length pre).
Proof.
  induction pre as [|a pre IH]; intros Hno n Hn.
  - destruct n as [|n]; [lia|]. cbn. now rewrite Ascii.eqb_refl.
  - destruct n as [|n]; [lia|]. cbn [String.length memchr append] in *.
    destruct (Ascii.eqb a c); [discriminate|].
    rewrite IH; [reflexivity| |lia].
    destruct (memchr pre c (String.length pre)); [discriminate | reflexivity].
Qed.

Lemma substring_prefix (a b : string) :
  substring 0 (String.length a) (a ++ b) = a.
Proof.
  induction a as [|c a IH]; cbn; [destruct b; reflexivity | now rewrite IH].
Qed.

Lemma substring_skip (a b : string) (k n : nat) :
  substring (String.length a + k) n (a ++ b) = substring k n b.
Proof. induction a as [|c a IH]; cbn; [reflexivity | exact IH]. Qed.

(** The loop that skips the white space in front of a header value. *)
Lemma skip_leading_spec (h : string) (end_ : nat) :
  forall k value fuel,
    (forall i, (value <= i < value + k)%nat -> g_ascii_isspace (byte_at h i) = true) ->
    (value + k = end_)%nat \/ g_ascii_isspace (byte_at h (value + k)) = false ->
    (value + k <= end_)%nat -> (k <= fuel)%nat ->
    skip_leading h value end_ fuel = (value + k)%nat.
Proof.
  induction k as [|k IH]; intros value fuel Hsp Hstop Hend Hfuel.
  - rewrite Nat.add_0_r in *. destruct fuel as [|fuel]; [reflexivity|].
    cbn [skip_leading]. destruct Hstop as [-> | ->].
    + rewrite Nat.ltb_irrefl. reflexivity.
    + rewrite andb_false_r. reflexivity.
  - destruct fuel as [|fuel]; [lia|]. cbn [skip_leading].
    rewrite (Hsp value) by lia.
    destruct (Nat.ltb_spec value end_) as [_|Hge]; [|lia]. cbn [andb].
    rewrite (IH (S value) fuel); [lia| | |lia|lia].
    + intros i Hi. apply Hsp. lia.
    + replace (S value + k)%nat with (value + S k)%nat by lia. exact Hstop.
Qed.

(** The loop that strips the white space behind a header value. *)
Lemma strip_trailing_spec (h : string) (value p : nat) :
  forall k fuel,
    (forall i, (p <= i < p + k)%nat -> g_ascii_isspace (byte_at h i) = true) ->
    value = p \/ ((value < p)%nat /\ g_ascii_isspace (byte_at h (pred p)) = false) ->
    (k <= fuel)%nat ->
    strip_trailing h value (p + k) fuel = p.
Proof.
  induction k as [|k IH]; intros fuel Hsp Hstop Hfuel.
  - rewrite Nat.add_0_r. destruct fuel as [|fuel]; [reflexivity|].
    cbn [strip_trailing]. destruct Hstop as [-> | [Hlt ->]].
    + rewrite Nat.ltb_irrefl. reflexivity.
    + rewrite andb_false_r. reflexivity.
  - destruct fuel as [|fuel]; [lia|]. cbn [strip_trailing].
    replace (pred (p + S k)) with (p + k)%nat by lia.
    rewrite (Hsp (p + k)%nat) by lia.
    destruct (Nat.ltb_spec value (p + S k)) as [_|Hge];
      [|destruct Hstop as [-> | [Hlt _]]; lia].
    cbn [andb]. apply IH; [|exact Hstop|lia].
    intros i Hi. apply Hsp. lia.
Qed.

Lemma nul_free_cstr (s : string) : nul_free (cstr s) = true.
Proof.
  induction s as [|c s IH]; [reflexivity|]. cbn [cstr].
  destruct (Ascii.eqb c NUL) eqn:E; [reflexivity|].
  cbn [nul_free]. now rewrite E, IH.
Qed.

(** Two strings that compare equal to a third one compare equal. *)
Lemma strcasecmp_loop_euclid (a : string) :
  forall b c,
    nul_free a = true -> nul_free b = true -> nul_free c = true ->
    strcasecmp_loop a b = 0 -> strcasecmp_loop a c = 0 ->
    strcasecmp_loop b c = 0.
Proof.
  induction a as [|x a IH]; intros b c Ha Hb Hc Hab Hac.
  - destruct b as [|y b]; destruct c as [|z c]; cbn in *; try reflexivity.
    + apply andb_true_iff in Hc as [Hz _]. apply negb_true_iff in Hz.
      assert (E : code z = 0) by lia. apply code_NUL in E. subst z. discriminate Hz.
    + apply andb_true_iff in Hb as [Hy _]. apply negb_true_iff in Hy.
      assert (E : code y = 0) by lia. apply code_NUL in E. subst y. discriminate Hy.
    + apply andb_true_iff in Hb as [Hy _]. apply negb_true_iff in Hy.
      assert (E : code y = 0) by lia. apply code_NUL in E. subst y. discriminate Hy.
  - cbn [nul_free] in Ha. apply andb_true_iff in Ha as [Hx Ha].
    apply negb_true_iff in Hx.
    destruct b as [|y b]; cbn [strcasecmp_loop] in Hab.
    { apply code_NUL in Hab. subst x. discriminate Hx. }
    destruct c as [|z c]; cbn [strcasecmp_loop] in Hac.
    { apply code_NUL in Hac. subst x. discriminate Hx. }
    cbn [nul_free] in Hb, Hc.
    apply andb_true_iff in Hb as [_ Hb]. apply andb_true_iff in Hc as [_ Hc].
    destruct (Z.eqb_spec (g_ascii_tolower x) (g_ascii_tolower y)) as [Exy|]; [|lia].
    destruct (Z.eqb_spec (g_ascii_tolower x) (g_ascii_tolower z)) as [Exz|]; [|lia].
    cbn [strcasecmp_loop].
    destruct (Z.eqb_spec (g_ascii_tolower y) (g_ascii_tolower z)) as [_|Hne];
      [|congruence].
    apply (IH b c); assumption.
Qed.

(** A name that matches one literal does not match a different one. *)
Lemma g_ascii_strcasecmp_other (name lit other : string) :
  g_ascii_strcasecmp name lit = 0 ->
  (g_ascii_strcasecmp lit other =? 0) = false ->
  (g_ascii_strcasecmp name other =? 0) = false.
Proof.
  unfold g_ascii_strcasecmp. intros H1 H2.
  apply Z.eqb_neq. apply Z.eqb_neq in H2. intros H3. apply H2.
  apply (strcasecmp_loop_euclid (cstr name)); auto using nul_free_cstr.
Qed.

Section HeaderLine.

(** A header line: a name, the colon, white space, a value that starts
    and ends with something else than white space, white space (the
    line end). *)
Variables name lead v trail : string.
Variables size_ nmemb : Z.

Let header : string := (name ++ String ":" (lead ++ v ++ trail))%string.

Hypothesis Hname : memchr name ":" (String.length name) = None.
Hypothesis Hshort : (String.length name < 64)%nat.
Hypothesis Hlead : all_space lead = true.
Hypothesis Htrail : all_space trail = true.
Hypothesis Hv : v <> EmptyString.
Hypothesis Hfirst : g_ascii_isspace (byte_at v 0) = false.
Hypothesis Hlast : g_ascii_isspace (byte_at v (pred (String.length v))) = false.
Hypothesis Hsize : size_ * nmemb = Z.of_nat (String.length header).
Hypothesis Hmod : Z.of_nat (String.length header) < SIZE_MODULUS.

Let n : nat := String.length name.
Let value : nat := (S n + String.length lead)%nat.
Let L : nat := String.length header.

Lemma value_length : (0 < String.length v)%nat.
Proof.
  clear - Hv. destruct v; [contradiction | cbn; lia].
Qed.

Lemma header_length :
  L = (value + String.length v + String.length trail)%nat.
Proof.
  unfold L, header, value, n. rewrite length_append. cbn [String.length].
  rewrite !length_append. lia.
Qed.

Lemma header_byte_at (i : nat) :
  byte_at header (S n + i)
  = byte_at (lead ++ v ++ trail) i.
Proof.
  unfold header, n.
  change (name ++ String ":" (lead ++ v ++ trail))%string
    with (name ++ (String ":" (lead ++ v ++ trail)))%string.
  replace (S (String.length name) + i)%nat with (String.length name + S i)%nat by lia.
  rewrite byte_at_append_r. reflexivity.
Qed.

Lemma header_end : Z.to_nat (size_t (size_ * nmemb)) = L.
Proof.
  rewrite Hsize, size_t_small by (fold L; lia). apply Nat2Z.id.
Qed.

Lemma header_memchr : memchr header ":" L = Some n.
Proof.
  unfold header, n. apply memchr_append; [exact Hname|].
  pose proof header_length. unfold value, n in *. lia.
Qed.

Lemma header_name : span header 0 n = name.
Proof. unfold span, header, n. apply substring_prefix. Qed.

Lemma header_skip_leading :
  skip_leading header (S n) L (L - S n) = value.
Proof.
  pose proof header_length as HL.
  unfold value. apply skip_leading_spec; try lia.
  - intros i Hi. replace i with (S n + (i - S n))%nat by lia.
    rewrite header_byte_at, byte_at_append_l by lia.
    apply all_space_byte_at; [exact Hlead | lia].
  - right. rewrite header_byte_at.
    replace (String.length lead) with (String.length lead + 0)%nat by lia.
    rewrite byte_at_append_r, byte_at_append_l by exact value_length.
    exact Hfirst.
Qed.

Lemma header_strip_trailing :
  strip_trailing header value L (L - value) = (value + String.length v)%nat.
Proof.
  pose proof header_length as HL. rewrite HL at 1.
  apply strip_trailing_spec; try lia.
  - intros i Hi. unfold value in *.
    replace i with (S n + (String.length lead
                           + (String.length v + (i - S n - String.length lead
                                                 - String.length v))))%nat by lia.
    rewrite header_byte_at, byte_at_append_r, byte_at_append_r.
    apply all_space_byte_at; [exact Htrail | lia].
  - pose proof value_length as Hpos.
    right. split; [lia|]. unfold value.
    replace (pred (S n + String.length lead + String.length v))
      with (S n + (String.length lead + pred (String.length v)))%nat by lia.
    rewrite header_byte_at, byte_at_append_r, byte_at_append_l by lia.
    exact Hlast.
Qed.

Lemma header_value : span header value (String.length v) = v.
Proof.
  unfold span, header, value, n.
  change (name ++ String ":" (lead ++ v ++ trail))%string
    with (name ++ (String ":" (lead ++ v ++ trail)))%string.
  replace (S (String.length name) + String.length lead)%nat
    with (String.length name + S (String.length lead))%nat by lia.
  rewrite substring_skip. cbn [substring].
  rewrite <- (Nat.add_0_r (String.length lead)), substring_skip.
  apply substring_prefix.
Qed.


(** What the callback does with the line, for each name it knows. *)
Lemma headerfunction_line (c : input_curl) :
  input_curl_headerfunction c header size_ nmemb
  = (Z.of_nat L,
     if g_ascii_strcasecmp name "accept-ranges" =? 0 then
       if negb (IcyMetaDataParser.IsDefined (icy c))
       then with_base (set_seekable true) c else c
     else if g_ascii_strcasecmp name "content-length" =? 0 then
       if 64 <=? Z.of_nat (value + String.length v) then c
       else with_base (set_size (goffset_of (offset (base c)
                                             + g_ascii_strtoull v))) c
     else if g_ascii_strcasecmp name "content-type" =? 0 then
       with_base (set_mime (Some (cstr v))) c
     else if (g_ascii_strcasecmp name "icy-name" =? 0)
             || (g_ascii_strcasecmp name "ice-name" =? 0)
             || (g_ascii_strcasecmp name "x-audiocast-name" =? 0) then
       set_tag (Some (tag_add_item tag_new TAG_NAME (cstr v)))
               (set_meta_name (Some (cstr v)) c)
     else if g_ascii_strcasecmp name "icy-metaint" =? 0 then
       if (64 <=? Z.of_nat (value + String.length v))
          || IcyMetaDataParser.IsDefined (icy c) then c
       else if 0 <? g_ascii_strtoull v then
         with_base (set_seekable false)
                   (set_icy (IcyMetaDataParser.Start (icy c) (g_ascii_strtoull v)) c)
       else c
     else c).
Proof.
  unfold input_curl_headerfunction, input_curl_headerfunction_writes.
  rewrite header_end, header_memchr. cbv zeta.
  rewrite Hsize, size_t_small by (fold L; lia). fold L.
  change (sizeof ARRAY_name) with 64. change (sizeof ARRAY_buffer) with 64.
  destruct (Z.leb_spec 64 (Z.of_nat n)) as [Hge|_]; [unfold n in Hge; lia|].
  rewrite header_skip_leading, header_strip_trailing, header_name.
  replace (value + String.length v - value)%nat with (String.length v) by lia.
  unfold g_strndup. rewrite header_value.
  repeat split_if; reflexivity.
Qed.

End HeaderLine.

Lemma all_digits_byte_at (s : string) :
  all_digits s = true ->
  forall i, (i < String.length s)%nat -> is_digit (byte_at s i) = true.
Proof.
  induction s as [|c s IH]; intros Hall i Hi; [cbn in Hi; lia|].
  cbn [all_digits] in Hall. apply andb_true_iff in Hall as [Hc Hs].
  destruct i as [|i]; [exact Hc|].
  change (byte_at (String c s) (S i)) with (byte_at s i).
  apply IH; [exact Hs | cbn in Hi; lia].
Qed.

Lemma string_of_Z_value (N : Z) :
  0 <= N <= G_MAXUINT64 ->
  string_of_Z N <> EmptyString
  /\ g_ascii_isspace (byte_at (string_of_Z N) 0) = false
  /\ g_ascii_isspace (byte_at (string_of_Z N) (pred (String.length (string_of_Z N))))
     = false
  /\ (String.length (string_of_Z N) <= 20)%nat
  /\ g_ascii_strtoull (string_of_Z N) = N.
Proof.
  intros HN. pose proof (string_of_Z_length N HN) as Hlen.
  pose proof (g_ascii_strtoull_string_of_Z N HN) as Hval.
  destruct (string_of_Z_uint N ltac:(lia)) as (d & Hd & _).
  pose proof (all_digits_string_of_uint d) as Hall. rewrite <- Hd in Hall.
  split; [intros E; rewrite E in Hlen; cbn in Hlen; lia|].
  split; [apply is_digit_not_space, all_digits_byte_at; [exact Hall | lia]|].
  split; [apply is_digit_not_space, all_digits_byte_at; [exact Hall | lia]|].
  split; [lia | exact Hval].
Qed.

(** X13: A Content-Length header sets the size of the stream. *)
Theorem content_length_sets_size
        (c : input_curl) (name lead trail : string) (N size_ nmemb : Z) :
  g_ascii_strcasecmp name "content-length" = 0 ->
  memchr name ":" (String.length name) = None ->
  all_space lead = true -> all_space trail = true ->
  (String.length name + String.length lead < 43)%nat ->
  0 <= N <= G_MAXUINT64 ->
  let line := (name ++ ":" ++ lead ++ string_of_Z N ++ trail)%string in
  size_ * nmemb = Z.of_nat (String.length line) ->
  size_ * nmemb < SIZE_MODULUS ->
  input_curl_headerfunction c line size_ nmemb
  = (size_ * nmemb,
     with_base (set_size (goffset_of (offset (base c) + N))) c).
Proof.
  intros Hcmp Hname Hlead Htrail Hlen HN line Hsize Hmod.
  destruct (string_of_Z_value N HN) as (Hv & Hfirst & Hlast & Hlen20 & Hval).
  subst line.
  change (name ++ ":" ++ lead ++ string_of_Z N ++ trail)%string
    with (name ++ String ":" (lead ++ string_of_Z N ++ trail))%string in *.
  rewrite (headerfunction_line name lead (string_of_Z N) trail size_ nmemb
             Hname ltac:(lia) Hlead Htrail Hv Hfirst Hlast Hsize
             ltac:(rewrite <- Hsize; exact Hmod)).
  rewrite <- Hsize.
  rewrite (g_ascii_strcasecmp_other name "content-length" "accept-ranges" Hcmp eq_refl).
  rewrite Hcmp, Hval. change (0 =? 0) with true. cbv iota.
  destruct (Z.leb_spec 64 (Z.of_nat (S (String.length name) + String.length lead
                                     + String.length (string_of_Z N)))); [lia|].
  reflexivity.
Qed.


(** X15: The text headers: the value is stored without the white space around
    it. *)
Theorem text_header_stores_value
        (c : input_curl) (name lead v trail : string) (size_ nmemb : Z) :
  memchr name ":" (String.length name) = None ->
  (String.length name < 64)%nat ->
  all_space lead = true -> all_space trail = true ->
  v <> EmptyString ->
  g_ascii_isspace (byte_at v 0) = false ->
  g_ascii_isspace (byte_at v (pred (String.length v))) = false ->
  let line := (name ++ ":" ++ lead ++ v ++ trail)%string in
  size_ * nmemb = Z.of_nat (String.length line) ->
  size_ * nmemb < SIZE_MODULUS ->
  let c' := snd (input_curl_headerfunction c line size_ nmemb) in
  (g_ascii_strcasecmp name "content-type" = 0 ->
   c' = with_base (set_mime (Some (cstr v))) c)
  /\ (g_ascii_strcasecmp name "icy-name" = 0
      \/ g_ascii_strcasecmp name "ice-name" = 0
      \/ g_ascii_strcasecmp name "x-audiocast-name" = 0 ->
      c' = set_tag (Some [(TAG_NAME, cstr v)]) (set_meta_name (Some (cstr v)) c)).
Proof.
  intros Hname Hshort Hlead Htrail Hv Hfirst Hlast line Hsize Hmod c'.
  subst c' line.
  change (name ++ ":" ++ lead ++ v ++ trail)%string
    with (name ++ String ":" (lead ++ v ++ trail))%string in *.
  rewrite (headerfunction_line name lead v trail size_ nmemb
             Hname Hshort Hlead Htrail Hv Hfirst Hlast Hsize
             ltac:(rewrite <- Hsize; exact Hmod)).
  cbn [snd]. split.
  - intros Hcmp.
    rewrite (g_ascii_strcasecmp_other name "content-type" "accept-ranges" Hcmp eq_refl).
    rewrite (g_ascii_strcasecmp_other name "content-type" "content-length" Hcmp eq_refl).
    rewrite Hcmp. reflexivity.
  - intros [Hcmp|[Hcmp|Hcmp]].
    + rewrite (g_ascii_strcasecmp_other name "icy-name" "accept-ranges" Hcmp eq_refl).
      rewrite (g_ascii_strcasecmp_other name "icy-name" "content-length" Hcmp eq_refl).
      rewrite (g_ascii_strcasecmp_other name "icy-name" "content-type" Hcmp eq_refl).
      rewrite Hcmp. reflexivity.
    + rewrite (g_ascii_strcasecmp_other name "ice-name" "accept-ranges" Hcmp eq_refl).
      rewrite (g_ascii_strcasecmp_other name "ice-name" "content-length" Hcmp eq_refl).
      rewrite (g_ascii_strcasecmp_other name "ice-name" "content-type" Hcmp eq_refl).
      rewrite Hcmp. change (0 =? 0) with true. rewrite orb_true_r. reflexivity.
    + rewrite (g_ascii_strcasecmp_other name "x-audiocast-name" "accept-ranges" Hcmp eq_refl).
      rewrite (g_ascii_strcasecmp_other name "x-audiocast-name" "content-length" Hcmp eq_refl).
      rewrite (g_ascii_strcasecmp_other name "x-audiocast-name" "content-type" Hcmp eq_refl).
      rewrite Hcmp. change (0 =? 0) with true. rewrite orb_true_r. reflexivity.
Qed.

Lemma mid_stream_buffers :
  buffers mid_stream = [CurlInputBuffer.mk 10 4 ten_bytes].
Proof. vm_compute. reflexivity. Defined.

Lemma mid_stream_wf : Forall buf_wf (buffers mid_stream).
Proof.
  rewrite mid_stream_buffers. constructor; [|constructor].
  unfold buf_wf, SIZE_MODULUS. cbn. lia.
Defined.

Lemma mid_stream_ok : buffered_ok (buffers mid_stream).
Proof.
  rewrite mid_stream_buffers. split; [|reflexivity].
  constructor; [reflexivity | constructor].
Defined.

Lemma read_delivers_in_order_witness :
  exists c' eff,
    input_curl_read example_parse mid_stream 3
    = Ok (ReadBytes 3 [x34; x35; x36], c', eff)
    /\ pending (buffers c') = [x37; x38; x39]
    /\ offset (base c') = 7.
Proof.
  destruct (read_delivers_in_order example_parse mid_stream 3 mid_stream_wf
              eq_refl eq_refl eq_refl ltac:(split; reflexivity))
    as (c' & eff & H1 & _ & H2 & H3 & _).
  exists c', eff. split; [exact H1|]. split; [exact H2 | exact H3].
Defined.

Lemma write_appends_or_pauses_witness :
  exists c',
    input_curl_writefunction mid_stream ten_bytes 1 10 = (10, c')
    /\ pending (buffers c')
       = ([x34; x35; x36; x37; x38; x39] ++ ten_bytes)%list.
Proof.
  pose proof (write_appends_or_pauses mid_stream ten_bytes 1 10
                ltac:(vm_compute; repeat split; discriminate || reflexivity)
                mid_stream_ok eq_refl) as H.
  change (curl_total_buffer_size mid_stream + 1 * 10 <? CURL_MAX_BUFFERED)
    with true in H. cbv iota in H.
  destruct H as (c' & H1 & H2 & _). exists c'. split; [exact H1 | exact H2].
Defined.

Lemma read_surfaces_error_first_witness :
  let e := g_error_new curl_quark 7 "curl failed: " in
  let c := set_postponed_error (Some e) mid_stream in
  input_curl_read example_parse c 3
  = Ok (ReadZero (Some e), set_postponed_error None c, []).
Proof.
  cbv zeta.
  apply (read_surfaces_error_first example_parse
           (set_postponed_error (Some (g_error_new curl_quark 7 "curl failed: "))
                                mid_stream)
           3 _ eq_refl).
  right. reflexivity.
Defined.

Lemma read_without_data_witness :
  input_curl_read example_parse example_stream 3
  = Ok (ReadBlocked, example_stream, [])
  /\ input_curl_read example_parse finished_stream 3
     = Ok (ReadZero None, finished_stream, []).
Proof.
  split.
  - apply (read_without_data example_parse example_stream 3 eq_refl eq_refl).
  - apply (read_without_data example_parse finished_stream 3 eq_refl eq_refl).
Defined.

Lemma seek_within_buffer_witness :
  exists c',
    input_curl_seek example_globals answers_ok mid_stream 2 SEEK_CUR
    = Ok (SeekReturn true None, c', [])
    /\ offset (base c') = offset (base mid_stream) + 2
    /\ pending (buffers c') = skipn (Z.to_nat 2) (pending (buffers mid_stream))
    /\ easy c' = easy mid_stream.
Proof.
  apply seek_within_buffer.
  - vm_compute. reflexivity.
  - vm_compute. reflexivity.
  - exact mid_stream_wf.
  - exact mid_stream_ok.
  - vm_compute. discriminate.
  - vm_compute. split; [reflexivity | discriminate].
  - vm_compute. discriminate.
  - right. split; reflexivity.
Defined.





Lemma handle_done_classifies_witness :
  exists c',
    input_curl_handle_done mid_stream CURLE_OK 404 = Ok c'
    /\ easy c' = None /\ ready (base c') = true.
Proof.
  destruct (handle_done_classifies mid_stream CURLE_OK 404)
    as (c' & H1 & H2 & H3 & _).
  - vm_compute. reflexivity.
  - vm_compute. reflexivity.
  - exists c'. split; [exact H1|]. split; [exact H2 | exact H3].
Defined.

Lemma input_curl_open_http_witness :
  match input_curl_open example_globals answers_ok "http://example/stream" with
  | Ok (OpenStream c, eff) =>
      eff = [New_input_curl; Io_thread_call IO_easy_add]
      /\ base c = input_stream_init "http://example/stream"
  | _ => False
  end.
Proof.
  pose proof (input_curl_open_http example_globals answers_ok
                                   "http://example/stream" eq_refl) as H.
  destruct (input_curl_open example_globals answers_ok "http://example/stream")
    as [[[err|c] eff]| |] eqn:E; try exact H.
  - vm_compute in E. discriminate E.
  - destruct H as (H1 & H2 & _). split; [exact H1 | exact H2].
Defined.

Lemma easy_init_proxy_options_witness :
  exists opts,
    easy (snd (input_curl_easy_init example_globals answers_ok example_stream))
    = Some opts
    /\ In (CURLOPT_MAXREDIRS 5) opts
    /\ forall s, ~ In (CURLOPT_PROXYUSERPWD s) opts.
Proof.
  destruct (easy (snd (input_curl_easy_init example_globals answers_ok
                                            example_stream))) as [opts|] eqn:E.
  2:{ vm_compute in E. discriminate E. }
  exists opts. split; [reflexivity|].
  destruct (easy_init_proxy_options example_globals answers_ok example_stream opts E)
    as (H1 & _ & _ & H4 & _).
  split; [exact H4|].
  intros s Hs. apply H1 in Hs. destruct Hs as (u & p & Hu & _). discriminate Hu.
Defined.

Lemma content_length_sets_size_witness :
  input_curl_headerfunction example_stream
    ("Content-LENGTH" ++ ":" ++ " " ++ string_of_Z 1234 ++ CRLF)%string 1 22
  = (1 * 22, with_base (set_size (goffset_of (offset (base example_stream) + 1234)))
                       example_stream).
Proof.
  apply (content_length_sets_size example_stream "Content-LENGTH" " " CRLF 1234 1 22).
  - vm_compute. reflexivity.
  - vm_compute. reflexivity.
  - reflexivity.
  - reflexivity.
  - vm_compute. lia.
  - vm_compute. split; discriminate.
  - vm_compute. reflexivity.
  - vm_compute. reflexivity.
Defined.


Lemma text_header_stores_value_witness :
  snd (input_curl_headerfunction example_stream
         ("Content-Type" ++ ":" ++ "  " ++ "audio/mpeg" ++ CRLF)%string 1 27)
  = with_base (set_mime (Some "audio/mpeg"%string)) example_stream.
Proof.
  refine (proj1 (text_header_stores_value example_stream "Content-Type" "  "
                   "audio/mpeg" CRLF 1 27 _ _ _ _ _ _ _ _ _) _).
  - vm_compute. reflexivity.
  - vm_compute. lia.
  - reflexivity.
  - reflexivity.
  - discriminate.
  - reflexivity.
  - reflexivity.
  - vm_compute. reflexivity.
  - vm_compute. reflexivity.
  - vm_compute. reflexivity.
Defined.

Section DataFlowFacts.

Variable icy_parse_tag : list byte -> option struct_tag.
Variable G : curl_globals.

(** [flow_step] moves the stream as [step] does. *)
Lemma flow_step_step (c c1 : input_curl) (e : event) (d a : list byte) :
  flow_step icy_parse_tag G c e = Ok (c1, d, a) ->
  exists n, step icy_parse_tag G c e = Ok (c1, n).
Proof.
  destruct e as [size_|ans offset_ whence| | | |ptr size_ nmemb|ptr size_ nmemb
                |error_text result status|err];
    cbn [flow_step step].
  - destruct (input_curl_read icy_parse_tag c size_) as [[[out c2] eff]| |];
      cbn [bind]; try discriminate.
    intros [= <- _ _]. eexists. reflexivity.
  - destruct (input_curl_seek G ans c offset_ whence) as [[[out c2] eff]| |];
      cbn [bind]; try discriminate.
    intros [= <- _ _]. eexists. reflexivity.
  - cbn [bind]. intros [= <- _ _]. eexists. reflexivity.
  - cbn [bind]. intros [= <- _ _]. eexists. reflexivity.
  - cbn [bind]. intros [= <- _ _]. eexists. reflexivity.
  - unfold assert. destruct (negb (is_null (easy c))); cbn [bind]; try discriminate.
    intros [= <- _ _]. eexists. reflexivity.
  - unfold assert. destruct (negb (is_null (easy c))); cbn [bind]; try discriminate.
    destruct (input_curl_writefunction c ptr size_ nmemb) as [ret c2].
    intros [= <- _ _]. eexists. reflexivity.
  - destruct (input_curl_handle_done (set_error error_text c) result status)
      as [c2| |]; cbn [bind]; try discriminate.
    intros [= <- _ _]. eexists. reflexivity.
  - unfold assert. destruct (negb (is_null (easy c))); cbn [bind]; try discriminate.
    destruct (input_curl_abort_request c err) as [c2| |]; cbn [bind];
      try discriminate.
    intros [= <- _ _]. eexists. reflexivity.
Qed.


(** A read on a stream without inline metadata takes what it returns from
    the front of the buffered bytes, and nothing else. *)
Lemma read_plain (c c1 : input_curl) (size_ : Z) (out : read_outcome)
      (eff : list effect) :
  Forall buf_wf (buffers c) ->
  IcyMetaDataParser.IsDefined (icy c) = false ->
  0 <= size_ < SIZE_MODULUS ->
  input_curl_read icy_parse_tag c size_ = Ok (out, c1, eff) ->
  icy c1 = icy c
  /\ pending (buffers c) = (read_bytes out ++ pending (buffers c1))%list.
Proof.
  intros Hwf Hdef Hsz HR.
  destruct (negb (is_null (easy c)) && is_empty (buffers c)) eqn:Hblock.
  { unfold input_curl_read in HR. cbn [read_loop] in HR. unfold fill_buffer in HR.
    rewrite Hblock in HR. cbn [bind] in HR. injection HR as <- <- <-.
    split; reflexivity. }
  destruct (postponed_error c) as [e|] eqn:Herr.
  { assert (Hav : is_null (easy c) = true \/ is_empty (buffers c) = false).
    { apply andb_false_iff in Hblock as [H|H]; [left | right; exact H].
      now apply negb_false_iff in H. }
    destruct (read_error_first icy_parse_tag c size_ e Herr Hav) as [HE _].
    rewrite HE in HR. injection HR as <- <- <-. split; reflexivity. }
  destruct (is_empty (buffers c)) eqn:He.
  { rewrite (read_no_data icy_parse_tag c size_ He Herr) in HR.
    injection HR as <- <- <-. destruct (input_curl_eof c); split; reflexivity. }
  destruct (Z.eq_dec size_ 0) as [->|Hnz].
  { unfold input_curl_read in HR.
    rewrite (read_loop_zero_spins icy_parse_tag 2 c He Herr) in HR.
    discriminate HR. }
  destruct (read_takes_front icy_parse_tag c size_ Hwf Hdef Herr He ltac:(lia))
    as (c' & eff' & HE & _ & HP & _ & HI & _).
  rewrite HE in HR. injection HR as <- <- <-.
  split; [exact HI|]. cbn [read_bytes]. rewrite HP. symmetry. apply firstn_skipn.
Qed.

Lemma flow_step_conserves (c c1 : input_curl) (e : event) (d a : list byte) :
  Forall buf_wf (buffers c) -> buffered_ok (buffers c) ->
  IcyMetaDataParser.IsDefined (icy c) = false ->
  keeps_data e = true -> sized_event e ->
  flow_step icy_parse_tag G c e = Ok (c1, d, a) ->
  Forall buf_wf (buffers c1) /\ buffered_ok (buffers c1)
  /\ IcyMetaDataParser.IsDefined (icy c1) = false
  /\ (pending (buffers c) ++ a = d ++ pending (buffers c1))%list.
Proof.
  intros Hwf Hok Hdef Hkeep Hsized Hflow.
  assert (Hswf : stream_wf c).
  { split; [exact Hwf|]. intros H. rewrite Hdef in H. discriminate H. }
  assert (Hwfe : wf_event e) by (destruct e; try exact Hsized; exact I).
  destruct (flow_step_step c c1 e d a Hflow) as [n Hstep].
  pose proof (step_stream_wf icy_parse_tag G c c1 e n Hswf Hsized Hstep) as [Hwf1 _].
  pose proof (step_buffered_ok icy_parse_tag G c c1 e n Hok Hwfe Hstep) as Hok1.
  split; [exact Hwf1|]. split; [exact Hok1|].
  destruct e as [size_|ans offset_ whence| | | |ptr size_ nmemb|ptr size_ nmemb
                |error_text result status|err];
    try discriminate Hkeep; cbn [flow_step step] in Hflow.
  - (* read *)
    destruct (input_curl_read icy_parse_tag c size_) as [[[out c2] eff]| |] eqn:HR;
      cbn [bind] in Hflow; try discriminate Hflow.
    injection Hflow as <- <- <-.
    destruct (read_plain c c2 size_ out eff Hwf Hdef Hsized HR) as [HI HP].
    rewrite HI, app_nil_r. split; [exact Hdef | exact HP].
  - (* the waiting seek looks at [ready] *)
    cbn [bind] in Hflow. injection Hflow as <- <- <-.
    unfold input_curl_seek_wait.
    destruct (negb (ready (base c))); [|destruct (postponed_error c)];
      cbn [snd]; (split; [exact Hdef | cbn; apply app_nil_r]).
  - (* check *)
    cbn [bind] in Hflow. injection Hflow as <- <- <-.
    unfold input_curl_check.
    destruct (negb (is_null (postponed_error c))); cbn [snd];
      (split; [exact Hdef | cbn; apply app_nil_r]).
  - (* tag *)
    cbn [bind] in Hflow. injection Hflow as <- <- <-.
    split; [exact Hdef | cbn; apply app_nil_r].
  - (* write *)
    unfold assert in Hflow.
    destruct (negb (is_null (easy c))); cbn [bind] in Hflow; try discriminate Hflow.
    destruct (input_curl_writefunction c ptr size_ nmemb) as [ret c2] eqn:HW.
    injection Hflow as <- <- <-. cbn [app].
    assert (HI : icy c2 = icy c).
    { revert HW. unfold input_curl_writefunction.
      repeat split_if; intros [= _ <-]; reflexivity. }
    rewrite HI. split; [exact Hdef|].
    destruct Hsized as (H1 & H2 & H3 & H4).
    destruct (Z.eq_dec (size_ * nmemb) 0) as [Hz|Hnz].
    + revert HW. unfold input_curl_writefunction. rewrite Hz.
      change (size_t 0 =? 0) with true. cbv iota. intros [= <- <-].
      cbn. apply app_nil_r.
    + pose proof (writefunction_cases c ptr size_ nmemb
                    (conj H1 (conj H2 (conj H3 H4))) Hok ltac:(nia)) as Hcases.
      destruct (Z.ltb_spec (curl_total_buffer_size c + size_ * nmemb)
                           CURL_MAX_BUFFERED) as [Hlt|Hge].
      * destruct Hcases as (c' & HE & HP & _). rewrite HE in HW.
        injection HW as <- <-. rewrite HP. f_equal. unfold accepted.
        pose proof (curl_total_buffer_size_range c) as Hr.
        destruct (Z.eqb_spec (size_ * nmemb) CURL_WRITEFUNC_PAUSE) as [E|_].
        { unfold CURL_WRITEFUNC_PAUSE, CURL_MAX_BUFFERED in *. lia. }
        apply firstn_all2. lia.
      * rewrite Hcases in HW. injection HW as <- <-. cbn. apply app_nil_r.
  - (* the transfer is done *)
    destruct (input_curl_handle_done (set_error error_text c) result status)
      as [c2| |] eqn:HD; cbn [bind] in Hflow; try discriminate Hflow.
    injection Hflow as <- <- <-.
    pose proof (handle_done_keeps _ _ _ _ HD) as (_ & HB & _).
    assert (HI : icy c2 = icy c).
    { revert HD. unfold input_curl_handle_done, input_curl_request_done, assert.
      destruct (negb (is_null (easy (set_error error_text c)))); cbn [bind];
        [|discriminate].
      destruct (is_null (easy (input_curl_easy_free (set_error error_text c))));
        cbn [bind]; [|discriminate].
      destruct (is_null (postponed_error (input_curl_easy_free (set_error error_text c))));
        cbn [bind]; [|discriminate].
      unfold input_curl_easy_free.
      destruct (easy (set_error error_text c));
        repeat split_if; intros [= <-]; reflexivity. }
    rewrite HI, HB. cbn. split; [exact Hdef | apply app_nil_r].
  - (* abort *)
    unfold assert in Hflow.
    destruct (negb (is_null (easy c))); cbn [bind] in Hflow; try discriminate Hflow.
    destruct (input_curl_abort_request c err) as [c2| |] eqn:HA;
      cbn [bind] in Hflow; try discriminate Hflow.
    injection Hflow as <- <- <-.
    pose proof (abort_request_keeps _ _ _ HA) as (_ & HB & _).
    assert (HI : icy c2 = icy c).
    { revert HA. unfold input_curl_abort_request, assert.
      destruct (is_null (postponed_error c)); cbn [bind]; [|discriminate].
      unfold input_curl_easy_free. destruct (easy c); intros [= <-]; reflexivity. }
    rewrite HI, HB. cbn. split; [exact Hdef | apply app_nil_r].
Qed.

(** X16: Along a trace without seek and without header lines, on a stream
    without inline metadata, the bytes taken from libcurl are delivered
    to the consumer in the order of arrival: what was buffered at the
    start followed by what was taken is what was delivered followed by
    what is buffered at the end. *)
Theorem data_is_conserved (tr : list event) :
  forall c c' d a,
    Forall buf_wf (buffers c) -> buffered_ok (buffers c) ->
    IcyMetaDataParser.IsDefined (icy c) = false ->
    forallb keeps_data tr = true -> Forall sized_event tr ->
    data_flow icy_parse_tag G c tr = Ok (c', d, a) ->
    (pending (buffers c) ++ a = d ++ pending (buffers c'))%list
    /\ exists n, run icy_parse_tag G c tr = Ok (c', n).
Proof.
  induction tr as [|e tr IH]; intros c c' d a Hwf Hok Hdef Hkeep Hsized Hflow.
  - injection Hflow as <- <- <-. rewrite app_nil_r. split; [reflexivity|].
    exists 0. reflexivity.
  - cbn [data_flow] in Hflow. cbn [forallb] in Hkeep.
    apply andb_true_iff in Hkeep as [Hk Hkeep].
    inversion Hsized as [|? ? He Htr]; subst.
    destruct (flow_step icy_parse_tag G c e) as [[[c1 d1] a1]| |] eqn:Hstep;
      cbn [bind] in Hflow; try discriminate Hflow.
    destruct (data_flow icy_parse_tag G c1 tr) as [[[c2 d2] a2]| |] eqn:Hrest;
      cbn [bind] in Hflow; try discriminate Hflow.
    injection Hflow as <- <- <-.
    destruct (flow_step_conserves c c1 e d1 a1 Hwf Hok Hdef Hk He Hstep)
      as (Hwf1 & Hok1 & Hdef1 & Hcons1).
    destruct (IH c1 c2 d2 a2 Hwf1 Hok1 Hdef1 Hkeep Htr Hrest) as [Hcons2 [m Hrun]].
    split.
    + rewrite app_assoc, Hcons1, <- app_assoc, Hcons2, app_assoc. reflexivity.
    + destruct (flow_step_step c c1 e d1 a1 Hstep) as [n Hs].
      exists (n + m). cbn [run]. rewrite Hs. cbn [bind]. rewrite Hrun. reflexivity.
Qed.

End DataFlowFacts.

Lemma data_is_conserved_witness :
  match data_flow example_parse example_globals example_stream
                  [write_of ten_bytes; EvRead 4; write_of [x41; x42]; EvRead 100] with
  | Ok (c', d, a) =>
      (pending (buffers example_stream) ++ a = d ++ pending (buffers c'))%list
  | _ => False
  end.
Proof.
  assert (Hb : buffers example_stream = []) by (vm_compute; reflexivity).
  assert (Hs : Forall sized_event
                      [write_of ten_bytes; EvRead 4; write_of [x41; x42]; EvRead 100]).
  { constructor; [|constructor; [|constructor; [|constructor; [|constructor]]]];
      unfold sized_event, write_of, wf_event, G_MAXINT64, SIZE_MODULUS; cbn; lia. }
  destruct (data_flow example_parse example_globals example_stream
                      [write_of ten_bytes; EvRead 4; write_of [x41; x42]; EvRead 100])
    as [[[c' d] a]| |] eqn:E.
  - apply (data_is_conserved example_parse example_globals _ _ _ _ _) in E.
    + apply E.
    + rewrite Hb. constructor.
    + rewrite Hb. split; [constructor | reflexivity].
    + vm_compute. reflexivity.
    + reflexivity.
    + exact Hs.
  - vm_compute in E. discriminate E.
  - vm_compute in E. discriminate E.
Defined.

Section OpenedStream.

Variable icy_parse_tag : list byte -> option struct_tag.
Variable G : curl_globals.

Lemma input_curl_open_wf (ans : curl_answers) (url : string) (c0 : input_curl)
      (eff : list effect) :
  input_curl_open G ans url = Ok (OpenStream c0, eff) ->
  stream_wf c0 /\ buffered_ok (buffers c0) /\ is_null (easy c0) = false
  /\ postponed_error c0 = None.
Proof.
  unfold input_curl_open.
  destruct (negb (strncmp url "http://" 7 =? 0)); [discriminate|].
  unfold input_curl_easy_init.
  destruct (negb (curl_easy_init_handle ans)).
  { destruct (input_curl_delete _); cbn [bind]; discriminate. }
  destruct (negb (curl_setopt_url ans =? CURLE_OK)).
  { destruct (input_curl_delete _); cbn [bind]; discriminate. }
  unfold input_curl_easy_add_indirect, assert.
  cbn [easy set_request_headers set_easy is_null negb bind].
  destruct (negb (curl_multi_add_handle ans =? CURLM_OK)); cbn [negb bind].
  { destruct (input_curl_delete _); cbn [bind]; discriminate. }
  intros [= <- _]. cbn. split; [|split; [|auto]].
  - split; [constructor | intros H; discriminate H].
  - split; [constructor | reflexivity].
Qed.

(** X17: On every state that a stream returned by open() reaches, a read of
    at least one byte comes to an end. *)
Theorem opened_stream_read_returns
        (ans : curl_answers) (url : string) (c0 : input_curl) (eff0 : list effect)
        (tr : list event) (c : input_curl) (n size_ : Z) :
  input_curl_open G ans url = Ok (OpenStream c0, eff0) ->
  Forall sized_event tr ->
  run icy_parse_tag G c0 tr = Ok (c, n) ->
  0 < size_ < SIZE_MODULUS ->
  exists out c' eff,
    input_curl_read icy_parse_tag c size_ = Ok (out, c', eff)
    /\ (forall nbytes dest,
           out = ReadBytes nbytes dest ->
           0 < nbytes <= size_ /\ Z.of_nat (List.length dest) = nbytes)
    /\ curl_total_buffer_size c' < CURL_MAX_BUFFERED.
Proof.
  intros Hopen Hsz Hrun Hsize.
  destruct (input_curl_open_wf ans url c0 eff0 Hopen) as (Hwf0 & Hok0 & _).
  pose proof (run_stream_wf icy_parse_tag G tr _ _ _ Hwf0 Hsz Hrun) as Hwf.
  assert (Hwfe : Forall wf_event tr).
  { clear - Hsz. induction Hsz as [|e tr He _ IH]; constructor; [|exact IH].
    destruct e; try exact He; exact I. }
  pose proof (run_buffered_ok icy_parse_tag G tr _ _ _ Hok0 Hwfe Hrun) as Hok.
  destruct (input_curl_read_ok icy_parse_tag c size_ Hwf Hsize)
    as (out & c' & eff & Heq & _ & Hcount).
  exists out, c', eff. split; [exact Heq|]. split; [exact Hcount|].
  pose proof (input_curl_read_spec _ _ _ _ _ _ Heq) as (_ & Hshr & _).
  pose proof (buffered_ok_shrunk _ _ Hok Hshr) as Hok'.
  rewrite (curl_total_buffer_size_sum c' Hok'). apply Hok'.
Qed.

(** X18: A read of no bytes while data is buffered never returns. *)
Theorem read_zero_never_returns (c : input_curl) :
  is_empty (buffers c) = false -> postponed_error c = None ->
  (forall fuel, read_loop icy_parse_tag fuel c 0 = Spin)
  /\ input_curl_read icy_parse_tag c 0 = Spin.
Proof.
  intros He Herr. split.
  - intros fuel. apply read_loop_zero_spins; assumption.
  - unfold input_curl_read. rewrite read_loop_zero_spins by assumption. reflexivity.
Qed.

End OpenedStream.

Lemma opened_stream_read_returns_witness :
  exists out c' eff,
    input_curl_read example_parse mid_stream 100 = Ok (out, c', eff)
    /\ (forall nbytes dest,
           out = ReadBytes nbytes dest ->
           0 < nbytes <= 100 /\ Z.of_nat (List.length dest) = nbytes)
    /\ curl_total_buffer_size c' < CURL_MAX_BUFFERED.
Proof.
  assert (Hs : Forall sized_event
                      [header_line "Content-Length: 10";
                       header_line "Accept-Ranges: bytes";
                       write_of ten_bytes; EvRead 4]).
  { constructor; [|constructor; [|constructor; [|constructor; [|constructor]]]];
      unfold sized_event, header_line, write_of, wf_event, G_MAXINT64, SIZE_MODULUS;
      cbn; lia. }
  apply (opened_stream_read_returns example_parse example_globals answers_ok
           "http://example/stream" example_stream
           [New_input_curl; Io_thread_call IO_easy_add]
           [header_line "Content-Length: 10"; header_line "Accept-Ranges: bytes";
            write_of ten_bytes; EvRead 4]
           mid_stream 4 100).
  - vm_compute. reflexivity.
  - exact Hs.
  - vm_compute. reflexivity.
  - unfold SIZE_MODULUS. lia.
Defined.

Lemma read_zero_never_returns_witness :
  input_curl_read example_parse mid_stream 0 = Spin.
Proof.
  apply (read_zero_never_returns example_parse mid_stream).
  - vm_compute. reflexivity.
  - vm_compute. reflexivity.
Defined.

Lemma fd_events_cleared (fd : Z) (sets : CurlSockets.fd_set * CurlSockets.fd_set
                                        * CurlSockets.fd_set) :
  fst (CurlSockets.input_curl_fd_events
         fd (snd (CurlSockets.input_curl_fd_events fd sets))) = 0.
Proof.
  destruct sets as [[r w] e].
  exact (proj1 (proj2 (proj2 (proj2 (proj2 (proj2 (proj2
           (fd_events_facts fd r w e)))))))).
Qed.

Lemma fd_events_other (fd fd' : Z) (sets : CurlSockets.fd_set * CurlSockets.fd_set
                                           * CurlSockets.fd_set) :
  fd' <> fd ->
  fst (CurlSockets.input_curl_fd_events
         fd' (snd (CurlSockets.input_curl_fd_events fd sets)))
  = fst (CurlSockets.input_curl_fd_events fd' sets).
Proof.
  destruct sets as [[r w] e].
  exact (proj2 (proj2 (proj2 (proj2 (proj2 (proj2 (proj2
           (fd_events_facts fd r w e))))))) fd').
Qed.

Lemma UpdateSocketList_spec (watched : list (Z * Z)) :
  forall sets,
    NoDup (map fst watched) ->
    let L := fst (CurlSockets.UpdateSocketList watched sets) in
    let sets' := snd (CurlSockets.UpdateSocketList watched sets) in
    NoDup (map fst L)
    /\ (forall fd ev,
           In (fd, ev) L
           <-> In fd (map fst watched)
               /\ ev = fst (CurlSockets.input_curl_fd_events fd sets) /\ ev <> 0)
    /\ (forall fd, In fd (map fst watched) ->
                   fst (CurlSockets.input_curl_fd_events fd sets') = 0)
    /\ (forall fd, ~ In fd (map fst watched) ->
                   fst (CurlSockets.input_curl_fd_events fd sets')
                   = fst (CurlSockets.input_curl_fd_events fd sets)).
Proof.
  induction watched as [|[fd0 ev0] rest IH]; intros sets Hnd; cbv zeta.
  - cbn. split; [constructor|]. split; [|split].
    + intros fd ev. split; [intros [] | intros [[] _]].
    + intros fd [].
    + intros fd _. reflexivity.
  - cbn [CurlSockets.UpdateSocketList map fst] in *.
    inversion Hnd as [|? ? Hnotin Hnd']; subst.
    destruct (CurlSockets.input_curl_fd_events fd0 sets) as [events sets1] eqn:E0.
    specialize (IH sets1 Hnd'). cbv zeta in IH.
    destruct (CurlSockets.UpdateSocketList rest sets1) as [rest' sets2] eqn:E1.
    cbn [fst snd] in IH. destruct IH as (IH1 & IH2 & IH3 & IH4).
    assert (Hc : fst (CurlSockets.input_curl_fd_events fd0 sets1) = 0).
    { pose proof (fd_events_cleared fd0 sets) as H. now rewrite E0 in H. }
    assert (Ho : forall fd, fd <> fd0 ->
                            fst (CurlSockets.input_curl_fd_events fd sets1)
                            = fst (CurlSockets.input_curl_fd_events fd sets)).
    { intros fd Hne. pose proof (fd_events_other fd0 fd sets Hne) as H.
      now rewrite E0 in H. }
    assert (Hsub : forall fd ev, In (fd, ev) rest' -> fd <> fd0).
    { intros fd ev Hin ->. apply IH2 in Hin. destruct Hin as [Hin _].
      contradiction. }
    cbn [fst snd].
    split; [|split; [|split]].
    + destruct (events =? 0); [exact IH1|]. cbn [map fst]. constructor; [|exact IH1].
      intros Hin. apply in_map_iff in Hin as [[fd ev] [Hfd Hin]]. cbn in Hfd. subst fd.
      now apply (Hsub fd0 ev).
    + intros fd ev. split.
      * intros Hin.
        assert (Hcase : (fd, ev) = (fd0, events) /\ events <> 0 \/ In (fd, ev) rest').
        { destruct (Z.eqb_spec events 0) as [Hz|Hz]; [right; exact Hin|].
          destruct Hin as [Heq|Hin]; [left; split; [now symmetry | exact Hz]
                                     | right; exact Hin]. }
        destruct Hcase as [[[= -> ->] Hz]|Hin'].
        -- split; [left; reflexivity|]. rewrite E0. split; [reflexivity | exact Hz].
        -- pose proof (Hsub _ _ Hin') as Hne. apply IH2 in Hin'.
           destruct Hin' as (H1 & H2 & H3). split; [right; exact H1|].
           rewrite <- (Ho fd Hne). split; assumption.
      * intros ([->|Hin] & Hev & Hnz).
        -- rewrite E0 in Hev. cbn [fst] in Hev. subst ev.
           destruct (Z.eqb_spec events 0) as [Hz|_]; [contradiction|]. left. reflexivity.
        -- assert (Hne : fd <> fd0) by (intros ->; contradiction).
           assert (Hin' : In (fd, ev) rest').
           { apply IH2. rewrite (Ho fd Hne). auto. }
           destruct (events =? 0); [exact Hin' | right; exact Hin'].
    + intros fd [->|Hin].
      * destruct (in_dec Z.eq_dec fd (map fst rest)) as [Hi|Hni]; [contradiction|].
        rewrite (IH4 fd Hni). exact Hc.
      * apply IH3. exact Hin.
    + intros fd Hnot.
      assert (Hne : fd <> fd0) by (intros ->; apply Hnot; left; reflexivity).
      rewrite IH4 by (intros Hin; apply Hnot; right; exact Hin).
      apply Ho. exact Hne.
Qed.

Lemma add_new_sockets_spec (n : nat) :
  forall fd watched sets,
    NoDup (map fst watched) ->
    (forall x, In x (map fst watched) ->
               fst (CurlSockets.input_curl_fd_events x sets) = 0) ->
    let R := CurlSockets.add_new_sockets n fd watched sets in
    NoDup (map fst R)
    /\ forall x ev,
         In (x, ev) R
         <-> In (x, ev) watched
             \/ (fd <= x < fd + Z.of_nat n
                 /\ ev = fst (CurlSockets.input_curl_fd_events x sets) /\ ev <> 0).
Proof.
  induction n as [|n IH]; intros fd watched sets Hnd Hclr; cbv zeta.
  - cbn [CurlSockets.add_new_sockets]. split; [exact Hnd|].
    intros x ev. split; [auto | intros [H|[H _]]; [exact H | lia]].
  - cbn [CurlSockets.add_new_sockets].
    destruct (CurlSockets.input_curl_fd_events fd sets) as [events sets1] eqn:E0.
    assert (Hc : fst (CurlSockets.input_curl_fd_events fd sets1) = 0).
    { pose proof (fd_events_cleared fd sets) as H. now rewrite E0 in H. }
    assert (Ho : forall x, x <> fd ->
                           fst (CurlSockets.input_curl_fd_events x sets1)
                           = fst (CurlSockets.input_curl_fd_events x sets)).
    { intros x Hne. pose proof (fd_events_other fd x sets Hne) as H.
      now rewrite E0 in H. }
    assert (Hev : events = fst (CurlSockets.input_curl_fd_events fd sets))
      by (now rewrite E0).
    set (watched1 := if events =? 0 then watched else (fd, events) :: watched).
    assert (Hnd1 : NoDup (map fst watched1)).
    { unfold watched1. destruct (Z.eqb_spec events 0) as [Hz|Hz]; [exact Hnd|].
      cbn [map fst]. constructor; [|exact Hnd].
      intros Hin. apply Hclr in Hin. congruence. }
    assert (Hclr1 : forall x, In x (map fst watched1) ->
                              fst (CurlSockets.input_curl_fd_events x sets1) = 0).
    { intros x Hin. destruct (Z.eq_dec x fd) as [->|Hne]; [exact Hc|].
      rewrite (Ho x Hne). apply Hclr. unfold watched1 in Hin.
      destruct (events =? 0); [exact Hin|].
      destruct Hin as [Hx|Hin]; [cbn in Hx; congruence | exact Hin]. }
    destruct (IH (fd + 1) watched1 sets1 Hnd1 Hclr1) as [IH1 IH2].
    split; [exact IH1|].
    intros x ev. rewrite IH2. split.
    + intros [Hin|(Hr & He & Hnz)].
      * unfold watched1 in Hin. destruct (Z.eqb_spec events 0) as [Hz|Hz];
          [left; exact Hin|].
        destruct Hin as [[= <- <-]|Hin]; [|left; exact Hin].
        right. split; [lia|]. split; [exact Hev | exact Hz].
      * right. split; [lia|]. rewrite <- (Ho x) by lia. split; assumption.
    + intros [Hin|(Hr & He & Hnz)].
      * left. unfold watched1. destruct (events =? 0); [exact Hin | right; exact Hin].
      * destruct (Z.eq_dec x fd) as [->|Hne].
        -- left. unfold watched1. rewrite <- Hev in He. subst ev.
           destruct (Z.eqb_spec events 0) as [Hz|_]; [contradiction|].
           left. reflexivity.
        -- right. split; [lia|]. rewrite (Ho x Hne). split; assumption.
Qed.

(** X19: UpdateSockets() reconciles the watch list with libcurl's sets. *)
Theorem UpdateSockets_reconciles (s : CurlSockets.t) (a : CurlSockets.fdset_answer) :
  CurlSockets.fdset_mcode a = CURLM_OK ->
  NoDup (map fst (CurlSockets.fds s)) ->
  let s' := CurlSockets.UpdateSockets s a in
  NoDup (map fst (CurlSockets.fds s'))
  /\ (forall fd ev,
         In (fd, ev) (CurlSockets.fds s')
         <-> ev = fd_mask a fd /\ ev <> 0
             /\ (In fd (map fst (CurlSockets.fds s))
                 \/ 0 <= fd <= CurlSockets.max_fd a))
  /\ CurlSockets.have_timeout s' = CurlSockets.have_timeout s
  /\ CurlSockets.absolute_timeout s' = CurlSockets.absolute_timeout s.
Proof.
  intros Hok Hnd. cbv zeta. unfold CurlSockets.UpdateSockets. rewrite Hok.
  change (negb (CURLM_OK =? CURLM_OK)) with false. cbv iota.
  set (sets := (CurlSockets.rfds a, CurlSockets.wfds a, CurlSockets.efds a)).
  pose proof (UpdateSocketList_spec (CurlSockets.fds s) sets Hnd) as HL.
  cbv zeta in HL.
  destruct (CurlSockets.UpdateSocketList (CurlSockets.fds s) sets)
    as [watched sets'] eqn:EL.
  cbn [fst snd] in HL. destruct HL as (L1 & L2 & L3 & L4).
  cbn [CurlSockets.fds CurlSockets.have_timeout CurlSockets.absolute_timeout].
  assert (Hclr : forall x, In x (map fst watched) ->
                           fst (CurlSockets.input_curl_fd_events x sets') = 0).
  { intros x Hin. apply in_map_iff in Hin as [[fd ev] [Hfd Hin]]. cbn in Hfd.
    subst fd. apply L3. apply L2 in Hin. apply Hin. }
  destruct (add_new_sockets_spec (Z.to_nat (CurlSockets.max_fd a + 1)) 0
                                 watched sets' L1 Hclr) as [R1 R2].
  split; [exact R1|]. split; [|auto].
  intros fd ev. rewrite R2, L2. unfold fd_mask. fold sets. split.
  - intros [(Hin & He & Hnz)|(Hr & He & Hnz)].
    + auto.
    + destruct (in_dec Z.eq_dec fd (map fst (CurlSockets.fds s))) as [Hin|Hnot].
      * rewrite (L3 fd Hin) in He. contradiction.
      * rewrite (L4 fd Hnot) in He. split; [exact He|]. split; [exact Hnz|].
        right. lia.
  - intros (He & Hnz & Hwhere).
    destruct (in_dec Z.eq_dec fd (map fst (CurlSockets.fds s))) as [Hin|Hnot].
    + left. auto.
    + destruct Hwhere as [Hin|Hr]; [contradiction|].
      right. split; [lia|]. rewrite (L4 fd Hnot). auto.
Qed.

Lemma UpdateSockets_reconciles_witness :
  let s' := CurlSockets.UpdateSockets watching_5 wants_5_7 in
  NoDup (map fst (CurlSockets.fds s'))
  /\ (forall fd ev,
         In (fd, ev) (CurlSockets.fds s')
         <-> ev = fd_mask wants_5_7 fd /\ ev <> 0
             /\ (In fd (map fst (CurlSockets.fds watching_5))
                 \/ 0 <= fd <= CurlSockets.max_fd wants_5_7))
  /\ CurlSockets.have_timeout s' = CurlSockets.have_timeout watching_5
  /\ CurlSockets.absolute_timeout s' = CurlSockets.absolute_timeout watching_5.
Proof.
  apply UpdateSockets_reconciles.
  - reflexivity.
  - cbn. constructor; [intros [] | constructor].
Defined.


Lemma NoDup_remove_nat (c : nat) (l : list nat) :
  NoDup l -> NoDup (remove Nat.eq_dec c l).
Proof.
  induction 1 as [|x l Hx Hl IH]; [constructor|]. cbn [remove].
  destruct (Nat.eq_dec c x); [exact IH|]. constructor; [|exact IH].
  intros Hin. apply in_remove in Hin. tauto.
Qed.

Lemma store_same (R : Reactor.t) (c : nat) (v : input_curl) :
  Reactor.heap (Reactor.store R c v) c = v.
Proof. cbn. now rewrite Nat.eqb_refl. Qed.

Lemma store_other (R : Reactor.t) (c q : nat) (v : input_curl) :
  q <> c -> Reactor.heap (Reactor.store R c v) q = Reactor.heap R q.
Proof. intros H. cbn. apply Nat.eqb_neq in H. now rewrite H. Qed.

(** What Reactor.input_curl_easy_free does to the list and to the
    streams. *)
Lemma reactor_easy_free_spec (R : Reactor.t) (c : nat) :
  registry_ok R ->
  let R' := Reactor.input_curl_easy_free R c in
  registry_ok R'
  /\ ~ In c (Reactor.requests R')
  /\ (forall q, In q (Reactor.requests R') <-> In q (Reactor.requests R) /\ q <> c)
  /\ Reactor.heap R' c = input_curl_easy_free (Reactor.heap R c)
  /\ (forall q, q <> c -> Reactor.heap R' q = Reactor.heap R q).
Proof.
  intros [Hnd Hreg]. cbv zeta. unfold Reactor.input_curl_easy_free.
  destruct (is_null (easy (Reactor.heap R c))) eqn:He.
  - assert (Hnot : ~ In c (Reactor.requests R)).
    { intros Hin. destruct (Hreg c Hin) as [H _]. congruence. }
    split; [split; assumption|]. split; [exact Hnot|]. split; [|split; [|auto]].
    + intros q. split; [|tauto]. intros Hin. split; [exact Hin|].
      intros ->. contradiction.
    + unfold input_curl_easy_free. destruct (easy (Reactor.heap R c));
        [discriminate He | reflexivity].
  - set (R0 := {| Reactor.requests := remove Nat.eq_dec c (Reactor.requests R);
                  Reactor.heap := Reactor.heap R |}).
    split; [split|].
    + apply NoDup_remove_nat. exact Hnd.
    + intros q Hin. change (In q (remove Nat.eq_dec c (Reactor.requests R))) in Hin.
      apply in_remove in Hin as [Hin Hne].
      rewrite store_other by exact Hne. unfold R0. cbn [Reactor.heap].
      apply Hreg. exact Hin.
    + split; [apply remove_In|]. split; [|split].
      * intros q. split; [apply in_remove|]. intros [Hin Hne].
        apply in_in_remove; assumption.
      * apply store_same.
      * intros q Hne. rewrite store_other by exact Hne. reflexivity.
Qed.

Lemma abort_all_requests_ends (fuel : nat) (error : GError) :
  forall R,
    registry_ok R -> (List.length (Reactor.requests R) <= fuel)%nat ->
    exists R',
      Reactor.input_curl_abort_all_requests fuel R error = Ok R'
      /\ Reactor.requests R' = []
      /\ (forall c, In c (Reactor.requests R) ->
                    Reactor.heap R' c
                    = with_base (set_ready true)
                                (set_postponed_error
                                   (Some error)
                                   (input_curl_easy_free (Reactor.heap R c))))
      /\ (forall c, ~ In c (Reactor.requests R) ->
                    Reactor.heap R' c = Reactor.heap R c).
Proof.
  induction fuel as [|fuel IH]; intros R Hok Hfuel.
  - destruct (Reactor.requests R) as [|c rest] eqn:Hreq; [|cbn in Hfuel; lia].
    exists R. cbn [Reactor.input_curl_abort_all_requests]. rewrite Hreq.
    split; [reflexivity|]. split; [reflexivity|]. split; [intros c []|auto].
  - cbn [Reactor.input_curl_abort_all_requests].
    destruct (Reactor.requests R) as [|c rest] eqn:Hreq.
    { exists R. rewrite ?Hreq. split; [reflexivity|]. split; [reflexivity|].
      split; [intros c []|auto]. }
    assert (Hin : In c (Reactor.requests R)) by (rewrite Hreq; left; reflexivity).
    destruct Hok as [Hnd Hreg]. destruct (Hreg c Hin) as [Hlive Herr].
    rewrite Herr. cbn [is_null assert bind].
    destruct (reactor_easy_free_spec R c (conj Hnd Hreg))
      as ((Hnd1 & Hreg1) & Hnot1 & Hmem1 & Hc1 & Hoth1).
    set (R1 := Reactor.input_curl_easy_free R c) in *.
    set (v := with_base (set_ready true)
                        (set_postponed_error (Some error) (Reactor.heap R1 c))).
    set (R2 := Reactor.store R1 c v).
    assert (Hok2 : registry_ok R2).
    { split; [exact Hnd1|]. intros q Hq. cbn [Reactor.requests Reactor.store R2] in Hq.
      assert (q <> c) by (intros ->; contradiction).
      unfold R2. rewrite store_other by assumption. apply Hreg1. exact Hq. }
    assert (Hlen : (List.length (Reactor.requests R2) <= fuel)%nat).
    { cbn [Reactor.requests Reactor.store R2].
      assert (Hsub : (List.length (Reactor.requests R1)
                      < List.length (Reactor.requests R))%nat).
      { unfold R1, Reactor.input_curl_easy_free. rewrite Hlive.
        cbn [Reactor.requests Reactor.store]. apply remove_length_lt. exact Hin. }
      rewrite Hreq in Hsub. cbn [List.length] in Hsub, Hfuel. lia. }
    destruct (IH R2 Hok2 Hlen) as (R' & HA & HE & HIn & HOut).
    exists R'. split; [exact HA|]. split; [exact HE|]. split.
    + intros q Hq. rewrite <- Hreq in Hq.
      destruct (Nat.eq_dec q c) as [->|Hne].
      * rewrite HOut by exact Hnot1. unfold R2. rewrite store_same.
        unfold v. rewrite Hc1. reflexivity.
      * rewrite HIn.
        -- unfold R2. rewrite store_other by exact Hne. rewrite Hoth1 by exact Hne.
           reflexivity.
        -- apply Hmem1. split; assumption.
    + intros q Hq. rewrite <- Hreq in Hq.
      assert (Hne : q <> c) by (intros ->; contradiction).
      rewrite HOut.
      * unfold R2. rewrite store_other by exact Hne. apply Hoth1. exact Hne.
      * intros Hq1. apply Hmem1 in Hq1. tauto.
Qed.

(** Under [registry_ok], a handle is found exactly when its stream is
    registered. *)
Lemma find_request_registered (R : Reactor.t) (c : nat) :
  registry_ok R ->
  Reactor.input_curl_find_request R c
  = if in_dec Nat.eq_dec c (Reactor.requests R) then Some c else None.
Proof.
  intros [_ Hreg]. unfold Reactor.input_curl_find_request.
  destruct (in_dec Nat.eq_dec c (Reactor.requests R)) as [Hin|Hnot].
  - induction (Reactor.requests R) as [|x l IH]; [destruct Hin|].
    cbn [find]. destruct (Nat.eq_dec x c) as [->|Hne].
    + destruct (Hreg c (or_introl eq_refl)) as [-> _].
      rewrite Nat.eqb_refl. reflexivity.
    + apply Nat.eqb_neq in Hne. rewrite Hne, andb_false_r.
      apply IH.
      * intros q Hq. apply Hreg. right. exact Hq.
      * destruct Hin as [E|Hin]; [|exact Hin]. apply Nat.eqb_neq in Hne. congruence.
  - destruct (find _ (Reactor.requests R)) as [x|] eqn:Hf; [|reflexivity].
    apply find_some in Hf as [Hin Hx]. apply andb_true_iff in Hx as [_ Hx].
    apply Nat.eqb_eq in Hx. subst x. contradiction.
Qed.

Lemma reactor_handle_done_spec (R : Reactor.t) (c : nat) (result status : Z) :
  registry_ok R -> In c (Reactor.requests R) ->
  exists R',
    Reactor.input_curl_handle_done R c result status = Ok R'
    /\ registry_ok R'
    /\ (forall q, In q (Reactor.requests R') <-> In q (Reactor.requests R) /\ q <> c)
    /\ input_curl_handle_done (Reactor.heap R c) result status
       = Ok (Reactor.heap R' c)
    /\ (forall q, q <> c -> Reactor.heap R' q = Reactor.heap R q).
Proof.
  intros Hok Hin. unfold Reactor.input_curl_handle_done.
  rewrite (find_request_registered R c Hok).
  destruct (in_dec Nat.eq_dec c (Reactor.requests R)) as [_|Hnot]; [|contradiction].
  destruct (reactor_easy_free_spec R c Hok) as ((Hnd1 & Hreg1) & Hnot1 & Hmem1 & Hc1 & Hoth1).
  destruct Hok as [Hnd Hreg]. destruct (Hreg c Hin) as [Hlive Herr].
  set (R1 := Reactor.input_curl_easy_free R c) in *.
  unfold Reactor.input_curl_request_done. rewrite Hc1.
  assert (Hper : input_curl_handle_done (Reactor.heap R c) result status
                 = input_curl_request_done (input_curl_easy_free (Reactor.heap R c))
                                           result status).
  { unfold input_curl_handle_done, assert. rewrite Hlive. reflexivity. }
  destruct (handle_done_outcome (Reactor.heap R c) result status Hlive Herr)
    as (v & Hv & _).
  rewrite Hper in Hv. rewrite Hv. cbn [bind].
  exists (Reactor.store R1 c v).
  split; [reflexivity|]. split; [|split; [|split]].
  - split; [exact Hnd1|]. intros q Hq.
    change (In q (Reactor.requests R1)) in Hq.
    assert (q <> c) by (intros ->; contradiction).
    rewrite store_other by assumption. apply Hreg1. exact Hq.
  - exact Hmem1.
  - rewrite store_same, Hper. exact Hv.
  - intros q Hne. rewrite store_other by exact Hne. apply Hoth1. exact Hne.
Qed.

Lemma reactor_easy_add_spec (ans : curl_answers) (R : Reactor.t) (c : nat) :
  registry_ok R ->
  is_null (easy (Reactor.heap R c)) = false ->
  postponed_error (Reactor.heap R c) = None ->
  if in_dec Nat.eq_dec c (Reactor.requests R) then
    Reactor.input_curl_easy_add ans R c = AssertFail
  else
    exists ok err R',
      Reactor.input_curl_easy_add ans R c = Ok (ok, err, R')
      /\ registry_ok R'
      /\ Reactor.requests R' = c :: Reactor.requests R
      /\ Reactor.heap R' = Reactor.heap R
      /\ (ok = true <-> curl_multi_add_handle ans = CURLM_OK)
      /\ (ok = true <-> err = None).
Proof.
  intros Hok Hlive Herr. unfold Reactor.input_curl_easy_add, assert.
  rewrite Hlive. cbn [negb bind]. rewrite (find_request_registered R c Hok).
  destruct (in_dec Nat.eq_dec c (Reactor.requests R)) as [Hin|Hnot];
    [reflexivity|].
  cbn [is_null bind].
  assert (Hok' : registry_ok {| Reactor.requests := c :: Reactor.requests R;
                                Reactor.heap := Reactor.heap R |}).
  { destruct Hok as [Hnd Hreg]. split; [constructor; assumption|].
    intros q [<-|Hq]; cbn [Reactor.heap]; [auto | apply Hreg; exact Hq]. }
  destruct (Z.eqb_spec (curl_multi_add_handle ans) CURLM_OK) as [E|E]; cbn [negb].
  - do 3 eexists. split; [reflexivity|]. split; [exact Hok'|].
    repeat (split; [reflexivity|]). split; split; auto.
  - do 3 eexists. split; [reflexivity|]. split; [exact Hok'|].
    repeat (split; [reflexivity|]). split; split; intros H; try discriminate H.
    contradiction.
Qed.

Lemma info_read_registry (msgs : list Reactor.CURLMsg) :
  forall R R',
    registry_ok R ->
    Reactor.input_curl_info_read R msgs = Ok R' ->
    registry_ok R'
    /\ (forall q, In q (Reactor.requests R') -> In q (Reactor.requests R))
    /\ (forall q result status,
           In (Reactor.CURLMSG_DONE q result status) msgs ->
           ~ In q (Reactor.requests R')).
Proof.
  induction msgs as [|m msgs IH]; intros R R' Hok Hread.
  - injection Hread as <-. split; [exact Hok|]. split; [auto|]. intros q r s [].
  - cbn [Reactor.input_curl_info_read] in Hread.
    destruct m as [c result status|].
    + destruct (Reactor.input_curl_handle_done R c result status) as [R1| |] eqn:HD;
        cbn [bind] in Hread; try discriminate Hread.
      assert (Hin : In c (Reactor.requests R)).
      { unfold Reactor.input_curl_handle_done in HD.
        rewrite (find_request_registered R c Hok) in HD.
        destruct (in_dec Nat.eq_dec c (Reactor.requests R)); [assumption|discriminate]. }
      destruct (reactor_handle_done_spec R c result status Hok Hin)
        as (R1' & HD' & Hok1 & Hmem1 & _).
      rewrite HD in HD'. injection HD' as <-.
      destruct (IH R1 R' Hok1 Hread) as (Hok' & Hsub & Hdone).
      split; [exact Hok'|]. split.
      * intros q Hq. apply Hsub in Hq. apply Hmem1 in Hq. tauto.
      * intros q r s [[= -> _ _]|Hq]; [|eapply Hdone; exact Hq].
        intros Hq. apply Hsub in Hq. apply Hmem1 in Hq. tauto.
    + destruct (IH R R' Hok Hread) as (Hok' & Hsub & Hdone).
      split; [exact Hok'|]. split; [exact Hsub|].
      intros q r s [H|Hq]; [discriminate H | eapply Hdone; exact Hq].
Qed.

Lemma DispatchSockets_registry_ok
      (ans : curl_answers) (R R' : Reactor.t) (mcodes : list Z)
      (msgs : list Reactor.CURLMsg) :
  registry_ok R ->
  Reactor.DispatchSockets ans R mcodes msgs = Ok R' ->
  registry_ok R'
  /\ (forall q, In q (Reactor.requests R') -> In q (Reactor.requests R))
  /\ match Reactor.perform_loop mcodes with
     | Ok mcode =>
         if mcode =? CURLM_OK then
           forall q result status,
             In (Reactor.CURLMSG_DONE q result status) msgs ->
             ~ In q (Reactor.requests R')
         else
           Reactor.requests R' = []
           /\ forall q, In q (Reactor.requests R) ->
                        is_null (easy (Reactor.heap R' q)) = true
                        /\ ready (base (Reactor.heap R' q)) = true
                        /\ exists e, postponed_error (Reactor.heap R' q) = Some e
                                     /\ code_of e = mcode
     | _ => False
     end.
Proof.
  intros Hok. unfold Reactor.DispatchSockets, Reactor.input_curl_perform.
  destruct (Reactor.perform_loop mcodes) as [mcode| |] eqn:HP; cbn [bind];
    try discriminate.
  assert (Hcall : (mcode =? Reactor.CURLM_CALL_MULTI_PERFORM) = false).
  { clear - HP. induction mcodes as [|m l IH]; [discriminate HP|].
    cbn [Reactor.perform_loop] in HP.
    destruct (m =? Reactor.CURLM_CALL_MULTI_PERFORM) eqn:E; [auto|].
    injection HP as <-. exact E. }
  rewrite Hcall. cbn [negb]. rewrite andb_true_r.
  destruct (Z.eqb_spec mcode CURLM_OK) as [E|E]; cbn [negb bind].
  - intros Hread. destruct (info_read_registry msgs R R' Hok Hread) as (H1 & H2 & H3).
    auto.
  - set (error := g_error_new curl_quark mcode _).
    destruct (abort_all_requests_ends (List.length (Reactor.requests R)) error R Hok
                                      (le_n _)) as (R1 & HA & HE & HIn & HOut).
    rewrite HA. cbn [bind]. intros [= <-].
    split; [|split; [|split]].
    + split; [rewrite HE; constructor|]. intros q Hq. rewrite HE in Hq. destruct Hq.
    + intros q Hq. rewrite HE in Hq. destruct Hq.
    + exact HE.
    + intros q Hq. rewrite (HIn q Hq).
      cbn [easy with_base set_postponed_error base ready set_ready postponed_error].
      rewrite input_curl_easy_free_null. split; [reflexivity|]. split; [reflexivity|].
      exists error. split; reflexivity.
Qed.

(** ** Further properties: the configuration and the request list *)


Lemma two_requests_ok : registry_ok two_requests.
Proof.
  assert (He : is_null (easy example_stream) = false
               /\ postponed_error example_stream = None)
    by (split; vm_compute; reflexivity).
  split.
  - cbn. repeat constructor; cbn; intuition discriminate.
  - intros c _. exact He.
Qed.

(** X21: When curl_multi_perform() fails, every request is aborted: the list
    of requests is emptied, and each stream that was in it has lost its
    handle, has the error latched and is marked ready; the other streams
    are not touched. *)
Theorem abort_all_requests_fails_all (error : GError) (R : Reactor.t) :
  registry_ok R ->
  exists R',
    Reactor.input_curl_abort_all_requests (List.length (Reactor.requests R)) R error
    = Ok R'
    /\ Reactor.requests R' = []
    /\ (forall c, In c (Reactor.requests R) ->
                  Reactor.heap R' c
                  = with_base (set_ready true)
                              (set_postponed_error
                                 (Some error)
                                 (input_curl_easy_free (Reactor.heap R c))))
    /\ (forall c, ~ In c (Reactor.requests R) ->
                  Reactor.heap R' c = Reactor.heap R c).
Proof.
  intros Hok.
  exact (abort_all_requests_ends _ error R Hok (Nat.le_refl _)).
Qed.

Lemma abort_all_requests_fails_all_witness :
  exists R',
    Reactor.input_curl_abort_all_requests
      (List.length (Reactor.requests two_requests)) two_requests perform_failed
    = Ok R'
    /\ Reactor.requests R' = []
    /\ (forall c, In c (Reactor.requests two_requests) ->
                  Reactor.heap R' c
                  = with_base (set_ready true)
                              (set_postponed_error
                                 (Some perform_failed)
                                 (input_curl_easy_free
                                    (Reactor.heap two_requests c))))
    /\ (forall c, ~ In c (Reactor.requests two_requests) ->
                  Reactor.heap R' c = Reactor.heap two_requests c).
Proof.
  apply (abort_all_requests_fails_all perform_failed two_requests).
  exact two_requests_ok.
Defined.

(** X22: The end of the transfer of a registered stream: the stream leaves the
    list of requests, the others stay; the stream is changed as the end
    of a transfer changes it, and no other stream is touched. *)
Theorem handle_done_unregisters
        (R : Reactor.t) (c : nat) (result status : Z) :
  registry_ok R -> In c (Reactor.requests R) ->
  exists R',
    Reactor.input_curl_handle_done R c result status = Ok R'
    /\ registry_ok R'
    /\ (forall q, In q (Reactor.requests R') <-> In q (Reactor.requests R) /\ q <> c)
    /\ input_curl_handle_done (Reactor.heap R c) result status
       = Ok (Reactor.heap R' c)
    /\ (forall q, q <> c -> Reactor.heap R' q = Reactor.heap R q).
Proof. exact (reactor_handle_done_spec R c result status). Qed.

Lemma handle_done_unregisters_witness :
  exists R',
    Reactor.input_curl_handle_done two_requests 0 CURLE_OK 200 = Ok R'
    /\ registry_ok R'
    /\ (forall q, In q (Reactor.requests R')
                  <-> In q (Reactor.requests two_requests) /\ q <> 0%nat)
    /\ input_curl_handle_done (Reactor.heap two_requests 0) CURLE_OK 200
       = Ok (Reactor.heap R' 0)
    /\ (forall q, q <> 0%nat -> Reactor.heap R' q = Reactor.heap two_requests q).
Proof.
  apply (handle_done_unregisters two_requests 0 CURLE_OK 200).
  - exact two_requests_ok.
  - cbn. auto.
Defined.

(** X23: Adding a transfer: a stream that is in the list already fails the
    assertion; otherwise the stream is put at the front of the list,
    also when libcurl refuses the handle, and the call succeeds exactly
    when libcurl accepts it. *)
Theorem easy_add_registers (ans : curl_answers) (R : Reactor.t) (c : nat) :
  registry_ok R ->
  is_null (easy (Reactor.heap R c)) = false ->
  postponed_error (Reactor.heap R c) = None ->
  if in_dec Nat.eq_dec c (Reactor.requests R) then
    Reactor.input_curl_easy_add ans R c = AssertFail
  else
    exists ok err R',
      Reactor.input_curl_easy_add ans R c = Ok (ok, err, R')
      /\ registry_ok R'
      /\ Reactor.requests R' = c :: Reactor.requests R
      /\ Reactor.heap R' = Reactor.heap R
      /\ (ok = true <-> curl_multi_add_handle ans = CURLM_OK)
      /\ (ok = true <-> err = None).
Proof. exact (reactor_easy_add_spec ans R c). Qed.

Lemma easy_add_registers_witness :
  if in_dec Nat.eq_dec 2%nat (Reactor.requests two_requests) then
    Reactor.input_curl_easy_add answers_ok two_requests 2 = AssertFail
  else
    exists ok err R',
      Reactor.input_curl_easy_add answers_ok two_requests 2 = Ok (ok, err, R')
      /\ registry_ok R'
      /\ Reactor.requests R' = 2%nat :: Reactor.requests two_requests
      /\ Reactor.heap R' = Reactor.heap two_requests
      /\ (ok = true <-> curl_multi_add_handle answers_ok = CURLM_OK)
      /\ (ok = true <-> err = None).
Proof.
  apply (easy_add_registers answers_ok two_requests 2).
  - exact two_requests_ok.
  - vm_compute. reflexivity.
  - vm_compute. reflexivity.
Defined.

(** X24: One round of the I/O thread keeps the list of requests in order: it
    adds nothing to it; when curl_multi_perform() succeeds, no stream
    whose transfer libcurl reports as done stays in it; when it fails,
    the list is emptied and every stream that was in it has lost its
    handle, is ready and has an error latched that carries libcurl's
    code. *)
Theorem DispatchSockets_keeps_registry
        (ans : curl_answers) (R R' : Reactor.t) (mcodes : list Z)
        (msgs : list Reactor.CURLMsg) :
  registry_ok R ->
  Reactor.DispatchSockets ans R mcodes msgs = Ok R' ->
  registry_ok R'
  /\ (forall q, In q (Reactor.requests R') -> In q (Reactor.requests R))
  /\ match Reactor.perform_loop mcodes with
     | Ok mcode =>
         if mcode =? CURLM_OK then
           forall q result status,
             In (Reactor.CURLMSG_DONE q result status) msgs ->
             ~ In q (Reactor.requests R')
         else
           Reactor.requests R' = []
           /\ forall q, In q (Reactor.requests R) ->
                        is_null (easy (Reactor.heap R' q)) = true
                        /\ ready (base (Reactor.heap R' q)) = true
                        /\ exists e, postponed_error (Reactor.heap R' q) = Some e
                                     /\ code_of e = mcode
     | _ => False
     end.
Proof. exact (DispatchSockets_registry_ok ans R R' mcodes msgs). Qed.

Lemma DispatchSockets_keeps_registry_witness :
  match Reactor.DispatchSockets answers_ok two_requests [CURLM_OK]
                                [Reactor.CURLMSG_DONE 0 CURLE_OK 200] with
  | Ok R' =>
      registry_ok R'
      /\ (forall q, In q (Reactor.requests R')
                    -> In q (Reactor.requests two_requests))
      /\ forall q result status,
          In (Reactor.CURLMSG_DONE q result status)
             [Reactor.CURLMSG_DONE 0 CURLE_OK 200] ->
          ~ In q (Reactor.requests R')
  | _ => False
  end.
Proof.
  destruct (Reactor.DispatchSockets answers_ok two_requests [CURLM_OK]
                                    [Reactor.CURLMSG_DONE 0 CURLE_OK 200])
    as [R'| |] eqn:E.
  - exact (DispatchSockets_keeps_registry
             answers_ok two_requests R' [CURLM_OK]
             [Reactor.CURLMSG_DONE 0 CURLE_OK 200] two_requests_ok E).
  - vm_compute in E. discriminate E.
  - vm_compute in E. discriminate E.
Defined.

(** ** Reading: audio and metadata *)

Lemma demux_app (stride : Z) (a : list byte) :
  forall ph b,
    spec_demux stride ph (a ++ b)
    = ((fst (spec_demux stride ph a) ++ fst (spec_demux stride (snd (spec_demux stride ph a)) b))%list,
       snd (spec_demux stride (snd (spec_demux stride ph a)) b)).
Proof.
  induction a as [|x a IH]; intros ph b.
  - cbn. destruct (spec_demux stride ph b); reflexivity.
  - cbn [app spec_demux]. destruct (spec_frame_byte stride ph x) as [audio ph1].
    rewrite (IH ph1 b). destruct (spec_demux stride ph1 a) as [a1 ph2]. cbn [fst snd].
    destruct (spec_demux stride ph2 b) as [a2 ph3]. cbn [fst snd].
    destruct audio; reflexivity.
Qed.

Lemma demux_run (stride : Z) (n : nat) :
  forall rest bytes,
    0 < rest -> Z.of_nat n <= rest -> (n <= List.length bytes)%nat ->
    spec_demux stride (AtAudio rest) (firstn n bytes)
    = (firstn n bytes,
       if rest - Z.of_nat n =? 0 then AtLength else AtAudio (rest - Z.of_nat n)).
Proof.
  induction n as [|n IH]; intros rest bytes Hrest Hn Hlen.
  - cbn. destruct (Z.eqb_spec (rest - 0) 0); [lia|]. now rewrite Z.sub_0_r.
  - destruct bytes as [|b r]; [cbn in Hlen; lia|].
    cbn [firstn spec_demux spec_frame_byte].
    destruct (Z.eqb_spec (rest - 1) 0) as [E|E].
    + assert (n = 0%nat) by lia. subst n. cbn.
      destruct (Z.eqb_spec (rest - 1) 0); [reflexivity | lia].
    + rewrite (IH (rest - 1) r) by (cbn in Hlen; lia). cbn [fst snd].
      replace (rest - 1 - Z.of_nat n) with (rest - Z.of_nat (S n)) by lia.
      reflexivity.
Qed.

Lemma demux_meta (stride : Z) (n : nat) :
  forall rest bytes,
    0 < rest -> Z.of_nat n <= rest -> (n <= List.length bytes)%nat ->
    spec_demux stride (AtMeta rest) (firstn n bytes)
    = ([], if rest - Z.of_nat n =? 0 then AtAudio stride
           else AtMeta (rest - Z.of_nat n)).
Proof.
  induction n as [|n IH]; intros rest bytes Hrest Hn Hlen.
  - cbn. destruct (Z.eqb_spec (rest - 0) 0); [lia|]. now rewrite Z.sub_0_r.
  - destruct bytes as [|b r]; [cbn in Hlen; lia|].
    cbn [firstn spec_demux spec_frame_byte].
    destruct (Z.eqb_spec (rest - 1) 0) as [E|E].
    + assert (n = 0%nat) by lia. subst n. cbn.
      destruct (Z.eqb_spec (rest - 1) 0); [reflexivity | lia].
    + rewrite (IH (rest - 1) r) by (cbn in Hlen; lia). cbn [fst snd].
      replace (rest - 1 - Z.of_nat n) with (rest - Z.of_nat (S n)) by lia.
      reflexivity.
Qed.

(** Going on from a parser that stands where the first piece ends. *)
Lemma audio_of_app (p p1 : IcyMetaDataParser.t) (a b : list byte) :
  IcyMetaDataParser.stride p1 = IcyMetaDataParser.stride p ->
  spec_phase_of p1 = spec_phase_after p a ->
  spec_audio_of p (a ++ b) = (spec_audio_of p a ++ spec_audio_of p1 b)%list
  /\ spec_phase_after p (a ++ b) = spec_phase_after p1 b.
Proof.
  intros Hs Hp. unfold spec_audio_of, spec_phase_after in *.
  unfold IcyMetaDataParser.IsDefined in *. rewrite Hs.
  destruct (0 <? IcyMetaDataParser.stride p).
  - rewrite demux_app. cbn [fst snd]. rewrite <- Hp. split; reflexivity.
  - split; [reflexivity | symmetry; exact Hp].
Qed.

Lemma audio_of_nil (p : IcyMetaDataParser.t) :
  spec_audio_of p [] = [] /\ spec_phase_after p [] = spec_phase_of p.
Proof.
  unfold spec_audio_of, spec_phase_after. destruct (IcyMetaDataParser.IsDefined p); auto.
Qed.

Lemma frames_compose (p p1 p2 : IcyMetaDataParser.t) (l a1 a2 : list byte)
      (k1 k2 : nat) :
  spec_frames p l k1 a1 p1 -> spec_frames p1 (skipn k1 l) k2 a2 p2 ->
  spec_frames p l (k1 + k2) (a1 ++ a2)%list p2.
Proof.
  intros (Ha1 & Hs1 & Hp1) (Ha2 & Hs2 & Hp2). unfold spec_frames.
  rewrite firstn_plus.
  destruct (audio_of_app p p1 (firstn k1 l) (firstn k2 (skipn k1 l)) Hs1 Hp1)
    as [Ha Hp].
  rewrite Ha, Hp, Ha1, Ha2. split; [reflexivity|]. split; congruence.
Qed.

Lemma Begin_consume (b b' : CurlInputBuffer) (len : Z) :
  0 <= CurlInputBuffer.consumed b -> 0 <= len ->
  CurlInputBuffer.consumed b' = CurlInputBuffer.consumed b + len ->
  CurlInputBuffer.data b' = CurlInputBuffer.data b ->
  CurlInputBuffer.Begin b' = skipn (Z.to_nat len) (CurlInputBuffer.Begin b).
Proof.
  intros Hc Hl H1 H2. unfold CurlInputBuffer.Begin.
  rewrite H1, H2, skipn_skipn. f_equal. lia.
Qed.

(** data() hands out audio bytes only, and leaves the parser where the
    framing says. *)
Lemma Data_frames (p : IcyMetaDataParser.t) (limit : Z) (bytes : list byte) :
  icy_wf p -> 0 < limit <= Z.of_nat (List.length bytes) ->
  spec_frames p bytes (Z.to_nat (fst (IcyMetaDataParser.Data p limit)))
         (firstn (Z.to_nat (fst (IcyMetaDataParser.Data p limit))) bytes)
         (snd (IcyMetaDataParser.Data p limit)).
Proof.
  intros Hwf Hlim. unfold spec_frames, IcyMetaDataParser.Data, spec_audio_of, spec_phase_after.
  destruct (IcyMetaDataParser.IsDefined p) eqn:Hdef; cbn [negb fst snd].
  2:{ auto. }
  specialize (Hwf Hdef).
  destruct (IcyMetaDataParser.state p) as [rest| |rest text] eqn:Hst;
    cbn [fst snd IcyMetaDataParser.stride]; rewrite ?Hdef.
  - assert (Hph : spec_phase_of p = AtAudio rest) by (unfold spec_phase_of; now rewrite Hst).
    rewrite Hph.
    rewrite (demux_run (IcyMetaDataParser.stride p) (Z.to_nat (Z.min rest limit))
                       rest bytes Hwf) by lia.
    cbn [fst snd]. rewrite Z2Nat.id by lia.
    split; [reflexivity|]. split; [reflexivity|].
    unfold spec_phase_of. cbn [IcyMetaDataParser.state].
    destruct (rest - Z.min rest limit =? 0); reflexivity.
  - cbn. unfold spec_phase_of. rewrite Hst. auto.
  - cbn. unfold spec_phase_of. rewrite Hst. auto.
Qed.

(** meta() consumes no audio byte, and leaves the parser where the
    framing says. *)
Lemma Meta_frames (parse : list byte -> option struct_tag)
      (p : IcyMetaDataParser.t) (bytes : list byte) (limit : Z) :
  IcyMetaDataParser.IsDefined p = true -> at_meta p ->
  0 < limit <= Z.of_nat (List.length bytes) ->
  spec_frames p bytes (Z.to_nat (fst (IcyMetaDataParser.Meta parse p bytes limit)))
         [] (snd (IcyMetaDataParser.Meta parse p bytes limit)).
Proof.
  intros Hdef Hat Hlim.
  unfold spec_frames, IcyMetaDataParser.Meta, spec_audio_of, spec_phase_after. rewrite Hdef.
  unfold at_meta in Hat.
  destruct (IcyMetaDataParser.state p) as [rest| |rest text] eqn:Hst;
    [destruct Hat| |].
  - assert (Hph : spec_phase_of p = AtLength) by (unfold spec_phase_of; now rewrite Hst).
    rewrite Hph.
    assert (E : (limit <=? 0) = false) by (apply Z.leb_gt; lia). rewrite E.
    destruct bytes as [|b r]; [cbn in Hlim; lia|]. cbn [nth tl].
    cbn [List.length] in Hlim.
    assert (HL : 0 <= Z.of_N (Byte.to_N b)) by lia.
    destruct (Z.of_N (Byte.to_N b) =? 0) eqn:HL0.
    + cbn [fst snd]. change (Z.to_nat 1) with 1%nat.
      cbn [firstn spec_demux spec_frame_byte]. rewrite HL0. cbn [fst snd].
      unfold spec_phase_of. cbn. auto.
    + pose proof (proj1 (Z.eqb_neq _ _) HL0) as HLn.
      unfold IcyMetaDataParser.meta_body.
      set (L := Z.of_N (Byte.to_N b)) in *.
      set (n := Z.min (16 * L) (limit - 1)).
      assert (Hn : 0 <= n <= 16 * L /\ n <= limit - 1) by (unfold n; lia).
      assert (Hk : Z.to_nat (1 + n) = S (Z.to_nat n)) by lia.
      destruct (16 * L - n =? 0) eqn:Hz; cbn [fst snd]; rewrite Hk;
        cbn [firstn spec_demux spec_frame_byte]; fold L; rewrite HL0;
        rewrite (demux_meta (IcyMetaDataParser.stride p) (Z.to_nat n) (16 * L) r)
          by lia;
        rewrite Z2Nat.id by lia; rewrite Hz; cbn [fst snd];
        unfold spec_phase_of; cbn; auto.
  - assert (Hph : spec_phase_of p = AtMeta rest) by (unfold spec_phase_of; now rewrite Hst).
    rewrite Hph.
    unfold IcyMetaDataParser.meta_body.
    set (n := Z.min rest limit).
    assert (Hn : 0 <= n <= rest /\ n <= limit) by (unfold n; lia).
    destruct (rest - n =? 0) eqn:Hz; cbn [fst snd];
      rewrite (demux_meta (IcyMetaDataParser.stride p) (Z.to_nat n) rest bytes)
        by lia;
      rewrite Z2Nat.id by lia; rewrite Hz; cbn [fst snd];
      unfold spec_phase_of; cbn; auto.
Qed.

Section FramedReading.

Variable icy_parse_tag : list byte -> option struct_tag.

(** The loop of read_from_buffer() takes [k] bytes off the front of the
    buffers, hands out the audio bytes among them and counts those. *)
Lemma read_from_buffer_loop_frames (fuel : nat) :
  forall icy buffer rest length nbytes dest,
    buf_wf buffer -> Forall buf_wf rest -> icy_wf icy ->
    0 < length <= CurlInputBuffer.size buffer - CurlInputBuffer.consumed buffer ->
    (Z.to_nat length <= fuel)%nat ->
    0 <= nbytes -> nbytes + length < SIZE_MODULUS ->
    exists icy' bufs' n d k a,
      read_from_buffer_loop icy_parse_tag fuel icy buffer rest length nbytes dest
      = Ok (icy', bufs', n, d)
      /\ (0 < k)%nat /\ Z.of_nat k <= length
      /\ pending bufs' = skipn k (pending (buffer :: rest))
      /\ spec_frames icy (CurlInputBuffer.Begin buffer) k a icy'
      /\ d = (dest ++ a)%list
      /\ n = nbytes + Z.of_nat (List.length a).
Proof.
  induction fuel as [|fuel IH]; intros icy buffer rest length nbytes dest
                                       Hb Hrest Hicy Hlen Hfuel Hnb Hsum; [lia|].
  assert (Hmeta :
    forall icy1 buffer1 length1 nbytes1 dest1,
      IcyMetaDataParser.IsDefined icy1 = true -> at_meta icy1 ->
      buf_wf buffer1 ->
      0 < length1 <= CurlInputBuffer.size buffer1 - CurlInputBuffer.consumed buffer1 ->
      (Z.to_nat length1 <= S fuel)%nat ->
      0 <= nbytes1 -> nbytes1 + length1 < SIZE_MODULUS ->
      exists icy' bufs' n d k a,
        (let '(chunk, icy) :=
           IcyMetaDataParser.Meta icy_parse_tag icy1
                                  (CurlInputBuffer.Begin buffer1) length1 in
         if 0 <? chunk then
           ' (more, buffer) <- CurlInputBuffer.Consume buffer1 chunk ;;
           let length := size_t (length1 - chunk) in
           if negb more then Ok (icy, rest, nbytes1, dest1)
           else if length =? 0 then Ok (icy, buffer :: rest, nbytes1, dest1)
           else read_from_buffer_loop icy_parse_tag fuel icy buffer rest length
                                      nbytes1 dest1
         else read_from_buffer_loop icy_parse_tag fuel icy buffer1 rest length1
                                    nbytes1 dest1)
        = Ok (icy', bufs', n, d)
        /\ (0 < k)%nat /\ Z.of_nat k <= length1
        /\ pending bufs' = skipn k (pending (buffer1 :: rest))
        /\ spec_frames icy1 (CurlInputBuffer.Begin buffer1) k a icy'
        /\ d = (dest1 ++ a)%list
        /\ n = nbytes1 + Z.of_nat (List.length a)).
  { intros icy1 buffer1 length1 nbytes1 dest1 Hdef Hat Hb1 Hlen1 Hfuel1 Hnb1 Hsum1.
    pose proof (Begin_length buffer1 Hb1) as HBl.
    pose proof (Meta_spec icy_parse_tag icy1 (CurlInputBuffer.Begin buffer1) length1
                          Hdef Hat ltac:(lia)) as [Hm Hwf2].
    pose proof (Meta_frames icy_parse_tag icy1 (CurlInputBuffer.Begin buffer1)
                            length1 Hdef Hat ltac:(lia)) as Hfr.
    destruct (IcyMetaDataParser.Meta icy_parse_tag icy1
                (CurlInputBuffer.Begin buffer1) length1) as [chunk2 icy2].
    cbn [fst snd] in Hm, Hwf2, Hfr.
    assert (E : (0 <? chunk2) = true) by (apply Z.ltb_lt; lia). rewrite E.
    destruct (Consume_ok buffer1 chunk2 Hb1 ltac:(lia)) as (b2 & HC & S2 & C2 & D2).
    rewrite HC. cbn [bind].
    pose proof (pending_consume buffer1 b2 rest chunk2 Hb1 Hrest ltac:(lia)
                                S2 C2 D2) as Hpc.
    cbv zeta in Hpc. destruct Hpc as [Hpc _].
    pose proof Hb1 as (Hc1 & Hs1 & Hd1).
    rewrite (size_t_small (length1 - chunk2)) by lia.
    destruct (CurlInputBuffer.consumed buffer1 + chunk2 <? CurlInputBuffer.size buffer1)
             eqn:Hmore; cbn [negb].
    2:{ exists icy2, rest, nbytes1, dest1, (Z.to_nat chunk2), [].
        split; [reflexivity|]. split; [lia|]. split; [lia|].
        split; [exact Hpc|]. split; [exact Hfr|].
        split; [now rewrite app_nil_r | cbn; lia]. }
    apply Z.ltb_lt in Hmore.
    assert (Hb2 : buf_wf b2) by (unfold buf_wf; rewrite D2; lia).
    destruct (length1 - chunk2 =? 0) eqn:Hz.
    { exists icy2, (b2 :: rest), nbytes1, dest1, (Z.to_nat chunk2), [].
      split; [reflexivity|]. split; [lia|]. split; [lia|].
      split; [exact Hpc|]. split; [exact Hfr|].
      split; [now rewrite app_nil_r | cbn; lia]. }
    apply Z.eqb_neq in Hz.
    destruct (IH icy2 b2 rest (length1 - chunk2) nbytes1 dest1 Hb2 Hrest Hwf2
                 ltac:(lia) ltac:(lia) Hnb1 ltac:(lia))
      as (icy' & bufs' & n & d & k & a & Heq & Hk0 & Hk & Hp & Hf & Hd & Hn).
    exists icy', bufs', n, d, (Z.to_nat chunk2 + k)%nat, a.
    split; [exact Heq|]. split; [lia|]. split; [lia|].
    split; [|split; [|split; [exact Hd | exact Hn]]].
    - rewrite Hp, Hpc, skipn_skipn. f_equal. lia.
    - rewrite (Begin_consume buffer1 b2 chunk2 ltac:(lia) ltac:(lia) C2 D2) in Hf.
      exact (frames_compose _ _ _ _ _ _ _ _ Hfr Hf). }
  cbn [read_from_buffer_loop]. cbv zeta.
  pose proof (Begin_length buffer Hb) as HBl.
  pose proof (Data_spec icy length Hicy ltac:(lia)) as (Hd1 & Hd2 & Hd3).
  pose proof (Data_frames icy length (CurlInputBuffer.Begin buffer) Hicy
                          ltac:(lia)) as Hfr.
  destruct (IcyMetaDataParser.Data icy length) as [chunk icy1].
  cbn [fst snd] in Hd1, Hd2, Hd3, Hfr.
  destruct (0 <? chunk) eqn:Hchunk.
  - apply Z.ltb_lt in Hchunk.
    destruct (Read_ok buffer chunk Hb ltac:(lia)) as (b1 & HR & S1 & C1 & D1 & L1).
    rewrite HR. cbn [bind].
    pose proof (pending_consume buffer b1 rest chunk Hb Hrest ltac:(lia)
                                S1 C1 D1) as Hpc.
    cbv zeta in Hpc. destruct Hpc as [Hpc _].
    pose proof Hb as (Hc & Hs & Hdt).
    rewrite (size_t_small (length - chunk)) by lia.
    rewrite (size_t_small (nbytes + chunk)) by lia.
    destruct (CurlInputBuffer.consumed buffer + chunk <? CurlInputBuffer.size buffer)
             eqn:Hmore; cbn [negb].
    2:{ do 4 eexists. exists (Z.to_nat chunk). eexists.
        split; [reflexivity|]. split; [lia|]. split; [lia|].
        split; [exact Hpc|]. split; [exact Hfr|].
        split; [reflexivity | lia]. }
    apply Z.ltb_lt in Hmore.
    assert (Hb1 : buf_wf b1) by (unfold buf_wf; rewrite D1; lia).
    destruct (length - chunk =? 0) eqn:Hz.
    { do 4 eexists. exists (Z.to_nat chunk). eexists.
      split; [reflexivity|]. split; [lia|]. split; [lia|].
      split; [exact Hpc|]. split; [exact Hfr|].
      split; [reflexivity | lia]. }
    apply Z.eqb_neq in Hz.
    destruct (Hd3 ltac:(lia)) as [Hdef Hat].
    destruct (Hmeta icy1 b1 (length - chunk) (nbytes + chunk)
                    (dest ++ firstn (Z.to_nat chunk) (CurlInputBuffer.Begin buffer))%list
                    Hdef Hat Hb1 ltac:(lia) ltac:(lia) ltac:(lia) ltac:(lia))
      as (icy' & bufs' & n & d & k & a & Heq & Hk0 & Hk & Hp & Hf & Hd & Hn).
    exists icy', bufs', n, d, (Z.to_nat chunk + k)%nat,
           (firstn (Z.to_nat chunk) (CurlInputBuffer.Begin buffer) ++ a)%list.
    split; [exact Heq|]. split; [lia|]. split; [lia|].
    split; [|split; [|split]].
    + rewrite Hp, Hpc, skipn_skipn. f_equal. lia.
    + rewrite (Begin_consume buffer b1 chunk ltac:(lia) ltac:(lia) C1 D1) in Hf.
      exact (frames_compose _ _ _ _ _ _ _ _ Hfr Hf).
    + rewrite Hd, app_assoc. reflexivity.
    + rewrite Hn, length_app. lia.
  - apply Z.ltb_ge in Hchunk.
    destruct (Hd3 ltac:(lia)) as [Hdef Hat].
    assert (chunk = 0) by lia. subst chunk. cbn [Z.to_nat firstn] in Hfr.
    destruct (Hmeta icy1 buffer length nbytes dest Hdef Hat Hb Hlen Hfuel Hnb Hsum)
      as (icy' & bufs' & n & d & k & a & Heq & Hk0 & Hk & Hp & Hf & Hd & Hn).
    exists icy', bufs', n, d, k, a.
    split; [exact Heq|]. split; [exact Hk0|]. split; [exact Hk|].
    split; [exact Hp|]. split; [|split; [exact Hd | exact Hn]].
    exact (frames_compose icy icy1 icy' _ [] a 0 k Hfr Hf).
Qed.

Lemma frames_front (p p' : IcyMetaDataParser.t) (l r a : list byte) (k : nat) :
  (k <= List.length l)%nat -> spec_frames p l k a p' -> spec_frames p (l ++ r) k a p'.
Proof.
  intros Hk H. unfold spec_frames in *. rewrite firstn_app.
  replace (k - List.length l)%nat with 0%nat by lia.
  cbn [firstn]. rewrite app_nil_r. exact H.
Qed.

(** read_from_buffer(): the bytes returned are the audio bytes among the
    [k] it takes off the buffers, and the count is their number. *)
Lemma read_from_buffer_frames icy bufs length :
  Forall buf_wf bufs -> bufs <> [] -> icy_wf icy -> 0 < length ->
  exists icy' bufs' n d k,
    read_from_buffer icy_parse_tag icy bufs length = Ok (icy', bufs', n, d)
    /\ icy_wf icy' /\ Forall buf_wf bufs'
    /\ total_available bufs' < total_available bufs
    /\ 0 <= n <= length
    /\ pending bufs' = skipn k (pending bufs)
    /\ spec_frames icy (pending bufs) k d icy'
    /\ n = Z.of_nat (List.length d).
Proof.
  intros Hall Hne Hicy Hlen.
  destruct (read_from_buffer_ok icy_parse_tag icy bufs length Hall Hne Hicy Hlen)
    as (icy' & bufs' & n & d & Heq & Hwf' & Hall' & Hless & Hn & Hd).
  exists icy', bufs', n, d.
  destruct bufs as [|buffer rest]; [congruence|].
  inversion Hall as [|? ? Hb Hrest]; subst.
  unfold read_from_buffer in Heq. rewrite (Available_wf buffer Hb) in Heq.
  set (len := if CurlInputBuffer.size buffer - CurlInputBuffer.consumed buffer <? length
              then CurlInputBuffer.size buffer - CurlInputBuffer.consumed buffer
              else length) in *.
  assert (Hl : 0 < len <= CurlInputBuffer.size buffer - CurlInputBuffer.consumed buffer).
  { unfold len. destruct Hb as (Hc & Hs & _).
    destruct (CurlInputBuffer.size buffer - CurlInputBuffer.consumed buffer <? length)
             eqn:E; [apply Z.ltb_lt in E | apply Z.ltb_ge in E]; lia. }
  destruct (read_from_buffer_loop_frames (S (Z.to_nat len)) icy buffer rest len 0 []
              Hb Hrest Hicy Hl ltac:(lia) ltac:(lia)
              ltac:(destruct Hb as (? & ? & _); lia))
    as (icy2 & bufs2 & n2 & d2 & k & a & Heq2 & Hk0 & Hk & Hp & Hf & Hd2 & Hn2).
  rewrite Heq in Heq2. injection Heq2 as <- <- <- <-.
  cbn [app] in Hd2. subst a. exists k.
  split; [unfold read_from_buffer; rewrite (Available_wf buffer Hb); exact Heq|].
  split; [exact Hwf'|]. split; [exact Hall'|]. split; [exact Hless|].
  split; [exact Hn|]. split; [exact Hp|]. split; [|lia].
  unfold pending. cbn [map List.concat]. apply frames_front; [|exact Hf].
  pose proof (Begin_length buffer Hb). lia.
Qed.

(** The inner loop of input_curl_read(): what it appends to [dest] are
    the audio bytes among the [k] bytes it takes off the buffers. *)
Lemma send_buffer_contents_frames (fuel : nat) :
  forall c size_ nbytes dest,
    stream_wf c ->
    (Z.to_nat (total_available (buffers c)) <= fuel)%nat ->
    0 <= size_ -> 0 <= nbytes -> nbytes + size_ < SIZE_MODULUS ->
    exists c' size' n d k a,
      send_buffer_contents icy_parse_tag fuel c size_ nbytes dest
      = Ok (c', size', n, d)
      /\ pending (buffers c') = skipn k (pending (buffers c))
      /\ spec_frames (icy c) (pending (buffers c)) k a (icy c')
      /\ d = (dest ++ a)%list
      /\ n = nbytes + Z.of_nat (List.length a)
      /\ n + size' = nbytes + size_.
Proof.
  induction fuel as [|fuel IH];
    intros c size_ nbytes dest [Hall Hicy] Hfuel Hs0 Hnb Hsum;
    cbn [send_buffer_contents];
    destruct ((0 <? size_) && negb (is_empty (buffers c))) eqn:Hcond;
    try (exists c, size_, nbytes, dest, 0%nat, []; split; [reflexivity|];
         split; [reflexivity|];
         split; [unfold spec_frames; cbn [firstn];
                 destruct (audio_of_nil (icy c)) as [-> ->]; auto|];
         split; [now rewrite app_nil_r|]; cbn; lia);
    apply andb_true_iff in Hcond as [Hsz Hne]; apply Z.ltb_lt in Hsz;
    assert (Hne' : buffers c <> [])
      by (destruct (buffers c); [discriminate Hne | congruence]);
    pose proof (total_available_wf _ Hall) as [_ Hpos];
    specialize (Hpos Hne'); [lia|].
  destruct (read_from_buffer_frames (icy c) (buffers c) size_ Hall Hne' Hicy Hsz)
    as (icy' & bufs' & copy & bytes & k1 & Heq & Hwf' & Hall' & Hless & Hcopy
        & Hp1 & Hf1 & Hn1).
  rewrite Heq. cbn [bind].
  rewrite (size_t_small (size_ - copy)) by lia.
  rewrite (size_t_small (nbytes + copy)) by lia.
  destruct (IH (set_icy icy' (set_buffers bufs' c)) (size_ - copy) (nbytes + copy)
               (dest ++ bytes)%list)
    as (c' & size' & n & d & k2 & a2 & Heq' & Hp2 & Hf2 & Hd & Hn & Hsz').
  - split; assumption.
  - cbn [buffers set_icy set_buffers]. lia.
  - lia.
  - lia.
  - lia.
  - cbn [buffers icy set_icy set_buffers] in Hp2, Hf2.
    exists c', size', n, d, (k1 + k2)%nat, (bytes ++ a2)%list.
    split; [exact Heq'|]. split; [|split; [|split; [|split]]].
    + rewrite Hp2, Hp1, skipn_skipn. f_equal. lia.
    + rewrite Hp1 in Hf2. exact (frames_compose _ _ _ _ _ _ _ _ Hf1 Hf2).
    + rewrite Hd, app_assoc. reflexivity.
    + rewrite Hn, length_app. lia.
    + lia.
Qed.

(** The outer loop of input_curl_read(): the bytes it returns are the
    audio bytes among the [k] bytes it takes off the buffers. *)
Lemma read_loop_frames (c c' : input_curl) (size_ n : Z) (d : list byte) :
  stream_wf c -> 0 < size_ < SIZE_MODULUS ->
  read_loop icy_parse_tag 2 c size_ = Ok (ReadBytes n d, c') ->
  exists k,
    pending (buffers c') = skipn k (pending (buffers c))
    /\ spec_frames (icy c) (pending (buffers c)) k d (icy c')
    /\ n = Z.of_nat (List.length d) /\ 0 < n <= size_.
Proof.
  intros Hwf Hsize Hloop. cbn [read_loop] in Hloop.
  destruct (fill_buffer c) as [fo c1] eqn:Hfill.
  pose proof (fill_buffer_wf _ _ _ Hfill Hwf) as Hwf1.
  pose proof (fill_buffer_spec _ _ _ Hfill) as (_ & _ & _ & Fb & Fi & _).
  destruct fo as [|[|] err]; try discriminate Hloop.
  destruct (send_buffer_contents_frames (Z.to_nat (total_available (buffers c1)))
              c1 size_ 0 [] Hwf1 ltac:(lia) ltac:(lia) ltac:(lia) ltac:(lia))
    as (c2 & size2 & nbytes & dest & k & a & Hsend & Hp & Hf & Hd & Hn & Hsum).
  assert (Hs2 : 0 <= size2).
  { destruct (send_buffer_contents_ok icy_parse_tag _ c1 size_ 0 [] Hwf1
                (Nat.le_refl _) ltac:(lia) ltac:(lia) ltac:(lia) eq_refl)
      as (c3 & size3 & n3 & d3 & Hsend3 & _ & Hs3 & _).
    rewrite Hsend in Hsend3. injection Hsend3 as <- <- <- <-. exact Hs3. }
  rewrite Hsend in Hloop. cbn [bind] in Hloop.
  cbn [app] in Hd. subst a. rewrite Fb in Hp, Hf. rewrite Fi in Hf.
  pose proof (Nat2Z.is_nonneg (List.length dest)) as Hnn.
  destruct (nbytes =? 0) eqn:Hz.
  2:{ apply Z.eqb_neq in Hz. injection Hloop as <- <- <-.
      exists k. split; [exact Hp|]. split; [exact Hf|]. lia. }
  destruct (fill_buffer c2) as [fo2 c3] eqn:Hfill2.
  destruct fo2 as [|[|] err2]; try discriminate Hloop.
  exfalso. apply Z.eqb_eq in Hz.
  apply fill_buffer_spec in Hfill2 as (_ & _ & _ & _ & _ & Hne).
  destruct (Hne err2 eq_refl) as [_ Hne2].
  apply send_buffer_contents_spec in Hsend as (_ & _ & _ & _ & _ & _ & Hexit);
    [|lia].
  rewrite Hne2 in Hexit. cbn [negb] in Hexit. rewrite andb_true_r in Hexit.
  apply Z.ltb_ge in Hexit. lia.
Qed.

(** input_curl_read(): the bytes it returns are the audio bytes among
    the [k] bytes it takes off the buffers; their number is what it
    returns and what it adds to the offset. *)
Lemma input_curl_read_frames (c c' : input_curl) (size_ n : Z) (d : list byte)
      (eff : list effect) :
  stream_wf c -> 0 < size_ < SIZE_MODULUS ->
  input_curl_read icy_parse_tag c size_ = Ok (ReadBytes n d, c', eff) ->
  exists k,
    pending (buffers c') = skipn k (pending (buffers c))
    /\ spec_frames (icy c) (pending (buffers c)) k d (icy c')
    /\ n = Z.of_nat (List.length d) /\ 0 < n <= size_
    /\ offset (base c') = goffset_of (offset (base c) + n).
Proof.
  intros Hwf Hsize Hr.
  pose proof (input_curl_read_spec _ _ _ _ _ _ Hr) as (_ & _ & [Hn0 Hbase] & _).
  unfold input_curl_read in Hr.
  destruct (read_loop icy_parse_tag 2 c size_) as [[out c1]| |] eqn:Hloop;
    cbn [bind] in Hr; try discriminate Hr.
  destruct out as [n1 d1|err|]; try (injection Hr as Hx; discriminate Hx).
  assert (Hres : n1 = n /\ d1 = d
                 /\ buffers c' = buffers c1
                 /\ IcyMetaDataParser.stride (icy c')
                    = IcyMetaDataParser.stride (icy c1)
                 /\ spec_phase_of (icy c') = spec_phase_of (icy c1)).
  { assert (Hc : forall x : input_curl,
               buffers (if IcyMetaDataParser.IsDefined (icy x)
                        then copy_icy_tag x else x) = buffers x
               /\ IcyMetaDataParser.stride
                    (icy (if IcyMetaDataParser.IsDefined (icy x)
                          then copy_icy_tag x else x))
                  = IcyMetaDataParser.stride (icy x)
               /\ spec_phase_of (icy (if IcyMetaDataParser.IsDefined (icy x)
                                 then copy_icy_tag x else x))
                  = spec_phase_of (icy x)).
    { intros x. destruct (IcyMetaDataParser.IsDefined (icy x)); [|auto].
      unfold copy_icy_tag. cbn.
      destruct (IcyMetaDataParser.tag (icy x)); cbn; auto. }
    destruct (Hc c1) as (Hb & Hs & Hp).
    match type of Hr with
    | (if ?cond then _ else _) = _ => destruct cond
    end; injection Hr as <- <- <- <-;
      unfold input_curl_resume; cbn;
      repeat match goal with
             | |- context [if ?b then _ else _] => destruct b
             end; cbn; auto. }
  destruct Hres as (-> & -> & Hb & Hs & Hp).
  destruct (read_loop_frames c c1 size_ n d Hwf Hsize Hloop)
    as (k & Hpk & (Ha & Hst & Hph) & Hnd & Hnr).
  exists k. rewrite Hb. split; [exact Hpk|].
  split; [unfold spec_frames; rewrite Hs, Hp; auto|].
  split; [exact Hnd|]. split; [exact Hnr|].
  rewrite Hbase. cbn. apply goffset_of_add_idem.
Qed.

End FramedReading.


Lemma icy_stream_buffers :
  buffers icy_stream = [CurlInputBuffer.mk 41 0 icy_body]
  /\ icy icy_stream
     = IcyMetaDataParser.mk 4 (IcyMetaDataParser.InRun 4) None.
Proof. split; vm_compute; reflexivity. Qed.

Lemma icy_stream_wf : stream_wf icy_stream.
Proof.
  destruct icy_stream_buffers as [Hb Hi]. unfold stream_wf. rewrite Hb, Hi.
  split.
  - constructor; [|constructor]. unfold buf_wf, SIZE_MODULUS. cbn. lia.
  - unfold icy_wf. cbn. lia.
Qed.

(** C1: a read that returns bytes takes some [k] bytes off the front of
    what is buffered and returns the audio bytes among them, in order,
    as the framing of section 4.1 tells them from metadata (all of them
    on a stream without inline metadata); the number it returns is the
    number of these audio bytes, and it is what the read adds to the
    offset, so the metadata bytes among the [k] are counted in neither.
    A read of at least one byte on a well-formed stream does return.
    Across any trace without a seek, the offset at the end is the offset
    at the start plus the sum of what the reads returned: nothing else
    moves it.  (The offset is a [goffset]; the statement is for sums that
    fit it.) *)
Theorem read_counts_audio_bytes
        (icy_parse_tag : list byte -> option struct_tag) :
  (forall (c : input_curl) (size_ : Z),
      stream_wf c -> 0 < size_ < SIZE_MODULUS ->
      exists out c' eff,
        input_curl_read icy_parse_tag c size_ = Ok (out, c', eff)
        /\ forall n d,
            out = ReadBytes n d ->
            exists k : nat,
              pending (buffers c') = skipn k (pending (buffers c))
              /\ d = spec_audio_of (icy c) (firstn k (pending (buffers c)))
              /\ n = Z.of_nat (List.length d)
              /\ 0 < n <= size_
              /\ IcyMetaDataParser.stride (icy c')
                 = IcyMetaDataParser.stride (icy c)
              /\ spec_phase_of (icy c')
                 = spec_phase_after (icy c) (firstn k (pending (buffers c)))
              /\ (G_MININT64 <= offset (base c) ->
                  offset (base c) + n <= G_MAXINT64 ->
                  offset (base c') = offset (base c) + n))
  /\ (forall (G : curl_globals) (tr : list event) (c c' : input_curl)
             (total : Z),
         no_seek tr = true ->
         run icy_parse_tag G c tr = Ok (c', total) ->
         G_MININT64 <= offset (base c) ->
         offset (base c) + total <= G_MAXINT64 ->
         offset (base c') = offset (base c) + total).
Proof.
  split.
  - intros c size_ Hwf Hsize.
    destruct (input_curl_read_ok icy_parse_tag c size_ Hwf Hsize)
      as (out & c' & eff & Hr & _ & _).
    exists out, c', eff. split; [exact Hr|]. intros n d ->.
    destruct (input_curl_read_frames icy_parse_tag c c' size_ n d eff Hwf Hsize Hr)
      as (k & Hp & (Ha & Hs & Hph) & Hn & Hrange & Hoff).
    exists k. split; [exact Hp|]. split; [exact Ha|]. split; [exact Hn|].
    split; [exact Hrange|]. split; [exact Hs|]. split; [exact Hph|].
    intros Hlo Hhi. rewrite Hoff. apply goffset_of_small. lia.
  - intros G tr c c' total.
    exact (read_sum_offset icy_parse_tag G tr c c' total).
Qed.

(** A read of 8 bytes at the front of a stream with a metadata block
    after 4 bytes. *)
Lemma read_counts_audio_bytes_witness :
  exists out c' eff,
    input_curl_read example_parse icy_stream 8 = Ok (out, c', eff)
    /\ forall n d,
        out = ReadBytes n d ->
        exists k : nat,
          pending (buffers c') = skipn k (pending (buffers icy_stream))
          /\ d = spec_audio_of (icy icy_stream)
                          (firstn k (pending (buffers icy_stream)))
          /\ n = Z.of_nat (List.length d)
          /\ 0 < n <= 8
          /\ IcyMetaDataParser.stride (icy c')
             = IcyMetaDataParser.stride (icy icy_stream)
          /\ spec_phase_of (icy c')
             = spec_phase_after (icy icy_stream)
                           (firstn k (pending (buffers icy_stream)))
          /\ (G_MININT64 <= offset (base icy_stream) ->
              offset (base icy_stream) + n <= G_MAXINT64 ->
              offset (base c') = offset (base icy_stream) + n).
Proof.
  apply (proj1 (read_counts_audio_bytes example_parse) icy_stream 8).
  - exact icy_stream_wf.
  - unfold SIZE_MODULUS. lia.
Defined.

(** The same read in numbers: all 41 buffered bytes are taken, 8 of them
    are audio, and the offset moves by 8. *)
Example read_skips_metadata :
  match input_curl_read example_parse icy_stream 8 with
  | Ok (out, c', _) =>
      List.length (pending (buffers icy_stream)) = 41%nat
      /\ pending (buffers c') = []
      /\ out = ReadBytes 8 (spec_audio_of (icy icy_stream)
                                     (pending (buffers icy_stream)))
      /\ offset (base c') = offset (base icy_stream) + 8
  | _ => False
  end.
Proof.
  vm_compute.
  split; [reflexivity|]. split; [reflexivity|]. split; reflexivity.
Qed.

(** ** The header callback: what is copied *)

(** The line of 78 bytes fails the check of end - header against 64, and
    the callback returns without touching the stream, but it has copied
    the name by then. *)
Lemma long_value_copies_name :
  String.length long_content_length = 78%nat
  /\ g_ascii_strcasecmp (span long_content_length 0 14) "content-length" = 0
  /\ input_curl_headerfunction_writes example_stream long_content_length 1 78
     = ([Memcpy ARRAY_name 14; StoreNUL ARRAY_name 14], 78, example_stream).
Proof.
  split; [reflexivity|]. split; vm_compute; reflexivity.
Qed.

Ltac hdr_norm :=
  repeat match goal with
         | H : (_ <=? _) = false |- _ => apply Z.leb_gt in H
         | H : (_ <=? _) = true |- _ => apply Z.leb_le in H
         | H : (_ || _) = false |- _ => apply orb_false_iff in H as [? ?]
         | H : (_ || _) = true |- _ => apply orb_true_iff in H as [H|H]
         | H : (_ =? _) = true |- _ => apply Z.eqb_eq in H
         | H : (_ =? _) = false |- _ => apply Z.eqb_neq in H
         end.

(** C10 (as amended): every write the header callback makes into [name]
    and [buffer] stays inside the 64-byte array.  A line without colon or
    with a name of 64 bytes or more is ignored without any copy.
    Otherwise the name is copied, and nothing or the value after it.  The
    value is copied into [buffer] only for Content-Length and
    icy-metaint, only after the check of end - header against 64, and it
    is then the end - value bytes, at most 62.  A Content-Length or
    icy-metaint line that fails this check is ignored after the copy of
    the name: nothing goes into [buffer] and the stream is left as it
    was.  A line that passes it has its value copied (for icy-metaint:
    unless the metadata parser is already started).  A line whose value
    is not copied leaves the size and the metadata parser alone. *)
Theorem headerfunction_copies_checked
        (c : input_curl) (ptr : string) (size_ nmemb : Z) :
  let writes := fst (fst (input_curl_headerfunction_writes c ptr size_ nmemb)) in
  let c' := snd (input_curl_headerfunction_writes c ptr size_ nmemb) in
  let len := Z.to_nat (size_t (size_ * nmemb)) in
  Forall in_bounds writes
  /\ match memchr ptr ":" len with
     | None => writes = [] /\ c' = c
     | Some colon =>
         if sizeof ARRAY_name <=? Z.of_nat colon
         then writes = [] /\ c' = c
         else
           let name := span ptr 0 colon in
           let value := skip_leading ptr (S colon) len (len - S colon) in
           let end_ := strip_trailing ptr value len (len - value) in
           let w_name := [Memcpy ARRAY_name (Z.of_nat colon);
                          StoreNUL ARRAY_name (Z.of_nat colon)] in
           let w_buffer := [Memcpy ARRAY_buffer (Z.of_nat (end_ - value));
                            StoreNUL ARRAY_buffer (Z.of_nat (end_ - value))] in
           (writes = w_name \/ writes = (w_name ++ w_buffer)%list)
           /\ (writes = (w_name ++ w_buffer)%list ->
               Z.of_nat end_ < sizeof ARRAY_buffer
               /\ Z.of_nat (end_ - value) <= 62
               /\ (g_ascii_strcasecmp name "content-length" = 0
                   \/ g_ascii_strcasecmp name "icy-metaint" = 0))
           /\ (g_ascii_strcasecmp name "content-length" = 0
               \/ g_ascii_strcasecmp name "icy-metaint" = 0 ->
               sizeof ARRAY_buffer <= Z.of_nat end_ ->
               writes = w_name /\ c' = c)
           /\ (g_ascii_strcasecmp name "content-length" = 0 ->
               Z.of_nat end_ < sizeof ARRAY_buffer ->
               writes = (w_name ++ w_buffer)%list)
           /\ (g_ascii_strcasecmp name "icy-metaint" = 0 ->
               Z.of_nat end_ < sizeof ARRAY_buffer ->
               IcyMetaDataParser.IsDefined (icy c) = false ->
               writes = (w_name ++ w_buffer)%list)
     end
  /\ (forall n, In (Memcpy ARRAY_buffer n) writes -> n <= 62)
  /\ ((forall n, ~ In (Memcpy ARRAY_buffer n) writes) ->
      size (base c') = size (base c) /\ icy c' = icy c).
Proof.
  cbv zeta. unfold input_curl_headerfunction_writes.
  destruct (memchr ptr ":" (Z.to_nat (size_t (size_ * nmemb)))) as [colon|] eqn:Hcolon.
  2:{ cbn. repeat split; auto. intros n []. }
  destruct (sizeof ARRAY_name <=? Z.of_nat colon) eqn:Hname.
  { cbn. repeat split; auto. intros n []. }
  apply Z.leb_gt in Hname. cbn [sizeof] in *.
  apply memchr_bound in Hcolon.
  set (end0 := Z.to_nat (size_t (size_ * nmemb))) in *.
  set (value := skip_leading ptr (S colon) end0 (end0 - S colon)).
  set (end1 := strip_trailing ptr value end0 (end0 - value)).
  set (name := span ptr 0 colon).
  assert (Hv : (S colon <= value <= end0)%nat)
    by (apply skip_leading_bounds; lia).
  assert (He : (value <= end1 <= end0)%nat)
    by (apply strip_trailing_bounds; lia).
  assert (Flen : g_ascii_strcasecmp name "content-length" = 0 ->
                 g_ascii_strcasecmp name "accept-ranges" <> 0).
  { intros H. apply Z.eqb_neq.
    apply (g_ascii_strcasecmp_other name "content-length"); [exact H|].
    vm_compute. reflexivity. }
  assert (Fint : g_ascii_strcasecmp name "icy-metaint" = 0 ->
                 g_ascii_strcasecmp name "accept-ranges" <> 0
                 /\ g_ascii_strcasecmp name "content-length" <> 0
                 /\ g_ascii_strcasecmp name "content-type" <> 0
                 /\ g_ascii_strcasecmp name "icy-name" <> 0
                 /\ g_ascii_strcasecmp name "ice-name" <> 0
                 /\ g_ascii_strcasecmp name "x-audiocast-name" <> 0).
  { intros H. repeat split; apply Z.eqb_neq;
      apply (g_ascii_strcasecmp_other name "icy-metaint"); try exact H;
      vm_compute; reflexivity. }
  assert (Bname : Forall in_bounds
                    [Memcpy ARRAY_name (Z.of_nat colon);
                     StoreNUL ARRAY_name (Z.of_nat colon)]).
  { repeat constructor; cbn; lia. }
  assert (Bbuf : Z.of_nat end1 < 64 ->
                 Forall in_bounds
                   [Memcpy ARRAY_buffer (Z.of_nat (end1 - value));
                    StoreNUL ARRAY_buffer (Z.of_nat (end1 - value))]).
  { intros H. repeat constructor; cbn; lia. }
  repeat split_if; cbn [fst snd];
    (split; [hdr_norm; try (apply Forall_app; split); auto |]);
    (split;
     [ split; [first [left; reflexivity | right; reflexivity]|];
       split; [intros Hw; first [discriminate Hw | hdr_norm; auto with zarith]|];
       split; [intros Hn Hend; hdr_norm;
               first [split; reflexivity
                     | exfalso; destruct Hn as [Hn|Hn];
                       [pose proof (Flen Hn)
                       |pose proof (Fint Hn) as (? & ? & ? & ? & ? & ?)];
                       first [lia | congruence]]|];
       split;
       [ intros Hn Hend; hdr_norm;
         first [reflexivity
               | exfalso; pose proof (Flen Hn);
                 try (pose proof (Fint ltac:(eassumption))
                       as (? & ? & ? & ? & ? & ?));
                 first [lia | congruence]]
       | intros Hn Hend Hdef; hdr_norm;
         first [reflexivity
               | exfalso; pose proof (Fint Hn) as (? & ? & ? & ? & ? & ?);
                 first [lia | congruence]] ]
     |]);
    (split;
     [ intros n Hin; cbn in Hin; hdr_norm;
       repeat match goal with
              | H : _ \/ _ |- _ => destruct H
              | H : False |- _ => destruct H
              | H : Memcpy _ _ = Memcpy _ _ |- _ => inversion H; clear H
              | H : StoreNUL _ _ = Memcpy _ _ |- _ => discriminate H
              end; lia
     | intros Hno; try (split; reflexivity);
       exfalso; eapply Hno; cbn; eauto ]).
Qed.
